(** * DiscMotion: the disk-scheduling engine of algorithms.js

    A shallow embedding of the two halves of algorithms.js:
    - Part 1, the functions that fill the global [history] array step by
      step ([calculateSimulationHistory] and the six [calculate*Path]);
    - Part 2, the aggregate [getAlgorithmStats].

    JavaScript numbers are modelled by [Z] (every value that occurs is an
    integer far below 2^53), JavaScript arrays by [list Z], a [Set] of
    numbers by its insertion-ordered list of distinct members, and the
    globals hung on [window] by a record threaded through the functions. *)

From Stdlib Require Import String ZArith List Bool Lia Sorted Permutation.
Import ListNotations.
Open Scope Z_scope.

(** ** JavaScript [Set] of numbers

    A [Set] iterates in insertion order, [add] of a member is a no-op and
    [delete] keeps the order of the others. *)
Module JSSet.

Definition t := list Z.

Definition empty : t := [].

Definition has (s : t) (x : Z) : bool := existsb (Z.eqb x) s.

Definition add (s : t) (x : Z) : t := if has s x then s else s ++ [x].

Definition delete (s : t) (x : Z) : t := filter (fun y => negb (y =? x)) s.

(** [new Set(iterable)] adds the items one after the other. *)
Definition of_list (l : list Z) : t := fold_left add l empty.

Definition size (s : t) : nat := length s.

End JSSet.

(** ** Arrays *)

(** [arr.includes(x)] *)
Definition includes (l : list Z) (x : Z) : bool := existsb (Z.eqb x) l.

(** [arr.sort((a,b)=>a-b)]: ascending numeric order. *)
Fixpoint insert_asc (x : Z) (l : list Z) : list Z :=
  match l with
  | [] => [x]
  | y :: l' => if x <=? y then x :: l else y :: insert_asc x l'
  end.

Fixpoint sort_asc (l : list Z) : list Z :=
  match l with
  | [] => []
  | x :: l' => insert_asc x (sort_asc l')
  end.

(** [arr[0]] and [arr[arr.length - 1]]; the source reads them only under a
    [length > 0] test, so the default is never seen. *)
Definition first (l : list Z) : Z := hd 0 l.
Definition final (l : list Z) : Z := last l 0.

(** ** Steps and the globals *)

Module Step.
Record t := mk {
  head : Z;
  seek : Z;
  served : JSSet.t;
  servedOrder : list Z
}.
End Step.

Record Window := mkWindow {
  DISK_MAX : Z;
  history : list Step.t;
  currentStateIndex : Z;
  originalRequestSet : JSSet.t
}.

Definition set_history (h : list Step.t) (w : Window) : Window :=
  mkWindow (DISK_MAX w) h (currentStateIndex w) (originalRequestSet w).

(** [addHistoryStep]: pushes a snapshot (the set and the array are copied). *)
Definition addHistoryStep (head seek : Z) (servedSet : JSSet.t)
    (servedOrder : list Z) (w : Window) : Window :=
  set_history (history w ++ [Step.mk head seek servedSet servedOrder]) w.

(** The local variables every [calculate*Path] declares, with the globals. *)
Record walk := mkWalk {
  currentHead : Z;
  totalSeek : Z;
  served : JSSet.t;
  servedOrder : list Z;
  win : Window
}.

Definition start_walk (startHead : Z) (w : Window) : walk :=
  mkWalk startHead 0 JSSet.empty [] w.

(** [addHistoryStep(currentHead, totalSeek, served, servedOrder)] *)
Definition record_step (st : walk) : walk :=
  mkWalk (currentHead st) (totalSeek st) (served st) (servedOrder st)
         (addHistoryStep (currentHead st) (totalSeek st) (served st)
                         (servedOrder st) (win st)).

(** [totalSeek += Math.abs(req - currentHead); currentHead = req;] *)
Definition move_to (req : Z) (st : walk) : walk :=
  mkWalk req (totalSeek st + Z.abs (req - currentHead st)) (served st)
         (servedOrder st) (win st).

(** [served.add(x); servedOrder.push(x);] *)
Definition mark_served (x : Z) (st : walk) : walk :=
  mkWalk (currentHead st) (totalSeek st) (JSSet.add (served st) x)
         (servedOrder st ++ [x]) (win st).

(** The five-line body shared by the service loops. *)
Definition serve (req : Z) (st : walk) : walk :=
  let st := move_to req st in
  record_step (mark_served (currentHead st) st).

(** The same body behind [if (req === startHead) continue;]. *)
Definition serve_unless (startHead req : Z) (st : walk) : walk :=
  if req =? startHead then st else serve req st.

(** [served.add(startHead); servedOrder.push(startHead); addHistoryStep(..)] *)
Definition serve_start (startHead : Z) (st : walk) : walk :=
  record_step (mark_served startHead st).

(** A move to a boundary, recorded without serving anything. *)
Definition sweep_to (target : Z) (st : walk) : walk :=
  record_step (move_to target st).

(** [totalSeek += window.DISK_MAX; currentHead = target; addHistoryStep(..)] *)
Definition jump_to (target : Z) (st : walk) : walk :=
  record_step (mkWalk target (totalSeek st + DISK_MAX (win st)) (served st)
                      (servedOrder st) (win st)).

(** ** Part 1: the history generator *)

Definition calculateFcfsPath (requests : list Z) (startHead : Z)
    (w : Window) : Window :=
  win (fold_left
         (fun st req =>
            let st := move_to req st in
            let st := if JSSet.has (originalRequestSet (win st)) req
                      then mark_served req st else st in
            record_step st)
         requests (start_walk startHead w)).

(** The [for (const req of remaining)] scan of SSTF.  [shortestDist] starts
    at [Infinity], modelled by [None]; [dist < Infinity] holds for every
    number. *)
Definition closer (dist : Z) (shortestDist : option Z) : bool :=
  match shortestDist with
  | None => true
  | Some d => dist <? d
  end.

Definition nearest (remaining : JSSet.t) (currentHead : Z) : option Z * Z :=
  fold_left
    (fun (acc : option Z * Z) req =>
       let dist := Z.abs (req - currentHead) in
       if closer dist (fst acc) then (Some dist, req) else acc)
    remaining (None, -1).

(** The [while (remaining.size > 0)] loop; every turn deletes one member, so
    [JSSet.size remaining] turns are enough.  A turn that left
    [shortestDist] at [Infinity] cannot happen on a non-empty set (see
    [nearest_some]); the model stops there. *)
Fixpoint sstf_walk (fuel : nat) (remaining : JSSet.t) (st : walk) : walk :=
  match fuel with
  | O => st
  | S fuel' =>
      if (0 <? JSSet.size remaining)%nat then
        match nearest remaining (currentHead st) with
        | (Some shortestDist, nextReq) =>
            let st := mkWalk nextReq (totalSeek st + shortestDist)
                             (served st) (servedOrder st) (win st) in
            let st := mark_served (currentHead st) st in
            let remaining := JSSet.delete remaining (currentHead st) in
            sstf_walk fuel' remaining (record_step st)
        | (None, _) => st
        end
      else st
  end.

Definition calculateSstfPath (requests : list Z) (startHead : Z)
    (w : Window) : Window :=
  let st := start_walk startHead w in
  let remaining := JSSet.of_list requests in
  let '(remaining, st) :=
    if JSSet.has remaining startHead
    then (JSSet.delete remaining startHead, serve_start startHead st)
    else (remaining, st) in
  win (sstf_walk (JSSet.size remaining) remaining st).

(** [[...new Set(requests)].sort((a,b)=>a-b)] *)
Definition sortedRequests (requests : list Z) : list Z :=
  sort_asc (JSSet.of_list requests).

Definition below (startHead : Z) (l : list Z) : list Z :=
  filter (fun r => r <? startHead) l.

Definition at_or_above (startHead : Z) (l : list Z) : list Z :=
  filter (fun r => r >=? startHead) l.

(** The prologue common to the four sweeping algorithms. *)
Definition sweep_start (requests : list Z) (startHead : Z) (w : Window)
    : walk :=
  let st := start_walk startHead w in
  if includes (sortedRequests requests) startHead
  then serve_start startHead st else st.

Definition calculateScanPath (requests : list Z) (startHead : Z)
    (direction : string) (w : Window) : Window :=
  let sorted := sortedRequests requests in
  let leftRequests := rev (below startHead sorted) in
  let rightRequests := at_or_above startHead sorted in
  let st := sweep_start requests startHead w in
  if (direction =? "right")%string then
    let st := fold_left (fun st req => serve_unless startHead req st)
                        rightRequests st in
    let st := if negb (currentHead st =? DISK_MAX (win st))
              then sweep_to (DISK_MAX (win st)) st else st in
    win (fold_left (fun st req => serve req st) leftRequests st)
  else
    let st := fold_left (fun st req => serve req st) leftRequests st in
    let st := if negb (currentHead st =? 0) then sweep_to 0 st else st in
    win (fold_left (fun st req => serve_unless startHead req st)
                   rightRequests st).

Definition calculateCScanPath (requests : list Z) (startHead : Z)
    (direction : string) (w : Window) : Window :=
  let sorted := sortedRequests requests in
  let leftRequests := below startHead sorted in
  let rightRequests := at_or_above startHead sorted in
  let st := sweep_start requests startHead w in
  if (direction =? "right")%string then
    let st := fold_left (fun st req => serve_unless startHead req st)
                        rightRequests st in
    let st := if negb (currentHead st =? DISK_MAX (win st))
              then sweep_to (DISK_MAX (win st)) st else st in
    let st := jump_to 0 st in
    win (fold_left (fun st req => serve req st) leftRequests st)
  else
    let leftRequests := rev leftRequests in
    let st := fold_left (fun st req => serve req st) leftRequests st in
    let st := if negb (currentHead st =? 0) then sweep_to 0 st else st in
    let st := jump_to (DISK_MAX (win st)) st in
    let rightRequests := rev rightRequests in
    win (fold_left (fun st req => serve_unless startHead req st)
                   rightRequests st).

Definition calculateLookPath (requests : list Z) (startHead : Z)
    (direction : string) (w : Window) : Window :=
  let sorted := sortedRequests requests in
  let leftRequests := rev (below startHead sorted) in
  let rightRequests := at_or_above startHead sorted in
  let st := sweep_start requests startHead w in
  if (direction =? "right")%string then
    let st := fold_left (fun st req => serve_unless startHead req st)
                        rightRequests st in
    win (fold_left (fun st req => serve req st) leftRequests st)
  else
    let st := fold_left (fun st req => serve req st) leftRequests st in
    win (fold_left (fun st req => serve_unless startHead req st)
                   rightRequests st).

Definition calculateCLookPath (requests : list Z) (startHead : Z)
    (direction : string) (w : Window) : Window :=
  let sorted := sortedRequests requests in
  let leftRequests := below startHead sorted in
  let rightRequests := at_or_above startHead sorted in
  let st := sweep_start requests startHead w in
  if (direction =? "right")%string then
    let st := fold_left (fun st req => serve_unless startHead req st)
                        rightRequests st in
    if (0 <? length leftRequests)%nat then
      (* the jump to leftRequests[0], then leftRequests[1..] *)
      let st := serve (first leftRequests) st in
      win (fold_left (fun st req => serve req st) (tl leftRequests) st)
    else win st
  else
    let leftRequests := rev leftRequests in
    let st := fold_left (fun st req => serve req st) leftRequests st in
    if (0 <? length rightRequests)%nat then
      let st := move_to (final rightRequests) st in
      let st := if negb (currentHead st =? startHead)
                then record_step (mark_served (currentHead st) st)
                else st in
      (* i = length - 2 down to 0 *)
      win (fold_left (fun st req => serve_unless startHead req st)
                     (tl (rev rightRequests)) st)
    else win st.

(** The source returns [true]; the model returns the globals the call
    leaves behind, [run] below reads the history out of them. *)
Definition calculateSimulationHistory (algorithm : string)
    (requests : list Z) (startHead : Z) (direction : string) (w : Window)
    : Window :=
  let w := mkWindow (DISK_MAX w) [] 0
             (if (algorithm =? "fcfs")%string
              then JSSet.of_list requests
              else JSSet.of_list (sort_asc (JSSet.of_list requests))) in
  let w := addHistoryStep startHead 0 JSSet.empty [] w in
  let w :=
    if (algorithm =? "fcfs")%string then calculateFcfsPath requests startHead w
    else if (algorithm =? "sstf")%string then
      calculateSstfPath requests startHead w
    else if (algorithm =? "scan")%string then
      calculateScanPath requests startHead direction w
    else if (algorithm =? "c-scan")%string then
      calculateCScanPath requests startHead direction w
    else if (algorithm =? "look")%string then
      calculateLookPath requests startHead direction w
    else if (algorithm =? "c-look")%string then
      calculateCLookPath requests startHead direction w
    else w in
  if (0 <? length (history w))%nat
  then set_history (history w ++ [last (history w) (Step.mk 0 0 [] [])]) w
  else w.

(** ** Part 2: the aggregate total *)

(** The SSTF [while] loop of [getAlgorithmStats], on [headCopy] and
    [totalSeek] alone. *)
Fixpoint sstf_total (fuel : nat) (remaining : JSSet.t) (headCopy : Z)
    (totalSeek : Z) : Z :=
  match fuel with
  | O => totalSeek
  | S fuel' =>
      if (0 <? JSSet.size remaining)%nat then
        match nearest remaining headCopy with
        | (Some shortestDist, nextReq) =>
            sstf_total fuel' (JSSet.delete remaining nextReq) nextReq
                       (totalSeek + shortestDist)
        | (None, _) => totalSeek
        end
      else totalSeek
  end.

(** [if (arr.length > 0) { ... }] on the pair [(headCopy, totalSeek)]. *)
Definition when_nonempty (arr : list Z) (f : Z * Z -> Z * Z) (s : Z * Z)
    : Z * Z :=
  if (0 <? length arr)%nat then f s else s.

(** [totalSeek += Math.abs(x - headCopy); headCopy = x;] *)
Definition go (x : Z) (s : Z * Z) : Z * Z :=
  (x, snd s + Z.abs (x - fst s)).

(** [totalSeek += Math.abs(x - headCopy);] with [headCopy] left alone. *)
Definition charge (x : Z) (s : Z * Z) : Z * Z :=
  (fst s, snd s + Z.abs (x - fst s)).

Definition getAlgorithmStats (algo : string) (requests : list Z)
    (startHead : Z) (direction : string) (w : Window) : Z :=
  let reqCopy := if (algo =? "fcfs")%string then requests
                 else JSSet.of_list requests in
  let headCopy := startHead in
  let dirCopy := direction in
  (* window.DISK_MAX || 199 *)
  let diskMax := if DISK_MAX w =? 0 then 199 else DISK_MAX w in
  let totalSeek := 0 in
  if (algo =? "fcfs")%string then
    snd (fold_left (fun s req => go req s) reqCopy (headCopy, totalSeek))
  else if (algo =? "sstf")%string then
    let remaining := JSSet.of_list reqCopy in
    let remaining := if JSSet.has remaining headCopy
                     then JSSet.delete remaining headCopy else remaining in
    sstf_total (JSSet.size remaining) remaining headCopy totalSeek
  else if (algo =? "scan")%string then
    let reqCopy := sort_asc reqCopy in
    let left := below headCopy reqCopy in
    let right := at_or_above headCopy reqCopy in
    if (dirCopy =? "right")%string then
      let s := when_nonempty right (go (final right)) (headCopy, totalSeek) in
      let s := go diskMax s in
      snd (when_nonempty left (charge (first left)) s)
    else
      let s := when_nonempty left (go (first left)) (headCopy, totalSeek) in
      let s := go 0 s in
      snd (when_nonempty right (charge (final right)) s)
  else if (algo =? "c-scan")%string then
    let reqCopy := sort_asc reqCopy in
    let c_left := below headCopy reqCopy in
    let c_right := at_or_above headCopy reqCopy in
    if (dirCopy =? "right")%string then
      let s := when_nonempty c_right (go (final c_right))
                 (headCopy, totalSeek) in
      let s := charge diskMax s in
      let s := (0, snd s + diskMax) in
      snd (when_nonempty c_left (charge (final c_left)) s)
    else
      let s := when_nonempty c_left (go (first c_left))
                 (headCopy, totalSeek) in
      let s := charge 0 s in
      let s := (diskMax, snd s + diskMax) in
      snd (when_nonempty c_right (charge (first c_right)) s)
  else if (algo =? "look")%string then
    let reqCopy := sort_asc reqCopy in
    let l_left := below headCopy reqCopy in
    let l_right := at_or_above headCopy reqCopy in
    if (dirCopy =? "right")%string then
      let s := when_nonempty l_right (go (final l_right))
                 (headCopy, totalSeek) in
      snd (when_nonempty l_left (charge (first l_left)) s)
    else
      let s := when_nonempty l_left (go (first l_left))
                 (headCopy, totalSeek) in
      snd (when_nonempty l_right (charge (final l_right)) s)
  else if (algo =? "c-look")%string then
    let reqCopy := sort_asc reqCopy in
    let cl_left := below headCopy reqCopy in
    let cl_right := at_or_above headCopy reqCopy in
    if (dirCopy =? "right")%string then
      let s := when_nonempty cl_right (go (final cl_right))
                 (headCopy, totalSeek) in
      snd (when_nonempty cl_left
             (fun s => (fst s,
                        snd (charge (first cl_left) s)
                        + Z.abs (final cl_left - first cl_left))) s)
    else
      let s := when_nonempty cl_left (go (first cl_left))
                 (headCopy, totalSeek) in
      snd (when_nonempty cl_right
             (fun s => (fst s,
                        snd (charge (final cl_right) s)
                        + Z.abs (first cl_right - final cl_right))) s)
  else totalSeek.

(** ** Reading a run *)

(** The window the page starts from: [window.DISK_MAX = 199], nothing else. *)
Definition page (diskMax : Z) : Window := mkWindow diskMax [] 0 JSSet.empty.

Definition run (algorithm : string) (requests : list Z) (startHead : Z)
    (direction : string) (w : Window) : list Step.t :=
  history (calculateSimulationHistory algorithm requests startHead direction w).

(** [cumulativeSeek] of the final Step of a run. *)
Definition finalSeek (r : list Step.t) : Z :=
  Step.seek (last r (Step.mk 0 0 [] [])).

Definition in_range (diskMax x : Z) : Prop := 0 <= x <= diskMax.

(** Cost of visiting [l] in order from [h]. *)
Fixpoint path_cost (h : Z) (l : list Z) : Z :=
  match l with
  | [] => 0
  | x :: l' => Z.abs (x - h) + path_cost x l'
  end.

(** * Vocabulary of the properties *)

(** ** Histories and runs *)

(** [extends w w']: [w'] has the steps of [w] and possibly more after
    them. *)
Definition extends (w w' : Window) : Prop :=
  exists l, history w' = history w ++ l.

(** [f] only pushes steps. *)
Definition grows (f : walk -> walk) : Prop :=
  forall st, extends (win st) (win (f st)).

Module Scenario.

(** The request queue of the three scenarios, in arrival order. *)
Definition queue : list Z := [98; 183; 37; 122; 14; 124; 65; 67].
Definition queue_sorted : list Z := [14; 37; 65; 67; 98; 122; 124; 183].

Definition w199 : Window := page 199.

(** The steps of a run without the closing duplicate. *)
Definition walked (r : list Step.t) : list Step.t := removelast r.

(** The final step of a run. *)
Definition final_step (r : list Step.t) : Step.t :=
  last r (Step.mk 0 0 [] []).

Definition scan_left := run "scan" queue_sorted 53 "left" w199.
Definition sstf_run := run "sstf" queue 53 "left" w199.
Definition fcfs_run := run "fcfs" queue 53 "left" w199.

End Scenario.

(** The six tokens the two [switch] statements know. *)
Definition known_algorithm (algorithm : string) : bool :=
  existsb (String.eqb algorithm)
          ["fcfs"; "sstf"; "scan"; "c-scan"; "look"; "c-look"]%string.

(** The run that holds the start step and its duplicate only. *)
Definition idle_run (startHead : Z) : list Step.t :=
  [Step.mk startHead 0 JSSet.empty []; Step.mk startHead 0 JSSet.empty []].

(** The sets the two SSTF loops work on: the [Set] made of the requests,
    less the members deleted so far. *)
Inductive pending (requests : list Z) : JSSet.t -> Prop :=
| pending_all : pending requests (JSSet.of_list requests)
| pending_delete (s : JSSet.t) (x : Z) :
    pending requests s -> pending requests (JSSet.delete s x).

(** ** Plans

    Every loop body and boundary move of Part 1 is one of seven actions, and
    every [calculate*Path] runs a list of them.  The plans are proved equal
    to the functions of Part 1 ([scan_is_plan] and its siblings); invariants
    and totals are then shown once, for plans. *)

Inductive action : Type :=
| Serve (req : Z)               (* the loop body: move, mark, record *)
| ServeHere (x : Z)             (* mark and record where the head stands *)
| SweepMin                      (* if not at 0: move to 0, record *)
| SweepMax                      (* if not at DISK_MAX: move there, record *)
| JumpMin                       (* add DISK_MAX, stand at 0, record *)
| JumpMax                       (* add DISK_MAX, stand at DISK_MAX, record *)
| Land (startHead x : Z).       (* move; mark and record unless at startHead *)

(** What an action does to the locals and the history. *)
Definition act (a : action) (st : walk) : walk :=
  match a with
  | Serve req => serve req st
  | ServeHere x => serve_start x st
  | SweepMin => if negb (currentHead st =? 0) then sweep_to 0 st else st
  | SweepMax => if negb (currentHead st =? DISK_MAX (win st))
                then sweep_to (DISK_MAX (win st)) st else st
  | JumpMin => jump_to 0 st
  | JumpMax => jump_to (DISK_MAX (win st)) st
  | Land startHead x =>
      let st := move_to x st in
      if negb (currentHead st =? startHead)
      then record_step (mark_served (currentHead st) st) else st
  end.

(** The actions of a plan, one after the other. *)
Definition exec (plan : list action) (st : walk) : walk :=
  fold_left (fun st a => act a st) plan st.

(** What an action adds to [served]. *)
Definition serves (a : action) : list Z :=
  match a with
  | Serve x | ServeHere x => [x]
  | Land startHead x => if x =? startHead then [] else [x]
  | _ => []
  end.

(** Where an action sends the head, boundaries apart. *)
Definition lands_in_range (D : Z) (a : action) : Prop :=
  match a with
  | Serve x | Land _ x => in_range D x
  | _ => True
  end.

(** [l] without [startHead]: what a loop with
    [if (req === startHead) continue;] serves. *)
Definition others (startHead : Z) (l : list Z) : list Z :=
  filter (fun r => negb (r =? startHead)) l.

(** The start position is served first when it is a request. *)
Definition prologue (requests : list Z) (startHead : Z) : list action :=
  if includes (sortedRequests requests) startHead
  then [ServeHere startHead] else [].

(** The walks of the four sweeping algorithms: [L] below the start
    position, [R] at or above it, both ascending. *)
Definition scan_plan (requests : list Z) (startHead : Z)
    (direction : string) : list action :=
  let L := below startHead (sortedRequests requests) in
  let R := at_or_above startHead (sortedRequests requests) in
  prologue requests startHead ++
  if (direction =? "right")%string
  then map Serve (others startHead R) ++ [SweepMax] ++ map Serve (rev L)
  else map Serve (rev L) ++ [SweepMin] ++ map Serve (others startHead R).

Definition cscan_plan (requests : list Z) (startHead : Z)
    (direction : string) : list action :=
  let L := below startHead (sortedRequests requests) in
  let R := at_or_above startHead (sortedRequests requests) in
  prologue requests startHead ++
  if (direction =? "right")%string
  then map Serve (others startHead R) ++ [SweepMax; JumpMin] ++ map Serve L
  else map Serve (rev L) ++ [SweepMin; JumpMax]
       ++ map Serve (others startHead (rev R)).

Definition look_plan (requests : list Z) (startHead : Z)
    (direction : string) : list action :=
  let L := below startHead (sortedRequests requests) in
  let R := at_or_above startHead (sortedRequests requests) in
  prologue requests startHead ++
  if (direction =? "right")%string
  then map Serve (others startHead R) ++ map Serve (rev L)
  else map Serve (rev L) ++ map Serve (others startHead R).

Definition clook_plan (requests : list Z) (startHead : Z)
    (direction : string) : list action :=
  let L := below startHead (sortedRequests requests) in
  let R := at_or_above startHead (sortedRequests requests) in
  prologue requests startHead ++
  if (direction =? "right")%string
  then map Serve (others startHead R) ++ map Serve L
  else map Serve (rev L) ++
       match rev R with
       | [] => []
       | x :: t => Land startHead x :: map Serve (others startHead t)
       end.

(** The requests in the order SSTF serves them. *)
Fixpoint sstf_order (fuel : nat) (remaining : JSSet.t) (h : Z) : list Z :=
  match fuel with
  | O => []
  | S fuel' =>
      match remaining with
      | [] => []
      | _ => let r := snd (nearest remaining h) in
             r :: sstf_order fuel' (JSSet.delete remaining r) r
      end
  end.

(** ** Invariants *)

(** The later of two steps has at least the seek and the served set of the
    earlier. *)
Definition step_le (a b : Step.t) : Prop :=
  Step.seek a <= Step.seek b /\ incl (Step.served a) (Step.served b).

(** Each step of the history is followed by a later one. *)
Fixpoint chain (h : list Step.t) : Prop :=
  match h with
  | [] => True
  | a :: t => match t with [] => True | b :: _ => step_le a b end /\ chain t
  end.

(** [servedOrder] is duplicate free and lists the members of [served] in
    the order they were added. *)
Definition in_order (s : Step.t) : Prop :=
  NoDup (Step.servedOrder s) /\ Step.servedOrder s = Step.served s.

(** The step [addHistoryStep] would push now. *)
Definition snapshot (st : walk) : Step.t :=
  Step.mk (currentHead st) (totalSeek st) (served st) (servedOrder st).

(** What every walk keeps: the head within [0, D], a history whose steps
    follow one another, heads within [0, D], nothing beyond the locals. *)
Record WInv (D : Z) (st : walk) : Prop := mkWInv {
  winv_disk : DISK_MAX (win st) = D;
  winv_head : in_range D (currentHead st);
  winv_chain : chain (history (win st));
  winv_heads : Forall (fun s => in_range D (Step.head s)) (history (win st));
  winv_bound : Forall (fun s => step_le s (snapshot st)) (history (win st))
}.

(** What a walk keeps as long as it serves nothing twice. *)
Record OInv (st : walk) : Prop := mkOInv {
  oinv_same : servedOrder st = served st;
  oinv_nodup : NoDup (served st);
  oinv_steps : Forall in_order (history (win st))
}.

(** SSTF: the start position first when it is a request, then the others
    nearest first. *)
Definition sstf_plan (requests : list Z) (startHead : Z) : list action :=
  let remaining := JSSet.of_list requests in
  if JSSet.has remaining startHead
  then ServeHere startHead
       :: map Serve (sstf_order (JSSet.size (JSSet.delete remaining startHead))
                                (JSSet.delete remaining startHead) startHead)
  else map Serve (sstf_order (JSSet.size remaining) remaining startHead).

(** The step FCFS records after its first [k] visits. *)
Definition fcfs_step (startHead : Z) (requests : list Z) (k : nat) : Step.t :=
  let visited := firstn k requests in
  Step.mk (last visited startHead) (path_cost startHead visited)
          (JSSet.of_list visited) visited.

(** ** Totals *)

(** Where an action leaves a head that stood at [h]. *)
Definition position (D h : Z) (a : action) : Z :=
  match a with
  | Serve x | Land _ x => x
  | ServeHere _ => h
  | SweepMin | JumpMin => 0
  | SweepMax | JumpMax => D
  end.

(** What an action adds to [totalSeek] with the head at [h]. *)
Definition cost (D h : Z) (a : action) : Z :=
  match a with
  | Serve x | Land _ x => Z.abs (x - h)
  | ServeHere _ => 0
  | SweepMin => Z.abs (0 - h)
  | SweepMax => Z.abs (D - h)
  | JumpMin | JumpMax => D
  end.

(** What a plan adds to [totalSeek], and where it leaves the head. *)
Fixpoint plan_cost (D h : Z) (plan : list action) : Z :=
  match plan with
  | [] => 0
  | a :: p => cost D h a + plan_cost D (position D h a) p
  end.

Fixpoint plan_end (D h : Z) (plan : list action) : Z :=
  match plan with
  | [] => h
  | a :: p => plan_end D (position D h a) p
  end.

(** The locals are what the last step of the history shows. *)
Definition synced (st : walk) : Prop :=
  exists h, history (win st) = h ++ [snapshot st].

(** No landing on the start position: the one action that charges a move
    without recording it. *)
Definition recorded (a : action) : Prop :=
  match a with
  | Land startHead x => x <> startHead
  | _ => True
  end.

(** ** Every run as one plan *)

(** The globals after the reset and the first step of
    [calculateSimulationHistory]. *)
Definition opening_window (algorithm : string) (requests : list Z)
    (startHead : Z) (w : Window) : Window :=
  addHistoryStep startHead 0 JSSet.empty []
    (mkWindow (DISK_MAX w) [] 0
       (if (algorithm =? "fcfs")%string
        then JSSet.of_list requests
        else JSSet.of_list (sort_asc (JSSet.of_list requests)))).

(** The plan that the [switch] of [calculateSimulationHistory] runs. *)
Definition plan_of (algorithm : string) (requests : list Z) (startHead : Z)
    (direction : string) : list action :=
  if (algorithm =? "fcfs")%string then map Serve requests
  else if (algorithm =? "sstf")%string then sstf_plan requests startHead
  else if (algorithm =? "scan")%string then
    scan_plan requests startHead direction
  else if (algorithm =? "c-scan")%string then
    cscan_plan requests startHead direction
  else if (algorithm =? "look")%string then
    look_plan requests startHead direction
  else if (algorithm =? "c-look")%string then
    clook_plan requests startHead direction
  else [].

(** The locals and globals when the walk of an algorithm is through. *)
Definition walked_state (algorithm : string) (requests : list Z)
    (startHead : Z) (direction : string) (w : Window) : walk :=
  exec (plan_of algorithm requests startHead direction)
       (start_walk startHead (opening_window algorithm requests startHead w)).

(** A history with its last step pushed once more. *)
Definition closed (h : list Step.t) : list Step.t :=
  h ++ [last h (Step.mk 0 0 [] [])].

(** The last step of the history shows the served set and order of the
    locals. *)
Definition shown (st : walk) : Prop :=
  exists h s, history (win st) = h ++ [s] /\
              Step.served s = served st /\
              Step.servedOrder s = servedOrder st.

(** ** Distance travelled *)

(** The later step adds to [seek] the distance between the two heads. *)
Definition step_exact (a b : Step.t) : Prop :=
  Step.seek b = Step.seek a + Z.abs (Step.head b - Step.head a).

(** Every step of the history is metered against the one before. *)
Fixpoint metered (h : list Step.t) : Prop :=
  match h with
  | [] => True
  | a :: t => match t with [] => True | b :: _ => step_exact a b end
              /\ metered t
  end.

(** Actions that move by what they charge and record what they do. *)
Definition simple (a : action) : Prop :=
  match a with
  | JumpMin | JumpMax | Land _ _ => False
  | _ => True
  end.

(** A plan whose jumps start from the opposite boundary and whose landing on
    the start position, if any, comes last. *)
Fixpoint metered_plan (D h : Z) (plan : list action) : Prop :=
  match plan with
  | [] => True
  | a :: p =>
      match a with
      | JumpMin => h = D
      | JumpMax => h = 0
      | Land startHead x => x = startHead -> p = []
      | _ => True
      end /\ metered_plan D (position D h a) p
  end.

(** ** Visits *)

(** Whatever is served is the head of a step of the history. *)
Definition visited (st : walk) : Prop :=
  forall x, In x (served st) ->
            exists t, In t (history (win st)) /\ Step.head t = x.

(** A plan that serves on the spot only where the head stands. *)
Fixpoint stands (D h : Z) (plan : list action) : Prop :=
  match plan with
  | [] => True
  | a :: p =>
      match a with ServeHere x => x = h | _ => True end
      /\ stands D (position D h a) p
  end.

(** An action that is not a service on the spot. *)
Definition moves (a : action) : Prop :=
  match a with ServeHere _ => False | _ => True end.

(** ** The first sweep *)

(** The requests on the side the head first moves to, the start position
    among them when it is a request. *)
Definition near_side (requests : list Z) (startHead : Z)
    (direction : string) : list action :=
  prologue requests startHead ++
  if (direction =? "right")%string
  then map Serve
         (others startHead
            (at_or_above startHead (sortedRequests requests)))
  else map Serve (rev (below startHead (sortedRequests requests))).

(** The same, and on to the boundary. *)
Definition first_sweep (requests : list Z) (startHead : Z)
    (direction : string) : list action :=
  near_side requests startHead direction ++
  if (direction =? "right")%string then [SweepMax] else [SweepMin].

(** Is [x] on the side the head first moves to? *)
Definition on_near_side (startHead : Z) (direction : string) (x : Z) : Prop :=
  if (direction =? "right")%string then startHead <= x else x <= startHead.

(** * Part 3: the page (app.js)

    The handlers of app.js work on the globals of Part 1, on [isPlaying] and
    on a few elements of the document.  The globals are read as the code
    writes them: properties of [window] that hold what was last assigned, so
    that [window.history] is the array of steps.  A browser keeps its own
    read-only History object in [window.history] and ignores the
    assignments; whatever is said below of the steps a history holds is
    said of the reading in which the assignments take effect.  The model
    keeps the state the handlers read and write; what they only paint (the
    canvas, the texts of the statistics) or schedule (the timer behind
    [animateLoop], of which only the call it makes is kept) is left out. *)

(** ** The form *)

(** What [parseInt] makes of a text: a whole number, or [NaN] ([None]). *)
Definition parsed := option Z.

(** The fields the handlers read; the texts are taken as [parseInt] gives
    them back. *)
Record Form := mkForm {
  algorithmValue : string;      (* window.algorithmSelect.value *)
  requestFields : list parsed;  (* reqInput.value.split(',') , each parsed *)
  headField : parsed;           (* parseInt(headInput.value) *)
  directionValue : string       (* dirSelect.value *)
}.

(** [!isNaN(n) && n >= 0 && n <= window.DISK_MAX] *)
Definition acceptable (diskMax : Z) (n : parsed) : bool :=
  match n with
  | None => false
  | Some z => (z >=? 0) && (z <=? diskMax)
  end.

(** The numbers of the request field that pass the filter. *)
Definition validRequests (diskMax : Z) (fields : list parsed) : list Z :=
  flat_map (fun n => match n with Some z => [z] | None => [] end)
           (filter (acceptable diskMax) fields).

Module Inputs.
Record t := mk {
  requests : list Z;
  startHead : Z;
  direction : string
}.
End Inputs.

(** [parseInputs] returns [null] after (when asked to) showing a message,
    or the inputs. *)
Inductive parse_result : Type :=
| Rejected (message : string)
| Accepted (inputs : Inputs.t).

Definition parseInputs (f : Form) (w : Window) : parse_result :=
  let requests := validRequests (DISK_MAX w) (requestFields f) in
  let direction := directionValue f in
  match headField f with
  | None => Rejected "Invalid Start Head. Must be between 0 and 199."
  | Some startHead =>
      if (startHead <? 0) || (startHead >? DISK_MAX w) then
        Rejected "Invalid Start Head. Must be between 0 and 199."
      else if (length requests =? 0)%nat then
        Rejected "No valid requests. Please enter numbers between 0 and 199."
      else if (algorithmValue f =? "fcfs")%string then
        Accepted (Inputs.mk requests startHead direction)
      else
        Accepted (Inputs.mk (sort_asc (JSSet.of_list requests)) startHead
                            direction)
  end.

(** ** The state of the page *)

Record Page := mkPage {
  globals : Window;
  isPlaying : bool;             (* window.isPlaying *)
  form : Form;
  errorBox : option string;     (* the text shown in #error-message *)
  scrubberMax : Z               (* timelineScrubber.max *)
}.

Definition with_globals (w : Window) (p : Page) : Page :=
  mkPage w (isPlaying p) (form p) (errorBox p) (scrubberMax p).

Definition with_index (i : Z) (p : Page) : Page :=
  with_globals
    (mkWindow (DISK_MAX (globals p)) (history (globals p)) i
              (originalRequestSet (globals p))) p.

Definition with_playing (b : bool) (p : Page) : Page :=
  mkPage (globals p) b (form p) (errorBox p) (scrubberMax p).

Definition with_scrubberMax (m : Z) (p : Page) : Page :=
  mkPage (globals p) (isPlaying p) (form p) (errorBox p) m.

Definition showError (message : string) (p : Page) : Page :=
  mkPage (globals p) (isPlaying p) (form p) (Some message) (scrubberMax p).

Definition clearError (p : Page) : Page :=
  mkPage (globals p) (isPlaying p) (form p) None (scrubberMax p).

(** [window.history.length], and [window.currentStateIndex]. *)
Definition frames (p : Page) : Z := Z.of_nat (length (history (globals p))).
Definition frame (p : Page) : Z := currentStateIndex (globals p).

(** ** The handlers *)

Definition animateLoop (p : Page) : Page :=
  if negb (isPlaying p) then p
  else if frame p <? frames p - 1
       then with_index (frame p + 1) p
       else with_playing false p.

(** The block "Setup simulation if it's the first run" of [handleStart] and
    [handleStepForward]; [false] stands for its [return]. *)
Definition firstRun (p : Page) : Page * bool :=
  if frames p <=? 1 then
    match parseInputs (form p) (globals p) with
    | Rejected message => (showError message p, false)
    | Accepted inputs =>
        let p := with_globals
                   (calculateSimulationHistory
                      (algorithmValue (form p)) (Inputs.requests inputs)
                      (Inputs.startHead inputs) (Inputs.direction inputs)
                      (globals p)) p in
        (with_scrubberMax (frames p - 1) p, true)
    end
  else (p, true).

Definition handleStart (p : Page) : Page :=
  if isPlaying p then p
  else
    let p := clearError p in
    let '(p, go_on) := firstRun p in
    if negb go_on then p
    else
      let p := if frame p >=? frames p - 1 then with_index 0 p else p in
      animateLoop (with_playing true p).

Definition handlePause (p : Page) : Page :=
  if negb (isPlaying p) then p else with_playing false p.

Definition handleReset (p : Page) : Page :=
  let p := clearError (with_playing false p) in
  with_scrubberMax 0
    (with_globals (mkWindow (DISK_MAX (globals p)) [] 0 JSSet.empty) p).

Definition handleStepForward (p : Page) : Page :=
  if isPlaying p then p
  else
    let p := clearError p in
    let '(p, go_on) := firstRun p in
    if negb go_on then p
    else if frame p <? frames p - 1 then with_index (frame p + 1) p else p.

Definition handleStepBackward (p : Page) : Page :=
  if isPlaying p || (frame p =? 0) then p
  else if frame p >? 0 then with_index (frame p - 1) p else p.

(** [value] is [parseInt(e.target.value, 10)]. *)
Definition handleScrubberInput (value : Z) (p : Page) : Page :=
  let p := if isPlaying p then handlePause p else p in
  with_index value p.

(** What [updateButtonStates] disables. *)
Record Buttons := mkButtons {
  startDisabled : bool;
  pauseDisabled : bool;
  resetDisabled : bool;
  stepFwdDisabled : bool;
  stepBackDisabled : bool;
  inputsDisabled : bool;        (* the form fields, Generate and Compare *)
  scrubberDisabled : bool
}.

Definition updateButtonStates (p : Page) : Buttons :=
  let atStart := frame p =? 0 in
  let atEnd := frame p >=? frames p - 1 in
  let hasHistory := frames p >? 1 in
  mkButtons
    (isPlaying p || (hasHistory && atEnd))
    (negb (isPlaying p))
    (isPlaying p)
    (isPlaying p || (hasHistory && atEnd))
    (isPlaying p || negb hasHistory || atStart)
    (isPlaying p || hasHistory)
    (negb hasHistory).

(** ** Compare All *)

Definition upper (c : Ascii.ascii) : Ascii.ascii :=
  let n := Ascii.nat_of_ascii c in
  if ((97 <=? n) && (n <=? 122))%nat then Ascii.ascii_of_nat (n - 32) else c.

(** [toUpperCase], on the ASCII texts it is used on. *)
Fixpoint toUpperCase (s : string) : string :=
  match s with
  | EmptyString => EmptyString
  | String c s' => String (upper c) (toUpperCase s')
  end.

Module Result.
Record t := mk {
  name : string;
  seek : Z
}.
End Result.

(** [results.sort((a, b) => a.seek - b.seek)]: ascending, equal rows in the
    order they had. *)
Fixpoint insert_row (x : Result.t) (l : list Result.t) : list Result.t :=
  match l with
  | [] => [x]
  | y :: l' => if Result.seek x <=? Result.seek y then x :: l
               else y :: insert_row x l'
  end.

Fixpoint sort_rows (l : list Result.t) : list Result.t :=
  match l with
  | [] => []
  | x :: l' => insert_row x (sort_rows l')
  end.

Definition algos : list string :=
  ["fcfs"; "sstf"; "scan"; "c-scan"; "look"; "c-look"]%string.

(** The rows before they are sorted: the raw valid requests go to
    [getAlgorithmStats], the start position and the direction come from
    [parseInputs]. *)
Definition compareResults (f : Form) (inputs : Inputs.t) (w : Window)
    : list Result.t :=
  map (fun algo =>
         Result.mk (toUpperCase algo)
                (getAlgorithmStats algo
                   (validRequests (DISK_MAX w) (requestFields f))
                   (Inputs.startHead inputs) (Inputs.direction inputs) w))
      algos.

(** The table of the modal, the best row first; [None] when the inputs are
    rejected. *)
Definition handleCompareAll (p : Page) : Page * option (list Result.t) :=
  let p := clearError p in
  match parseInputs (form p) (globals p) with
  | Rejected message => (showError message p, None)
  | Accepted inputs =>
      (p, Some (sort_rows (compareResults (form p) inputs (globals p))))
  end.

(** ** Export TXT *)

Module TraceRow.
Record t := mk {
  step : nat;
  moveTo : Z;
  seek : Z;
  totalSeek : Z;
  servedRequests : list Z
}.
End TraceRow.

(** The rows of the step-by-step table of [handleExportTXT], as numbers. *)
Definition traceRows (h : list Step.t) : list TraceRow.t :=
  let undefined := Step.mk 0 0 [] [] in
  map (fun i =>
         let state := nth i h undefined in
         let lastHead := if (i =? 0)%nat then Step.head state
                         else Step.head (nth (i - 1) h undefined) in
         let seek := if (i =? 0)%nat then 0
                     else Z.abs (Step.head state - lastHead) in
         TraceRow.mk i (Step.head state) seek (Step.seek state)
                     (sort_asc (Step.served state)))
      (seq 0 (length h)).

(** [fullPath]: the heads of all steps. *)
Definition fullPath (h : list Step.t) : list Z := map Step.head h.

(** Sum of a column. *)
Definition total (l : list Z) : Z := fold_right Z.add 0 l.

(** What [handleExportTXT] ends in: a message and no file, an exception
    where it reads [inputs.startHead] of [null], or the download of a trace,
    of which the numbers are kept: Initial Head, Served Sequence, Total Seek
    Time, Total Requests, Full Path and the table. *)
Inductive export : Type :=
| NoExport
| Failure
| Trace (initialHead : Z) (servedSequence : list Z) (totalSeekTime : Z)
        (totalRequests : nat) (path : list Z) (rows : list TraceRow.t).

Definition handleExportTXT (p : Page) : Page * export :=
  let w := globals p in
  if frames p <=? 1 then
    (showError "Please run a simulation before exporting." p, NoExport)
  else
    match parseInputs (form p) w with
    | Rejected _ => (p, Failure)
    | Accepted inputs =>
        let finalState := last (history w) (Step.mk 0 0 [] []) in
        (p, Trace (Inputs.startHead inputs) (Step.servedOrder finalState)
                  (Step.seek finalState) (JSSet.size (originalRequestSet w))
                  (fullPath (history w)) (traceRows (history w)))
    end.

(** ** Generate *)

(** [while (requests.size < count) requests.add(...)], the numbers taken from
    [randoms], the successive values of
    [Math.floor(Math.random() * (window.DISK_MAX + 1))].  The loop ends with
    the set and the numbers left over; it is still running ([None]) when the
    numbers are used up before the set is full. *)
Fixpoint fill (randoms : list Z) (count : Z) (requests : JSSet.t)
    : option (JSSet.t * list Z) :=
  match randoms with
  | [] => if Z.of_nat (JSSet.size requests) <? count then None
          else Some (requests, [])
  | r :: rest =>
      if Z.of_nat (JSSet.size requests) <? count
      then fill rest count (JSSet.add requests r)
      else Some (requests, randoms)
  end.

(** [count] is [parseInt(randomCountInput.value, 10)], [above] whether the
    last [Math.random()] was above 0.5.  A handler that has not come to
    writing the fields leaves the page as [handleReset] made it. *)
Definition handleRandomInputs (count : parsed) (randoms : list Z)
    (above : bool) (p : Page) : Page :=
  if isPlaying p then p
  else
    let p := handleReset p in
    let refused := showError "Please enter a count between 5 and 50." p in
    match count with
    | None => refused
    | Some c =>
        if (c <? 5) || (c >? 50) then refused
        else
          match fill randoms c JSSet.empty with
          | Some (requests, startHead :: _) =>
              mkPage (globals p) (isPlaying p)
                     (mkForm (algorithmValue (form p)) (map Some requests)
                             (Some startHead)
                             (if above then "right" else "left"))
                     (errorBox p) (scrubberMax p)
          | _ => p
          end
    end.

(** ** Events *)

(** What can happen to the page: a click, a move of the scrubber, the timer
    of [animateLoop] firing, or the user changing the form. *)
Inductive event : Type :=
| Start
| Pause
| Reset
| StepForward
| StepBackward
| Scrub (value : Z)
| Tick
| Edit (f : Form)
| Generate (count : parsed) (randoms : list Z) (above : bool)
| ExportTXT
| CompareAll.

Definition handle (e : event) (p : Page) : Page :=
  match e with
  | Start => handleStart p
  | Pause => handlePause p
  | Reset => handleReset p
  | StepForward => handleStepForward p
  | StepBackward => handleStepBackward p
  | Scrub value => handleScrubberInput value p
  | Tick => animateLoop p
  | Edit f => mkPage (globals p) (isPlaying p) f (errorBox p) (scrubberMax p)
  | Generate count randoms above =>
      handleRandomInputs count randoms above p
  | ExportTXT => fst (handleExportTXT p)
  | CompareAll => fst (handleCompareAll p)
  end.

(** The browser moves an enabled scrubber between 0 and its [max] only and
    leaves a disabled field as it is.  The clicks and the timer may come at
    any time. *)
Definition possible (p : Page) (e : event) : Prop :=
  match e with
  | Scrub value => scrubberDisabled (updateButtonStates p) = false
                   /\ 0 <= value <= scrubberMax p
  | Edit _ => inputsDisabled (updateButtonStates p) = false
  | _ => True
  end.

(** The pages the events lead to from a page with no history. *)
Inductive reachable (diskMax : Z) : Page -> Prop :=
| reachable_fresh (f : Form) (m : Z) :
    reachable diskMax
      (mkPage (mkWindow diskMax [] 0 JSSet.empty) false f None m)
| reachable_step (p : Page) (e : event) :
    reachable diskMax p -> possible p e -> reachable diskMax (handle e p).

(** The frame index points into the history (or is 0 with no history), a
    history has two frames at least, and the scrubber ends where the history
    does. *)
Definition well_framed (p : Page) : Prop :=
  (frames p = 0 /\ frame p = 0)
  \/ (2 <= frames p /\ 0 <= frame p <= frames p - 1
      /\ scrubberMax p = frames p - 1).

(** The history of the page is empty, or the run of what [parseInputs]
    makes of the form as it stands, together with the request set of that
    run. *)
Definition shows_a_run (diskMax : Z) (p : Page) : Prop :=
  history (globals p) = []
  \/ exists inputs,
       parseInputs (form p) (page diskMax) = Accepted inputs /\
       history (globals p)
       = run (algorithmValue (form p)) (Inputs.requests inputs)
             (Inputs.startHead inputs) (Inputs.direction inputs)
             (page diskMax) /\
       originalRequestSet (globals p)
       = originalRequestSet
           (opening_window (algorithmValue (form p)) (Inputs.requests inputs)
                           (Inputs.startHead inputs) (page diskMax)).

(** The events that drop the history. *)
Definition clears (e : event) : bool :=
  match e with
  | Reset | Generate _ _ _ => true
  | _ => false
  end.

(** What the handlers keep. *)
Definition sound (diskMax : Z) (p : Page) : Prop :=
  well_framed p /\ DISK_MAX (globals p) = diskMax /\ shows_a_run diskMax p
  /\ (isPlaying p = true -> 2 <= frames p).

(** The order of the table, and the rows of one total. *)
Definition cheaper (a b : Result.t) : Prop := Result.seek a <= Result.seek b.

Definition rows_with (v : Z) (l : list Result.t) : list Result.t :=
  filter (fun r => Result.seek r =? v) l.

(** ** Exact arithmetic *)

(** [Number.MAX_SAFE_INTEGER].  The numbers of the source are binary64
    floats: whole numbers up to this bound are all of them there, and their
    sums and differences within it are exact, which is what [Z] computes. *)
Definition MAX_SAFE_INTEGER : Z := 2 ^ 53 - 1.

(** Inputs on which no total leaves the safe integers: requests and start
    position within [0, DISK_MAX], and room for a move of DISK_MAX for each
    request and four more. *)
Definition safe_inputs (requests : list Z) (startHead : Z) (w : Window)
    : Prop :=
  Forall (in_range (DISK_MAX w)) requests /\
  in_range (DISK_MAX w) startHead /\
  (Z.of_nat (length requests) + 4) * DISK_MAX w <= MAX_SAFE_INTEGER.

(** ** The tie-break of SSTF, in the words of the specification *)

(** The request selected at head [h] when the requests in [served] are out
    of the way: one still to be served, nearest to the head, and of the
    nearest ones the one whose first occurrence comes first in the input
    list. *)
Definition first_nearest (requests served : list Z) (h r : Z) : Prop :=
  In r requests /\ ~ In r served /\
  (forall x, In x requests -> ~ In x served ->
             Z.abs (r - h) <= Z.abs (x - h)) /\
  exists pre post,
    requests = pre ++ r :: post /\ ~ In r pre /\
    forall x, In x pre -> ~ In x served -> Z.abs (r - h) < Z.abs (x - h).

(** The requests in the order of their selection, the head moving to each
    as it is selected. *)
Inductive first_nearest_order (requests : list Z)
    : list Z -> Z -> list Z -> Prop :=
| nothing_left (served : list Z) (h : Z) :
    (forall x, In x requests -> In x served) ->
    first_nearest_order requests served h []
| select (served : list Z) (h r : Z) (rest : list Z) :
    first_nearest requests served h r ->
    first_nearest_order requests (served ++ [r]) r rest ->
    first_nearest_order requests served h (r :: rest).

(** A request for the start position is served where the head stands. *)
Definition served_on_the_spot (requests : list Z) (startHead : Z) : list Z :=
  if includes requests startHead then [startHead] else [].

(** * Facts about the data structures *)

Module JSSetFacts.
Import JSSet.

Lemma has_In (s : t) (x : Z) : has s x = true <-> In x s.
Proof.
  unfold has. rewrite existsb_exists. split.
  - intros [y [Hy Heq]]. apply Z.eqb_eq in Heq. now subst.
  - intros H. exists x. split; [assumption | apply Z.eqb_refl].
Qed.

Lemma has_false (s : t) (x : Z) : has s x = false <-> ~ In x s.
Proof.
  rewrite <- has_In. destruct (has s x); split; congruence.
Qed.

Lemma add_fresh (s : t) (x : Z) : ~ In x s -> add s x = s ++ [x].
Proof.
  intros H. unfold add. apply has_false in H. now rewrite H.
Qed.

Lemma add_member (s : t) (x : Z) : In x s -> add s x = s.
Proof.
  intros H. unfold add. apply has_In in H. now rewrite H.
Qed.

Lemma In_add (s : t) (x y : Z) : In y (add s x) <-> In y s \/ y = x.
Proof.
  unfold add. destruct (has s x) eqn:E.
  - apply has_In in E. split; [tauto | intros [H | ->]; assumption].
  - rewrite in_app_iff. simpl. split; intros [H | H]; auto.
    destruct H as [H | []]; auto.
Qed.

Lemma incl_add (s : t) (x : Z) : incl s (add s x).
Proof. intros y Hy. apply In_add. now left. Qed.

Lemma NoDup_snoc (s : list Z) (x : Z) :
  NoDup s -> ~ In x s -> NoDup (s ++ [x]).
Proof.
  intros Hs Hx. induction Hs as [| y s Hy Hs IH]; simpl.
  - constructor; [intros [] | constructor].
  - constructor.
    + rewrite in_app_iff. simpl. intros [H | [H | []]]; [tauto |].
      subst. apply Hx. now left.
    + apply IH. intros H. apply Hx. now right.
Qed.

Lemma NoDup_add (s : t) (x : Z) : NoDup s -> NoDup (add s x).
Proof.
  intros Hs. unfold add. destruct (has s x) eqn:E; [assumption |].
  apply NoDup_snoc; [assumption | now apply has_false].
Qed.

Lemma fold_add_spec (l : list Z) (acc : t) :
  NoDup acc ->
  NoDup (fold_left add l acc) /\
  (forall x, In x (fold_left add l acc) <-> In x acc \/ In x l).
Proof.
  revert acc. induction l as [| a l IH]; intros acc Hacc; simpl.
  - split; [assumption | intros x; tauto].
  - destruct (IH (add acc a) (NoDup_add _ _ Hacc)) as [Hnd Hin].
    split; [assumption |].
    intros x. rewrite Hin, In_add. intuition.
Qed.

Lemma NoDup_of_list (l : list Z) : NoDup (of_list l).
Proof. apply (fold_add_spec l empty). constructor. Qed.

Lemma In_of_list (l : list Z) (x : Z) : In x (of_list l) <-> In x l.
Proof.
  unfold of_list.
  destruct (fold_add_spec l empty (NoDup_nil _)) as [_ H].
  rewrite H. simpl. tauto.
Qed.

(** Adding items that are all new appends them in order. *)
Lemma fold_add_fresh (l : list Z) (acc : t) :
  NoDup l -> (forall x, In x l -> ~ In x acc) ->
  fold_left add l acc = acc ++ l.
Proof.
  revert acc. induction l as [| a l IH]; intros acc Hl Hd; simpl.
  - now rewrite app_nil_r.
  - inversion Hl as [| ? ? Ha Hl']; subst.
    rewrite add_fresh by (apply Hd; now left).
    rewrite IH; [now rewrite <- app_assoc | assumption |].
    intros x Hx. rewrite in_app_iff. simpl. intros [H | [H | []]].
    + apply (Hd x); [now right | assumption].
    + subst. contradiction.
Qed.

Lemma of_list_NoDup_id (l : list Z) : NoDup l -> of_list l = l.
Proof.
  intros H. unfold of_list. rewrite fold_add_fresh; auto.
Qed.

Lemma In_delete (s : t) (x y : Z) : In y (delete s x) <-> In y s /\ y <> x.
Proof.
  unfold delete. rewrite filter_In, negb_true_iff, Z.eqb_neq. tauto.
Qed.

Lemma NoDup_delete (s : t) (x : Z) : NoDup s -> NoDup (delete s x).
Proof. intros H. now apply NoDup_filter. Qed.

Lemma delete_absent (s : t) (x : Z) : ~ In x s -> delete s x = s.
Proof.
  intros H. unfold delete. induction s as [| a s IH]; simpl; [reflexivity |].
  destruct (Z.eqb_spec a x) as [-> | Hne]; simpl.
  - exfalso. apply H. now left.
  - f_equal. apply IH. intros Hin. apply H. now right.
Qed.

Lemma size_delete (s : t) (x : Z) :
  NoDup s -> In x s -> S (size (delete s x)) = size s.
Proof.
  unfold size, delete. induction s as [| a s IH]; intros Hnd Hin.
  - destruct Hin.
  - inversion Hnd as [| ? ? Ha Hs]; subst. simpl.
    destruct (Z.eqb_spec a x) as [-> | Hne]; simpl.
    + f_equal. fold (delete s x). now rewrite delete_absent.
    + f_equal. apply IH; [assumption |].
      destruct Hin as [H | H]; [contradiction | assumption].
Qed.

End JSSetFacts.

Section ListFacts.

Context {A : Type}.

Lemma last_default (h : list A) (d d' : A) :
  h <> [] -> last h d = last h d'.
Proof.
  induction h as [| a t IH]; [congruence | intros _].
  destruct t as [| b t']; [reflexivity |].
  apply IH. discriminate.
Qed.

Lemma last_In (h : list A) (d : A) : h <> [] -> In (last h d) h.
Proof.
  induction h as [| a t IH]; [congruence | intros _].
  destruct t as [| b t']; [now left |].
  right. apply IH. discriminate.
Qed.

Lemma last_cons (a : A) (l : list A) (h : A) : last (a :: l) h = last l a.
Proof.
  revert a h. induction l as [| b l IH]; intros a h; [reflexivity |].
  change (last (a :: b :: l) h) with (last (b :: l) h).
  now rewrite !IH.
Qed.

Lemma last_rev (l : list A) (d : A) : last (rev l) d = hd d l.
Proof.
  destruct l as [| a l]; [reflexivity |]. simpl. apply last_last.
Qed.

End ListFacts.

Section Sorting.

Lemma In_insert_asc (x y : Z) (l : list Z) :
  In y (insert_asc x l) <-> y = x \/ In y l.
Proof.
  induction l as [| a l IH]; simpl.
  - intuition.
  - destruct (x <=? a); simpl; [intuition | rewrite IH; intuition].
Qed.

Lemma In_sort_asc (y : Z) (l : list Z) : In y (sort_asc l) <-> In y l.
Proof.
  induction l as [| a l IH]; simpl; [tauto |].
  rewrite In_insert_asc, IH. intuition.
Qed.

Lemma insert_asc_sorted (x : Z) (l : list Z) :
  StronglySorted Z.le l -> StronglySorted Z.le (insert_asc x l).
Proof.
  induction 1 as [| a l Hs IH Hall]; simpl.
  - constructor; constructor.
  - destruct (Z.leb_spec x a).
    + constructor; [now constructor |].
      constructor; [assumption |].
      eapply Forall_impl; [| exact Hall]. intros; simpl in *; lia.
    + constructor; [assumption |].
      apply Forall_forall. intros y Hy. apply In_insert_asc in Hy.
      destruct Hy as [-> | Hy]; [lia |].
      rewrite Forall_forall in Hall. now apply Hall.
Qed.

Lemma sort_asc_sorted (l : list Z) : StronglySorted Z.le (sort_asc l).
Proof.
  induction l; simpl; [constructor | now apply insert_asc_sorted].
Qed.

Lemma insert_asc_NoDup (x : Z) (l : list Z) :
  NoDup l -> ~ In x l -> NoDup (insert_asc x l).
Proof.
  induction l as [| a l IH]; intros Hnd Hx; simpl.
  - constructor; [intros [] | constructor].
  - destruct (x <=? a); [now constructor |].
    inversion Hnd as [| ? ? Ha Hl]; subst. constructor.
    + rewrite In_insert_asc. intros [-> | H]; [| contradiction].
      apply Hx. now left.
    + apply IH; [assumption |]. intros H. apply Hx. now right.
Qed.

Lemma sort_asc_NoDup (l : list Z) : NoDup l -> NoDup (sort_asc l).
Proof.
  induction 1 as [| a l Ha Hl IH]; simpl; [constructor |].
  apply insert_asc_NoDup; [assumption | now rewrite In_sort_asc].
Qed.

(** Sorting a sorted array leaves it alone. *)
Lemma insert_asc_least (x : Z) (l : list Z) :
  Forall (Z.le x) l -> insert_asc x l = x :: l.
Proof.
  destruct l as [| a l]; simpl; [reflexivity |].
  intros H. inversion H; subst.
  destruct (Z.leb_spec x a); [reflexivity | lia].
Qed.

Lemma sort_asc_id (l : list Z) : StronglySorted Z.le l -> sort_asc l = l.
Proof.
  induction 1 as [| a l Hs IH Hall]; simpl; [reflexivity |].
  rewrite IH. now apply insert_asc_least.
Qed.

Lemma filter_sorted (f : Z -> bool) (l : list Z) :
  StronglySorted Z.le l -> StronglySorted Z.le (filter f l).
Proof.
  induction 1 as [| a l Hs IH Hall]; simpl; [constructor |].
  destruct (f a); [| assumption].
  constructor; [assumption |].
  apply Forall_forall. intros y Hy. apply filter_In in Hy.
  rewrite Forall_forall in Hall. now apply Hall.
Qed.

End Sorting.

(** * The history only grows *)

Section AppendOnly.

Lemma extends_refl (w : Window) : extends w w.
Proof. exists []. now rewrite app_nil_r. Qed.

Lemma extends_trans (a b c : Window) :
  extends a b -> extends b c -> extends a c.
Proof.
  intros [l Hl] [m Hm]. exists (l ++ m). now rewrite Hm, Hl, app_assoc.
Qed.

Lemma grows_record_step : grows record_step.
Proof. intros st. now eexists [_]. Qed.

Lemma grows_compose (f g : walk -> walk) :
  grows f -> grows g -> grows (fun st => g (f st)).
Proof. intros Hf Hg st. eapply extends_trans; [apply Hf | apply Hg]. Qed.

Lemma grows_serve (req : Z) : grows (serve req).
Proof. intros st. now eexists [_]. Qed.

Lemma grows_serve_unless (h req : Z) : grows (serve_unless h req).
Proof.
  intros st. unfold serve_unless.
  destruct (req =? h); [apply extends_refl | apply grows_serve].
Qed.

Lemma grows_serve_start (h : Z) : grows (serve_start h).
Proof. intros st. now eexists [_]. Qed.

Lemma grows_sweep_to (x : Z) : grows (sweep_to x).
Proof. intros st. now eexists [_]. Qed.

Lemma grows_jump_to (x : Z) : grows (jump_to x).
Proof. intros st. now eexists [_]. Qed.

Lemma grows_fold (f : walk -> Z -> walk) (l : list Z) :
  (forall x, grows (fun st => f st x)) -> grows (fold_left f l).
Proof.
  intros Hf. induction l as [| a l IH]; intros st; simpl.
  - apply extends_refl.
  - eapply extends_trans; [apply (Hf a) | apply IH].
Qed.

Lemma grows_if (b : walk -> bool) (f : walk -> walk) :
  grows f -> grows (fun st => if b st then f st else st).
Proof.
  intros Hf st. destruct (b st); [apply Hf | apply extends_refl].
Qed.

Lemma grows_sstf_walk (fuel : nat) (remaining : JSSet.t) :
  grows (sstf_walk fuel remaining).
Proof.
  revert remaining. induction fuel as [| fuel IH]; intros remaining st.
  - apply extends_refl.
  - simpl. destruct (0 <? JSSet.size remaining)%nat; [| apply extends_refl].
    destruct (nearest remaining (currentHead st)) as [[d |] r];
      [| apply extends_refl].
    eapply extends_trans; [| apply IH]. simpl.
    now eexists [_].
Qed.

Create HintDb grows.

#[local] Hint Resolve grows_serve grows_serve_unless grows_serve_start
  grows_sweep_to grows_jump_to grows_record_step extends_refl : grows.

Ltac grow :=
  repeat first
    [ apply extends_refl
    | match goal with
      | |- extends _ (win (fold_left _ _ _)) =>
          eapply extends_trans;
          [| apply grows_fold; intros; auto with grows]
      | |- extends _ (win (if ?b then _ else _)) => destruct b
      | |- extends _ (if ?b then _ else _) => destruct b
      | |- extends _ (win (serve _ _)) =>
          eapply extends_trans; [| apply grows_serve]
      | |- extends _ (win (jump_to _ _)) =>
          eapply extends_trans; [| apply grows_jump_to]
      | |- extends _ (win (sweep_to _ _)) =>
          eapply extends_trans; [| apply grows_sweep_to]
      | |- extends _ (win (serve_start _ _)) =>
          eapply extends_trans; [| apply grows_serve_start]
      | |- extends _ (win (record_step _)) =>
          eapply extends_trans; [| apply grows_record_step]
      | |- extends _ (win (mark_served ?x ?st)) =>
          change (win (mark_served x st)) with (win st)
      | |- extends _ (win (move_to ?x ?st)) =>
          change (win (move_to x st)) with (win st)
      end ].

Lemma extends_sweep_start requests startHead w :
  extends w (win (sweep_start requests startHead w)).
Proof. unfold sweep_start. grow. Qed.

Lemma extends_fcfs requests startHead w :
  extends w (calculateFcfsPath requests startHead w).
Proof.
  unfold calculateFcfsPath.
  apply (grows_fold _ requests) with (st := start_walk startHead w).
  intros x st. cbv zeta.
  destruct (JSSet.has _ x); now eexists [_].
Qed.

Lemma extends_sstf requests startHead w :
  extends w (calculateSstfPath requests startHead w).
Proof.
  unfold calculateSstfPath.
  destruct (JSSet.has (JSSet.of_list requests) startHead).
  - eapply extends_trans; [| apply grows_sstf_walk].
    apply (grows_serve_start startHead (start_walk startHead w)).
  - apply (grows_sstf_walk _ _ (start_walk startHead w)).
Qed.

Lemma extends_scan requests startHead direction w :
  extends w (calculateScanPath requests startHead direction w).
Proof.
  unfold calculateScanPath. cbv zeta. grow; apply extends_sweep_start.
Qed.

Lemma extends_cscan requests startHead direction w :
  extends w (calculateCScanPath requests startHead direction w).
Proof.
  unfold calculateCScanPath. cbv zeta. grow; apply extends_sweep_start.
Qed.

Lemma extends_look requests startHead direction w :
  extends w (calculateLookPath requests startHead direction w).
Proof.
  unfold calculateLookPath. cbv zeta. grow; apply extends_sweep_start.
Qed.

Lemma extends_clook requests startHead direction w :
  extends w (calculateCLookPath requests startHead direction w).
Proof.
  unfold calculateCLookPath. cbv zeta. grow;
    try apply extends_sweep_start.
Qed.

End AppendOnly.

(** * Shape of a run *)

Section RunShape.

Variables (algorithm : string) (requests : list Z) (startHead : Z)
          (direction : string) (w : Window).

Let s0 := Step.mk startHead 0 JSSet.empty [].

(** The steps of the chosen walk, after the first step and before the
    closing duplicate. *)
Lemma run_shape :
  exists body,
    run algorithm requests startHead direction w
    = (s0 :: body) ++ [last (s0 :: body) (Step.mk 0 0 [] [])].
Proof.
  unfold run, calculateSimulationHistory.
  set (w0 := mkWindow _ _ _ _).
  set (w1 := addHistoryStep startHead 0 JSSet.empty [] w0).
  set (w2 := if (algorithm =? "fcfs")%string then _ else _).
  assert (Hext : extends w1 w2).
  { subst w2.
    repeat match goal with
           | |- extends _ (if ?b then _ else _) => destruct b
           end;
      auto using extends_fcfs, extends_sstf, extends_scan, extends_cscan,
        extends_look, extends_clook, extends_refl. }
  destruct Hext as [body Hbody]. change (history w1) with [s0] in Hbody.
  exists body. rewrite Hbody. simpl. reflexivity.
Qed.

End RunShape.

(** C4: every run opens with the step [(startHead, 0, {}, [])] and closes
    with two identical steps, whatever the algorithm token, the requests,
    the start position and the direction are. *)
Theorem run_opens_at_start_and_closes_with_duplicate
    (algorithm : string) (requests : list Z) (startHead : Z)
    (direction : string) (w : Window) :
  let r := run algorithm requests startHead direction w in
  hd_error r = Some (Step.mk startHead 0 JSSet.empty []) /\
  exists pre s, r = pre ++ [s; s].
Proof.
  cbv zeta.
  destruct (run_shape algorithm requests startHead direction w) as [body ->].
  split; [reflexivity |].
  set (walked := Step.mk startHead 0 JSSet.empty [] :: body).
  exists (removelast walked), (last walked (Step.mk 0 0 [] [])).
  assert (Hw : walked = removelast walked ++ [last walked (Step.mk 0 0 [] [])])
    by (apply app_removelast_last; discriminate).
  rewrite Hw at 1. now rewrite <- app_assoc.
Qed.

(** * The worked scenarios *)

(** C5, as stated, fails: the SCAN scenario does not total 382. *)
Lemma scan_scenario_total_is_not_382 :
  ~ (map Step.head (Scenario.walked Scenario.scan_left)
       = [53; 37; 14; 0; 65; 67; 98; 122; 124; 183] /\
     finalSeek Scenario.scan_left = 382 /\
     getAlgorithmStats "scan" Scenario.queue_sorted 53 "left" Scenario.w199
       = 382).
Proof. intros [_ [H _]]. vm_compute in H. discriminate. Qed.

(** C5, amended: SCAN from 53 moving left over the sorted queue visits
    53, 37, 14, 0, 65, 67, 98, 122, 124, 183 and both the run and
    [getAlgorithmStats] total 236 (53 down to 0, then 183 up). *)
Theorem scan_scenario :
  map Step.head (Scenario.walked Scenario.scan_left)
    = [53; 37; 14; 0; 65; 67; 98; 122; 124; 183] /\
  finalSeek Scenario.scan_left = 236 /\
  getAlgorithmStats "scan" Scenario.queue_sorted 53 "left" Scenario.w199 = 236.
Proof. repeat split; vm_compute; reflexivity. Qed.

(** C6, as stated, fails: the SSTF scenario does not total 319. *)
Lemma sstf_scenario_total_is_not_319 :
  ~ (Step.servedOrder (Scenario.final_step Scenario.sstf_run)
       = [65; 67; 37; 14; 98; 122; 124; 183] /\
     finalSeek Scenario.sstf_run = 319 /\
     getAlgorithmStats "sstf" Scenario.queue 53 "left" Scenario.w199 = 319).
Proof. intros [_ [H _]]. vm_compute in H. discriminate. Qed.

(** C6, amended: SSTF from 53 serves 65, 67, 37, 14, 98, 122, 124, 183 and
    both the run and [getAlgorithmStats] total 236. *)
Theorem sstf_scenario :
  Step.servedOrder (Scenario.final_step Scenario.sstf_run)
    = [65; 67; 37; 14; 98; 122; 124; 183] /\
  map Step.head (Scenario.walked Scenario.sstf_run)
    = [53; 65; 67; 37; 14; 98; 122; 124; 183] /\
  finalSeek Scenario.sstf_run = 236 /\
  getAlgorithmStats "sstf" Scenario.queue 53 "left" Scenario.w199 = 236.
Proof. repeat split; vm_compute; reflexivity. Qed.

(** C7, as stated, fails: the cumulative seeks of the FCFS scenario are not
    45, 128, 146, 111, 76, 111, 67, 2. *)
Lemma fcfs_scenario_running_total_differs :
  ~ (map Step.seek (tl (Scenario.walked Scenario.fcfs_run))
       = [45; 128; 146; 111; 76; 111; 67; 2] /\
     finalSeek Scenario.fcfs_run = 640).
Proof. intros [H _]. vm_compute in H. discriminate. Qed.

(** C7, amended: the cumulative seek after each of the eight FCFS visits is
    45, 130, 276, 361, 469, 579, 638, 640 (the moves are 45, 85, 146, 85,
    108, 110, 59, 2), and both the run and [getAlgorithmStats] total 640. *)
Theorem fcfs_scenario :
  map Step.seek (tl (Scenario.walked Scenario.fcfs_run))
    = [45; 130; 276; 361; 469; 579; 638; 640] /\
  map Step.head (tl (Scenario.walked Scenario.fcfs_run)) = Scenario.queue /\
  finalSeek Scenario.fcfs_run = 640 /\
  getAlgorithmStats "fcfs" Scenario.queue 53 "left" Scenario.w199 = 640.
Proof. repeat split; vm_compute; reflexivity. Qed.

(** * Inputs outside the contract *)

Lemma unknown_algorithm_run algorithm requests startHead direction w :
  known_algorithm algorithm = false ->
  run algorithm requests startHead direction w = idle_run startHead /\
  getAlgorithmStats algorithm requests startHead direction w = 0.
Proof.
  intros H. unfold known_algorithm in H. simpl in H.
  repeat (apply orb_false_elim in H; destruct H as [? H]).
  unfold run, calculateSimulationHistory, getAlgorithmStats.
  repeat match goal with
         | E : (algorithm =? _)%string = false |- _ => rewrite E; clear E
         end.
  split; reflexivity.
Qed.

Lemma no_request_run algorithm startHead direction w :
  In algorithm ["fcfs"; "sstf"; "look"; "c-look"]%string ->
  run algorithm [] startHead direction w = idle_run startHead /\
  getAlgorithmStats algorithm [] startHead direction w = 0.
Proof.
  intros H. simpl in H.
  destruct H as [<- | [<- | [<- | [<- | []]]]];
    unfold run, calculateSimulationHistory, getAlgorithmStats,
      calculateLookPath, calculateCLookPath; simpl;
    destruct (direction =? "right")%string; split; reflexivity.
Qed.

Lemma other_direction_is_left algorithm requests startHead direction w :
  (direction =? "right")%string = false ->
  run algorithm requests startHead direction w
    = run algorithm requests startHead "left" w /\
  getAlgorithmStats algorithm requests startHead direction w
    = getAlgorithmStats algorithm requests startHead "left" w.
Proof.
  intros H.
  unfold run, calculateSimulationHistory, getAlgorithmStats,
    calculateScanPath, calculateCScanPath, calculateLookPath,
    calculateCLookPath.
  rewrite H. change ("left" =? "right")%string with false.
  split; reflexivity.
Qed.


(** * SSTF: which request is next *)

Ltac splits := repeat match goal with |- _ /\ _ => split end.

Section Nearest.

Variable h : Z.

Let dist (x : Z) : Z := Z.abs (x - h).

Lemma nearest_snoc (l : JSSet.t) (x : Z) :
  nearest (l ++ [x]) h
  = if closer (dist x) (fst (nearest l h)) then (Some (dist x), x)
    else nearest l h.
Proof. unfold nearest. now rewrite fold_left_app. Qed.

(** The scan keeps the first of the nearest members: everything before it is
    strictly farther, nothing after it is nearer. *)
Lemma nearest_first_minimum (l : JSSet.t) :
  l <> [] ->
  exists l1 r l2,
    l = l1 ++ r :: l2 /\
    nearest l h = (Some (dist r), r) /\
    (forall x, In x l1 -> dist r < dist x) /\
    (forall x, In x l2 -> dist r <= dist x).
Proof.
  induction l as [| x l IH] using rev_ind; [congruence | intros _].
  rewrite nearest_snoc.
  destruct l as [| a l'].
  - exists [], x, []. simpl. splits; try reflexivity; intros y [].
  - destruct IH as (l1 & r & l2 & Hl & Hn & H1 & H2); [discriminate |].
    rewrite Hn. simpl. destruct (Z.ltb_spec (dist x) (dist r)) as [Hlt | Hge].
    + exists (a :: l'), x, []. splits; try reflexivity.
      * intros y Hy. rewrite Hl in Hy. apply in_app_iff in Hy.
        destruct Hy as [Hy | [<- | Hy]];
          [specialize (H1 y Hy) | | specialize (H2 y Hy)]; lia.
      * intros y [].
    + exists l1, r, (l2 ++ [x]). splits; try reflexivity.
      * change (a :: l' ++ [x]) with ((a :: l') ++ [x]).
        now rewrite Hl, <- app_assoc.
      * assumption.
      * intros y Hy. apply in_app_iff in Hy.
        destruct Hy as [Hy | [<- | []]]; [now apply H2 | lia].
Qed.

Lemma nearest_some (l : JSSet.t) :
  l <> [] ->
  exists r, nearest l h = (Some (dist r), r) /\ In r l /\
            forall x, In x l -> dist r <= dist x.
Proof.
  intros Hl.
  destruct (nearest_first_minimum l Hl) as (l1 & r & l2 & -> & Hn & H1 & H2).
  exists r. split; [assumption |]. split.
  - apply in_app_iff. right. now left.
  - intros x Hx. apply in_app_iff in Hx.
    destruct Hx as [Hx | [<- | Hx]];
      [specialize (H1 x Hx) | | specialize (H2 x Hx)]; lia.
Qed.

End Nearest.

Section InsertionOrder.

(** Members of a [Set] built from an array stand in the order of their
    first occurrences in the array. *)
Lemma of_list_first_occurrence (requests : list Z) (l1 l2 : list Z) (r : Z) :
  JSSet.of_list requests = l1 ++ r :: l2 ->
  exists pre post,
    requests = pre ++ r :: post /\ ~ In r pre /\
    forall x, In x l2 -> ~ In x pre.
Proof.
  revert l1 l2.
  induction requests as [| a l IH] using rev_ind; intros l1 l2 H.
  - destruct l1; discriminate.
  - unfold JSSet.of_list in H. rewrite fold_left_app in H. simpl in H.
    fold (JSSet.of_list l) in H. unfold JSSet.add in H.
    destruct (JSSet.has (JSSet.of_list l) a) eqn:E.
    + destruct (IH _ _ H) as (pre & post & -> & Hr & Hx).
      exists pre, (post ++ [a]). rewrite <- app_assoc. auto.
    + apply JSSetFacts.has_false in E. rewrite JSSetFacts.In_of_list in E.
      destruct (exists_last (l := r :: l2)) as (m & z & Hm); [discriminate |].
      rewrite Hm, app_assoc in H. apply app_inj_tail in H.
      destruct H as [H <-]. destruct m as [| r' m].
      * simpl in Hm. injection Hm as -> ->.
        exists l, []. splits; [reflexivity | assumption | intros x []].
      * simpl in Hm. injection Hm as <- ->.
        destruct (IH _ _ H) as (pre & post & -> & Hr & Hx).
        exists pre, (post ++ [a]). rewrite <- app_assoc.
        splits; [reflexivity | assumption |].
        intros x Hin. apply in_app_iff in Hin.
        destruct Hin as [Hin | [<- | []]]; [now apply Hx |].
        intros Hpre. apply E. apply in_app_iff. now left.
Qed.

Lemma filter_split (keep : Z -> bool) (s l1 l2 : list Z) (r : Z) :
  filter keep s = l1 ++ r :: l2 ->
  exists m1 m2, s = m1 ++ r :: m2 /\ forall x, In x l2 -> In x m2.
Proof.
  revert l1. induction s as [| a s IH]; intros l1 H; simpl in H.
  - destruct l1; discriminate.
  - destruct (keep a).
    + destruct l1 as [| b l1]; simpl in H; injection H as -> H.
      * exists [], s. split; [reflexivity |].
        intros x Hx. rewrite <- H in Hx. apply filter_In in Hx. tauto.
      * destruct (IH _ H) as (m1 & m2 & -> & Hm).
        exists (b :: m1), m2. auto.
    + destruct (IH _ H) as (m1 & m2 & -> & Hm).
      exists (a :: m1), m2. auto.
Qed.

End InsertionOrder.

(** [getAlgorithmStats] builds its set from a copy of the set's members; it
    is the same set. *)
Lemma stats_remaining_set (requests : list Z) :
  JSSet.of_list (JSSet.of_list requests) = JSSet.of_list requests.
Proof. apply JSSetFacts.of_list_NoDup_id, JSSetFacts.NoDup_of_list. Qed.

Lemma filter_all (l : list Z) : filter (fun _ => true) l = l.
Proof. induction l; simpl; congruence. Qed.

Lemma filter_twice (f g : Z -> bool) (l : list Z) :
  filter f (filter g l) = filter (fun x => g x && f x) l.
Proof.
  induction l as [| a l IH]; simpl; [reflexivity |].
  destruct (g a); simpl; [destruct (f a) |]; now rewrite IH.
Qed.

Lemma pending_selection (requests : list Z) (s : JSSet.t) :
  pending requests s ->
  exists keep, s = filter keep (JSSet.of_list requests).
Proof.
  induction 1 as [| s x _ [keep ->]].
  - exists (fun _ => true). now rewrite filter_all.
  - eexists. unfold JSSet.delete. apply filter_twice.
Qed.

(** One turn of the two SSTF loops: among the pending requests the scan
    takes a nearest one, and among the nearest ones the one that occurs
    first in the input list; the loop of the history generator and the loop
    of [getAlgorithmStats] both move to it and delete it. *)
Lemma sstf_turn
    (requests : list Z) (remaining : JSSet.t) (h : Z) :
  pending requests remaining -> remaining <> [] ->
  exists r pre post,
    In r remaining /\
    (forall x, In x remaining -> Z.abs (r - h) <= Z.abs (x - h)) /\
    requests = pre ++ r :: post /\ ~ In r pre /\
    (forall x, In x remaining -> Z.abs (x - h) = Z.abs (r - h) ->
               ~ In x pre) /\
    nearest remaining h = (Some (Z.abs (r - h)), r) /\
    (forall fuel st, currentHead st = h ->
       sstf_walk (S fuel) remaining st
       = sstf_walk fuel (JSSet.delete remaining r)
           (record_step
              (mark_served r
                 (mkWalk r (totalSeek st + Z.abs (r - h)) (served st)
                         (servedOrder st) (win st))))) /\
    (forall fuel total,
       sstf_total (S fuel) remaining h total
       = sstf_total fuel (JSSet.delete remaining r) r
           (total + Z.abs (r - h))).
Proof.
  intros Hp Hne.
  destruct (nearest_first_minimum h remaining Hne)
    as (l1 & r & l2 & Hl & Hn & H1 & H2).
  destruct (pending_selection _ _ Hp) as [keep Hk].
  assert (Hs : filter keep (JSSet.of_list requests) = l1 ++ r :: l2)
    by congruence.
  destruct (filter_split _ _ _ _ _ Hs) as (m1 & m2 & Hm & Hsub).
  destruct (of_list_first_occurrence _ _ _ _ Hm)
    as (pre & post & Hreq & Hr & Hpre).
  assert (Hpos : (0 <? JSSet.size remaining)%nat = true).
  { destruct remaining; [congruence | reflexivity]. }
  exists r, pre, post. splits; try assumption.
  - rewrite Hl. apply in_app_iff. right. now left.
  - intros x Hx. rewrite Hl in Hx. apply in_app_iff in Hx.
    destruct Hx as [Hx | [<- | Hx]];
      [specialize (H1 x Hx) | | specialize (H2 x Hx)]; lia.
  - intros x Hx Heq. rewrite Hl in Hx. apply in_app_iff in Hx.
    destruct Hx as [Hx | [<- | Hx]].
    + specialize (H1 x Hx). lia.
    + assumption.
    + apply Hpre, Hsub, Hx.
  - intros fuel st <-. simpl. now rewrite Hpos, Hn.
  - intros fuel total. simpl. now rewrite Hpos, Hn.
Qed.


(** * Walks as plans *)

Section Plans.

Lemma exec_app (p q : list action) (st : walk) :
  exec (p ++ q) st = exec q (exec p st).
Proof. apply fold_left_app. Qed.

Lemma exec_serve (l : list Z) (st : walk) :
  exec (map Serve l) st = fold_left (fun st req => serve req st) l st.
Proof.
  revert st. induction l as [| a l IH]; intros st; simpl; [reflexivity |].
  apply IH.
Qed.

Lemma exec_serve_others (h : Z) (l : list Z) (st : walk) :
  exec (map Serve (others h l)) st
  = fold_left (fun st req => serve_unless h req st) l st.
Proof.
  revert st. induction l as [| a l IH]; intros st; simpl; [reflexivity |].
  unfold serve_unless at 2. destruct (a =? h); simpl; apply IH.
Qed.

Lemma exec_prologue (requests : list Z) (startHead : Z) (w : Window) :
  exec (prologue requests startHead) (start_walk startHead w)
  = sweep_start requests startHead w.
Proof.
  unfold prologue, sweep_start.
  now destruct (includes (sortedRequests requests) startHead).
Qed.

Lemma scan_is_plan requests startHead direction w :
  calculateScanPath requests startHead direction w
  = win (exec (scan_plan requests startHead direction)
              (start_walk startHead w)).
Proof.
  unfold calculateScanPath, scan_plan. cbv zeta.
  rewrite exec_app, exec_prologue.
  destruct (direction =? "right")%string;
    rewrite !exec_app, exec_serve_others, exec_serve; reflexivity.
Qed.

Lemma cscan_is_plan requests startHead direction w :
  calculateCScanPath requests startHead direction w
  = win (exec (cscan_plan requests startHead direction)
              (start_walk startHead w)).
Proof.
  unfold calculateCScanPath, cscan_plan. cbv zeta.
  rewrite exec_app, exec_prologue.
  destruct (direction =? "right")%string;
    rewrite !exec_app, exec_serve_others, exec_serve; reflexivity.
Qed.

Lemma look_is_plan requests startHead direction w :
  calculateLookPath requests startHead direction w
  = win (exec (look_plan requests startHead direction)
              (start_walk startHead w)).
Proof.
  unfold calculateLookPath, look_plan. cbv zeta.
  rewrite exec_app, exec_prologue.
  destruct (direction =? "right")%string;
    rewrite !exec_app, exec_serve_others, exec_serve; reflexivity.
Qed.

Lemma rev_final (l : list Z) : l <> [] -> rev l = final l :: tl (rev l).
Proof.
  intros H. destruct (exists_last H) as (m & z & ->).
  unfold final. now rewrite last_last, rev_app_distr.
Qed.

Lemma clook_is_plan requests startHead direction w :
  calculateCLookPath requests startHead direction w
  = win (exec (clook_plan requests startHead direction)
              (start_walk startHead w)).
Proof.
  unfold calculateCLookPath, clook_plan. cbv zeta.
  rewrite exec_app, exec_prologue.
  set (L := below startHead (sortedRequests requests)).
  set (R := at_or_above startHead (sortedRequests requests)).
  destruct (direction =? "right")%string; rewrite exec_app.
  - rewrite exec_serve_others, exec_serve.
    destruct L as [| a L']; reflexivity.
  - rewrite exec_serve.
    destruct R as [| b R'] eqn:ER; [reflexivity |].
    rewrite (rev_final (b :: R')) by discriminate.
    change (0 <? length (b :: R'))%nat with true. cbv iota.
    rewrite <- exec_serve_others. reflexivity.
Qed.

End Plans.

Section SstfOrder.

Lemma sstf_walk_is_plan (fuel : nat) (remaining : JSSet.t) (st : walk) :
  sstf_walk fuel remaining st
  = exec (map Serve (sstf_order fuel remaining (currentHead st))) st.
Proof.
  revert remaining st. induction fuel as [| fuel IH]; intros remaining st.
  - reflexivity.
  - destruct remaining as [| a l]; [reflexivity |].
    destruct (nearest_some (currentHead st) (a :: l)) as (r & Hn & _);
      [discriminate |].
    cbn [sstf_walk sstf_order]. change (0 <? JSSet.size (a :: l))%nat with true.
    cbv iota. rewrite Hn. cbn [snd map]. cbv zeta.
    rewrite IH. reflexivity.
Qed.

Lemma sstf_total_is_path_cost (fuel : nat) (remaining : JSSet.t)
    (h total : Z) :
  sstf_total fuel remaining h total
  = total + path_cost h (sstf_order fuel remaining h).
Proof.
  revert remaining h total.
  induction fuel as [| fuel IH]; intros remaining h total.
  - simpl. lia.
  - destruct remaining as [| a l]; [simpl; lia |].
    destruct (nearest_some h (a :: l)) as (r & Hn & _); [discriminate |].
    cbn [sstf_total sstf_order]. change (0 <? JSSet.size (a :: l))%nat with true.
    cbv iota. rewrite Hn. cbn [snd path_cost]. rewrite IH. lia.
Qed.

(** With a turn for each member the order is a rearrangement of the set:
    the loop ends with nothing left. *)
Lemma sstf_order_serves_all (fuel : nat) (remaining : JSSet.t) (h : Z) :
  NoDup remaining -> (JSSet.size remaining <= fuel)%nat ->
  NoDup (sstf_order fuel remaining h) /\
  forall x, In x (sstf_order fuel remaining h) <-> In x remaining.
Proof.
  revert remaining h.
  induction fuel as [| fuel IH]; intros remaining h Hnd Hsize.
  - destruct remaining; [| simpl in Hsize; lia].
    split; [constructor | intros x; reflexivity].
  - destruct remaining as [| a l]; [split; [constructor | reflexivity] |].
    destruct (nearest_some h (a :: l)) as (r & Hn & Hin & _); [discriminate |].
    cbn [sstf_order]. rewrite Hn. cbn [snd].
    pose proof (JSSetFacts.size_delete _ _ Hnd Hin) as Hs.
    destruct (IH (JSSet.delete (a :: l) r) r) as [IHnd IHin].
    + now apply JSSetFacts.NoDup_delete.
    + lia.
    + split.
      * constructor; [| assumption].
        rewrite IHin, JSSetFacts.In_delete. tauto.
      * intros x. simpl In at 1. rewrite IHin, JSSetFacts.In_delete.
        destruct (Z.eq_dec x r) as [-> | Hne]; [tauto |].
        intuition congruence.
Qed.

(** More turns than members change nothing. *)
Lemma sstf_order_fuel (fuel : nat) (remaining : JSSet.t) (h : Z) :
  NoDup remaining -> (JSSet.size remaining <= fuel)%nat ->
  sstf_order fuel remaining h
  = sstf_order (JSSet.size remaining) remaining h.
Proof.
  revert remaining h.
  induction fuel as [| fuel IH]; intros remaining h Hnd Hsize.
  - destruct remaining; [reflexivity | simpl in Hsize; lia].
  - destruct remaining as [| a l]; [reflexivity |].
    destruct (nearest_some h (a :: l)) as (r & Hn & Hin & _); [discriminate |].
    pose proof (JSSetFacts.size_delete _ _ Hnd Hin) as Hs.
    change (JSSet.size (a :: l)) with (S (JSSet.size l)) in *.
    cbn [sstf_order]. rewrite Hn. cbn [snd]. f_equal.
    rewrite IH by (try apply JSSetFacts.NoDup_delete; auto; lia).
    f_equal. lia.
Qed.

End SstfOrder.

(** * Invariants of a walk *)

Section Invariants.

Lemma step_le_refl (a : Step.t) : step_le a a.
Proof. split; [lia | apply incl_refl]. Qed.

Lemma step_le_trans (a b c : Step.t) :
  step_le a b -> step_le b c -> step_le a c.
Proof.
  intros [H1 H2] [H3 H4]. split; [lia | eapply incl_tran; eassumption].
Qed.

Lemma chain_snoc (h : list Step.t) (s : Step.t) :
  chain h -> (forall a, In a h -> step_le a s) -> chain (h ++ [s]).
Proof.
  induction h as [| a t IH]; intros Hc Hb; simpl.
  - auto.
  - destruct Hc as [Ha Ht]. split.
    + destruct t as [| b t']; simpl; [apply Hb; now left | exact Ha].
    + apply IH; [assumption |]. intros x Hx. apply Hb. now right.
Qed.

Lemma chain_pairs (pre post : list Step.t) (a b : Step.t) :
  chain (pre ++ a :: b :: post) -> step_le a b.
Proof.
  induction pre as [| c pre IH]; simpl.
  - tauto.
  - intros [_ H]. exact (IH H).
Qed.

Lemma NoDup_app_inv (l1 l2 : list Z) :
  NoDup (l1 ++ l2) ->
  NoDup l1 /\ NoDup l2 /\ forall x, In x l1 -> ~ In x l2.
Proof.
  induction l1 as [| a l1 IH]; simpl; intros H.
  - repeat split; [constructor | assumption | intros x []].
  - inversion H as [| ? ? Ha Hl]; subst.
    destruct (IH Hl) as (H1 & H2 & H3). repeat split.
    + constructor; [| assumption]. intros Hin. apply Ha.
      apply in_app_iff. now left.
    + assumption.
    + intros x [<- | Hx] Hx2; [| now apply (H3 x)].
      apply Ha. apply in_app_iff. now right.
Qed.

Variable D : Z.

Lemma WInv_record (st : walk) : WInv D st -> WInv D (record_step st).
Proof.
  intros [Hd Hh Hc Hs Hb]. constructor; simpl.
  - assumption.
  - assumption.
  - apply chain_snoc; [assumption |]. now apply Forall_forall.
  - apply Forall_app. split; [assumption |]. constructor; [assumption |].
    constructor.
  - apply Forall_app. split; [assumption |].
    constructor; [apply step_le_refl | constructor].
Qed.

Lemma WInv_locals (st st' : walk) :
  win st' = win st -> in_range D (currentHead st') ->
  totalSeek st <= totalSeek st' -> incl (served st) (served st') ->
  WInv D st -> WInv D st'.
Proof.
  intros Hw Hh Ht Hi [Hd _ Hc Hs Hb]. constructor; rewrite ?Hw; auto.
  eapply Forall_impl; [| exact Hb]. intros s [H1 H2]. split; simpl in *.
  - lia.
  - eapply incl_tran; eassumption.
Qed.

Lemma WInv_serve (x : Z) (st : walk) :
  in_range D x -> WInv D st -> WInv D (serve x st).
Proof.
  intros Hx H. apply WInv_record.
  apply (WInv_locals st); simpl; auto; [lia | apply JSSetFacts.incl_add].
Qed.

Lemma WInv_act (a : action) (st : walk) :
  lands_in_range D a -> WInv D st -> WInv D (act a st).
Proof.
  intros Ha H. pose proof (winv_head _ _ H) as Hh.
  pose proof (winv_disk _ _ H) as Hd. unfold in_range in Hh.
  destruct a; simpl in *.
  - now apply WInv_serve.
  - apply WInv_record.
    apply (WInv_locals st); simpl; auto; [lia | apply JSSetFacts.incl_add].
  - destruct (currentHead st =? 0); simpl; [assumption |].
    apply WInv_record.
    apply (WInv_locals st); simpl; auto;
      [unfold in_range | | apply incl_refl]; lia.
  - destruct (currentHead st =? DISK_MAX (win st)); simpl; [assumption |].
    apply WInv_record.
    apply (WInv_locals st); simpl; auto;
      [unfold in_range | | apply incl_refl]; lia.
  - apply WInv_record.
    apply (WInv_locals st); simpl; auto;
      [unfold in_range | | apply incl_refl]; lia.
  - apply WInv_record.
    apply (WInv_locals st); simpl; auto;
      [unfold in_range | | apply incl_refl]; lia.
  - assert (Hm : WInv D (move_to x st)).
    { apply (WInv_locals st); simpl; auto; [lia | apply incl_refl]. }
    destruct (x =? startHead); simpl; [assumption |].
    apply WInv_record.
    apply (WInv_locals (move_to x st)); simpl; auto;
      [lia | apply JSSetFacts.incl_add].
Qed.

Lemma WInv_exec (plan : list action) (st : walk) :
  Forall (lands_in_range D) plan -> WInv D st -> WInv D (exec plan st).
Proof.
  revert st. induction plan as [| a p IH]; intros st Hp H; simpl.
  - assumption.
  - inversion Hp; subst. apply IH; [assumption |]. now apply WInv_act.
Qed.

Lemma OInv_record (st : walk) : OInv st -> OInv (record_step st).
Proof.
  intros [Hs Hn Hf]. constructor; simpl; auto.
  apply Forall_app. split; [assumption |].
  constructor; [| constructor]. split; simpl; [now rewrite Hs | assumption].
Qed.

Lemma OInv_mark (x : Z) (st : walk) :
  OInv st -> ~ In x (served st) ->
  OInv (record_step (mark_served x st)) /\
  served (record_step (mark_served x st)) = served st ++ [x].
Proof.
  intros [Hs Hn Hf] Hx. split; [| simpl; now apply JSSetFacts.add_fresh].
  apply OInv_record. constructor; simpl.
  - rewrite JSSetFacts.add_fresh by assumption. now rewrite Hs.
  - now apply JSSetFacts.NoDup_add.
  - assumption.
Qed.

Lemma OInv_locals (st st' : walk) :
  win st' = win st -> served st' = served st ->
  servedOrder st' = servedOrder st -> OInv st -> OInv st'.
Proof.
  intros Hw Hs Ho [H1 H2 H3]. constructor; rewrite ?Hw, ?Hs, ?Ho; auto.
Qed.

Lemma OInv_act (a : action) (st : walk) :
  OInv st -> (forall x, In x (serves a) -> ~ In x (served st)) ->
  OInv (act a st) /\ served (act a st) = served st ++ serves a.
Proof.
  intros H Hfresh. destruct a; simpl in *; rewrite ?app_nil_r.
  - apply (OInv_mark req (move_to req st)); [| apply Hfresh; now left].
    now apply (OInv_locals st).
  - apply OInv_mark; [assumption | apply Hfresh; now left].
  - destruct (currentHead st =? 0); simpl; [now split |].
    split; [| reflexivity]. apply OInv_record. now apply (OInv_locals st).
  - destruct (currentHead st =? DISK_MAX (win st)); simpl; [now split |].
    split; [| reflexivity]. apply OInv_record. now apply (OInv_locals st).
  - split; [| reflexivity]. apply OInv_record. now apply (OInv_locals st).
  - split; [| reflexivity]. apply OInv_record. now apply (OInv_locals st).
  - destruct (x =? startHead); simpl in *.
    + rewrite app_nil_r. split; [| reflexivity]. now apply (OInv_locals st).
    + apply (OInv_mark x (move_to x st)); [| apply Hfresh; now left].
      now apply (OInv_locals st).
Qed.

Lemma OInv_exec (plan : list action) (st : walk) :
  OInv st -> NoDup (served st ++ flat_map serves plan) ->
  OInv (exec plan st) /\
  served (exec plan st) = served st ++ flat_map serves plan.
Proof.
  revert st. induction plan as [| a p IH]; intros st H Hnd; simpl in *.
  - now rewrite app_nil_r.
  - rewrite app_assoc in Hnd.
    destruct (NoDup_app_inv _ _ Hnd) as (Hsa & _ & _).
    destruct (NoDup_app_inv _ _ Hsa) as (_ & _ & Hdisj).
    destruct (OInv_act a st H) as [Ha Hserved].
    { intros x Hx Hin. exact (Hdisj x Hin Hx). }
    assert (Hnd' : NoDup (served (act a st) ++ flat_map serves p))
      by (rewrite Hserved; exact Hnd).
    destruct (IH (act a st) Ha Hnd') as [Hp Hs].
    split; [exact Hp |].
    change (served (exec p (act a st))
            = served st ++ serves a ++ flat_map serves p).
    now rewrite Hs, Hserved, app_assoc.
Qed.

End Invariants.

(** * The plans are well formed *)

Section PlanFacts.

Variables (D : Z) (requests : list Z) (startHead : Z).
Hypothesis requests_in_range : Forall (in_range D) requests.

Let sorted := sortedRequests requests.
Let L := below startHead sorted.
Let R := at_or_above startHead sorted.

Lemma In_sorted (x : Z) : In x sorted <-> In x requests.
Proof.
  unfold sorted, sortedRequests.
  now rewrite In_sort_asc, JSSetFacts.In_of_list.
Qed.

Lemma NoDup_sorted : NoDup sorted.
Proof. apply sort_asc_NoDup, JSSetFacts.NoDup_of_list. Qed.

Lemma sorted_ascending : StronglySorted Z.le sorted.
Proof. apply sort_asc_sorted. Qed.

Lemma In_L (x : Z) : In x L <-> In x requests /\ x < startHead.
Proof.
  unfold L, below. now rewrite filter_In, In_sorted, Z.ltb_lt.
Qed.

Lemma In_R (x : Z) : In x R <-> In x requests /\ startHead <= x.
Proof.
  unfold R, at_or_above. rewrite filter_In, In_sorted, Z.geb_le. tauto.
Qed.

Lemma In_others (l : list Z) (x : Z) :
  In x (others startHead l) <-> In x l /\ x <> startHead.
Proof.
  unfold others. now rewrite filter_In, negb_true_iff, Z.eqb_neq.
Qed.

Lemma NoDup_L : NoDup L.
Proof. apply NoDup_filter, NoDup_sorted. Qed.

Lemma NoDup_R : NoDup R.
Proof. apply NoDup_filter, NoDup_sorted. Qed.

Lemma serves_map_Serve (l : list Z) : flat_map serves (map Serve l) = l.
Proof. induction l; simpl; congruence. Qed.

Lemma serves_prologue :
  flat_map serves (prologue requests startHead) = []
  \/ flat_map serves (prologue requests startHead) = [startHead].
Proof.
  unfold prologue. destruct (includes _ _); simpl; auto.
Qed.

Lemma serves_landing (l : list Z) :
  flat_map serves
    match l with
    | [] => []
    | x :: t => Land startHead x :: map Serve (others startHead t)
    end
  = others startHead l.
Proof.
  destruct l as [| x t]; [reflexivity |].
  cbn [flat_map serves]. rewrite serves_map_Serve.
  unfold others. simpl. now destruct (x =? startHead).
Qed.

Lemma lands_map_Serve (l : list Z) :
  (forall x, In x l -> In x requests) ->
  Forall (lands_in_range D) (map Serve l).
Proof.
  intros H. apply Forall_forall. intros a Ha.
  apply in_map_iff in Ha. destruct Ha as (x & <- & Hx). simpl.
  rewrite Forall_forall in requests_in_range. auto.
Qed.

Lemma lands_prologue : Forall (lands_in_range D) (prologue requests startHead).
Proof.
  unfold prologue. destruct (includes _ _); repeat constructor.
Qed.

Lemma lands_landing (l : list Z) :
  (forall x, In x l -> In x requests) ->
  Forall (lands_in_range D)
    match l with
    | [] => []
    | x :: t => Land startHead x :: map Serve (others startHead t)
    end.
Proof.
  intros H. destruct l as [| x t]; constructor.
  - simpl. rewrite Forall_forall in requests_in_range.
    apply requests_in_range, H. now left.
  - apply lands_map_Serve. intros y Hy. apply In_others in Hy.
    apply H. now right.
Qed.

(** The two sides of the start position, in any of the orders the sweeps
    use, after the start position itself when it is a request. *)
Lemma NoDup_two_sides (pre A B : list Z) :
  pre = [] \/ pre = [startHead] ->
  NoDup A -> NoDup B ->
  (forall x, In x A -> startHead < x) ->
  (forall x, In x B -> x < startHead) ->
  NoDup (pre ++ A ++ B) /\ NoDup (pre ++ B ++ A).
Proof.
  intros Hpre HA HB HgtA HltB.
  assert (HAB : NoDup (A ++ B)).
  { apply NoDup_app; auto. intros x Hx Hx'.
    specialize (HgtA x Hx). specialize (HltB x Hx'). lia. }
  assert (HBA : NoDup (B ++ A)).
  { apply NoDup_app; auto. intros x Hx Hx'.
    specialize (HgtA x Hx'). specialize (HltB x Hx). lia. }
  destruct Hpre as [-> | ->]; simpl; [now split |].
  split; constructor; auto; rewrite in_app_iff; intros [H | H];
    try specialize (HgtA _ H); try specialize (HltB _ H); lia.
Qed.

Lemma above_others (x : Z) : In x (others startHead R) -> startHead < x.
Proof.
  intros H. apply In_others in H. destruct H as [H Hne].
  apply In_R in H. lia.
Qed.

Lemma below_L (x : Z) : In x L -> x < startHead.
Proof. intros H. now apply In_L in H. Qed.

Ltac members :=
  intros;
  repeat match goal with
         | H : In _ (rev _) |- _ => apply in_rev in H
         | H : In _ (others _ _) |- _ => apply In_others in H; destruct H
         | H : In _ L |- _ => apply In_L in H; destruct H
         | H : In _ R |- _ => apply In_R in H; destruct H
         end;
  try assumption; try lia.

Ltac lands :=
  repeat first
    [ apply Forall_app; split
    | apply lands_prologue
    | apply lands_landing; members
    | apply lands_map_Serve; members
    | constructor; exact I
    | constructor ].

Lemma scan_plan_lands direction :
  Forall (lands_in_range D) (scan_plan requests startHead direction).
Proof.
  unfold scan_plan. cbv zeta. fold sorted L R.
  destruct (direction =? "right")%string; lands.
Qed.

Lemma cscan_plan_lands direction :
  Forall (lands_in_range D) (cscan_plan requests startHead direction).
Proof.
  unfold cscan_plan. cbv zeta. fold sorted L R.
  destruct (direction =? "right")%string; lands.
Qed.

Lemma look_plan_lands direction :
  Forall (lands_in_range D) (look_plan requests startHead direction).
Proof.
  unfold look_plan. cbv zeta. fold sorted L R.
  destruct (direction =? "right")%string; lands.
Qed.

Lemma clook_plan_lands direction :
  Forall (lands_in_range D) (clook_plan requests startHead direction).
Proof.
  unfold clook_plan. cbv zeta. fold sorted L R.
  destruct (direction =? "right")%string; lands.
Qed.

Ltac served_lists :=
  repeat first
    [ rewrite flat_map_app
    | rewrite serves_map_Serve
    | rewrite serves_landing
    | rewrite app_nil_l
    | progress cbn [flat_map serves app] ].

Lemma NoDup_others (l : list Z) : NoDup l -> NoDup (others startHead l).
Proof. apply NoDup_filter. Qed.

Ltac nodups :=
  repeat first
    [ exact NoDup_R | exact NoDup_L | apply NoDup_others | apply NoDup_rev ].

Ltac sides :=
  apply NoDup_two_sides;
  [ apply serves_prologue | solve [nodups] | solve [nodups]
  | solve [members] | solve [members] ].

Ltac two_sides :=
  first [ solve [eapply proj1; sides] | solve [eapply proj2; sides] ].

Lemma scan_plan_serves_once direction :
  NoDup (flat_map serves (scan_plan requests startHead direction)).
Proof.
  unfold scan_plan. cbv zeta. fold sorted L R.
  destruct (direction =? "right")%string; served_lists; two_sides.
Qed.

Lemma cscan_plan_serves_once direction :
  NoDup (flat_map serves (cscan_plan requests startHead direction)).
Proof.
  unfold cscan_plan. cbv zeta. fold sorted L R.
  destruct (direction =? "right")%string; served_lists; two_sides.
Qed.

Lemma look_plan_serves_once direction :
  NoDup (flat_map serves (look_plan requests startHead direction)).
Proof.
  unfold look_plan. cbv zeta. fold sorted L R.
  destruct (direction =? "right")%string; served_lists; two_sides.
Qed.

Lemma clook_plan_serves_once direction :
  NoDup (flat_map serves (clook_plan requests startHead direction)).
Proof.
  unfold clook_plan. cbv zeta. fold sorted L R.
  destruct (direction =? "right")%string; served_lists; two_sides.
Qed.

End PlanFacts.

(** * FCFS and SSTF as plans *)

Section FcfsSstfPlans.

Lemma fcfs_fold_is_plan (l : list Z) (st : walk) :
  (forall x, In x l -> JSSet.has (originalRequestSet (win st)) x = true) ->
  fold_left
    (fun st req =>
       let st := move_to req st in
       let st := if JSSet.has (originalRequestSet (win st)) req
                 then mark_served req st else st in
       record_step st) l st
  = exec (map Serve l) st.
Proof.
  revert st. induction l as [| a l IH]; intros st H; [reflexivity |].
  cbn [fold_left map exec]. cbv zeta.
  change (originalRequestSet (win (move_to a st)))
    with (originalRequestSet (win st)).
  rewrite (H a) by now left.
  apply (IH (serve a st)). intros x Hx. apply H. now right.
Qed.

Lemma fcfs_is_plan requests startHead w :
  (forall x, In x requests -> JSSet.has (originalRequestSet w) x = true) ->
  calculateFcfsPath requests startHead w
  = win (exec (map Serve requests) (start_walk startHead w)).
Proof.
  intros H. unfold calculateFcfsPath. now rewrite fcfs_fold_is_plan.
Qed.

Lemma sstf_is_plan requests startHead w :
  calculateSstfPath requests startHead w
  = win (exec (sstf_plan requests startHead) (start_walk startHead w)).
Proof.
  unfold calculateSstfPath, sstf_plan. cbv zeta.
  destruct (JSSet.has (JSSet.of_list requests) startHead);
    now rewrite sstf_walk_is_plan.
Qed.

Variables (D : Z) (requests : list Z) (startHead : Z).
Hypothesis requests_in_range : Forall (in_range D) requests.

Lemma sstf_plan_lands :
  Forall (lands_in_range D) (sstf_plan requests startHead).
Proof.
  unfold sstf_plan. cbv zeta.
  pose proof (JSSetFacts.NoDup_of_list requests) as Hnd.
  destruct (JSSet.has (JSSet.of_list requests) startHead).
  - constructor; [exact I |].
    apply (lands_map_Serve D requests requests_in_range).
    intros x Hx.
    apply sstf_order_serves_all in Hx;
      [| now apply JSSetFacts.NoDup_delete | reflexivity].
    apply JSSetFacts.In_delete in Hx. now apply JSSetFacts.In_of_list.
  - apply (lands_map_Serve D requests requests_in_range). intros x Hx.
    apply sstf_order_serves_all in Hx; [| assumption | reflexivity].
    now apply JSSetFacts.In_of_list.
Qed.

Lemma sstf_plan_serves_once :
  NoDup (flat_map serves (sstf_plan requests startHead)).
Proof.
  unfold sstf_plan. cbv zeta.
  pose proof (JSSetFacts.NoDup_of_list requests) as Hnd.
  destruct (JSSet.has (JSSet.of_list requests) startHead).
  - cbn [flat_map serves app]. rewrite serves_map_Serve.
    destruct (sstf_order_serves_all
                (JSSet.size (JSSet.delete (JSSet.of_list requests) startHead))
                (JSSet.delete (JSSet.of_list requests) startHead) startHead)
      as [Ho Hin]; [now apply JSSetFacts.NoDup_delete | reflexivity |].
    constructor; [| assumption].
    rewrite Hin, JSSetFacts.In_delete. tauto.
  - rewrite serves_map_Serve.
    now apply sstf_order_serves_all.
Qed.

End FcfsSstfPlans.

(** * The invariants of a run *)

Section RunInvariants.

Variables (D : Z) (requests : list Z) (startHead : Z).
Hypothesis requests_in_range : Forall (in_range D) requests.
Hypothesis start_in_range : in_range D startHead.

Lemma WInv_start (w : Window) :
  DISK_MAX w = D -> history w = [Step.mk startHead 0 JSSet.empty []] ->
  WInv D (start_walk startHead w).
Proof.
  intros Hd Hh. constructor; simpl; rewrite ?Hh.
  - exact Hd.
  - exact start_in_range.
  - simpl. auto.
  - constructor; [exact start_in_range | constructor].
  - constructor; [apply step_le_refl | constructor].
Qed.

Lemma OInv_start (w : Window) :
  history w = [Step.mk startHead 0 JSSet.empty []] ->
  OInv (start_walk startHead w).
Proof.
  intros Hh. constructor; simpl; rewrite ?Hh.
  - reflexivity.
  - constructor.
  - constructor; [| constructor]. split; [constructor | reflexivity].
Qed.

Lemma plan_invariants (plan : list action) (w : Window) :
  DISK_MAX w = D -> history w = [Step.mk startHead 0 JSSet.empty []] ->
  Forall (lands_in_range D) plan ->
  WInv D (exec plan (start_walk startHead w)) /\
  (NoDup (flat_map serves plan) -> OInv (exec plan (start_walk startHead w))).
Proof.
  intros Hd Hh Hl. split.
  - apply WInv_exec; [assumption | now apply WInv_start].
  - intros Hnd. apply OInv_exec; [now apply OInv_start | exact Hnd].
Qed.

End RunInvariants.

Section RunInvariantsTheorem.

Lemma chain_snoc_last (h : list Step.t) (s : Step.t) :
  chain h -> step_le (last h s) s -> chain (h ++ [s]).
Proof.
  induction h as [| a t IH]; intros Hc Hl.
  - simpl. auto.
  - destruct t as [| b t'].
    + simpl in *. auto.
    + destruct Hc as [Hab Ht]. split; [exact Hab |].
      apply IH; assumption.
Qed.

(** Pushing the last step once more keeps what holds of every step. *)
Lemma closed_history (h : list Step.t) (d : Step.t) (P : Step.t -> Prop) :
  let r := if (0 <? length h)%nat then h ++ [last h d] else h in
  (chain h -> chain r) /\ (Forall P h -> Forall P r).
Proof.
  destruct h as [| a t]; [simpl; auto |].
  change (0 <? length (a :: t))%nat with true. cbv zeta iota. split.
  - intros Hc. apply chain_snoc_last; [assumption |].
    rewrite (last_default _ (last (a :: t) d) d) by discriminate.
    apply step_le_refl.
  - intros Hf. apply Forall_app. split; [assumption |].
    constructor; [| constructor].
    rewrite Forall_forall in Hf. apply Hf, last_In. discriminate.
Qed.

Variables (algorithm : string) (requests : list Z) (startHead : Z)
          (direction : string) (w : Window).

Let D := DISK_MAX w.

Hypothesis requests_in_range : Forall (in_range D) requests.
Hypothesis start_in_range : in_range D startHead.

Let w1 :=
  addHistoryStep startHead 0 JSSet.empty []
    (mkWindow (DISK_MAX w) [] 0
       (if (algorithm =? "fcfs")%string
        then JSSet.of_list requests
        else JSSet.of_list (sort_asc (JSSet.of_list requests)))).

Let walked_window :=
  if (algorithm =? "fcfs")%string then calculateFcfsPath requests startHead w1
  else if (algorithm =? "sstf")%string then
    calculateSstfPath requests startHead w1
  else if (algorithm =? "scan")%string then
    calculateScanPath requests startHead direction w1
  else if (algorithm =? "c-scan")%string then
    calculateCScanPath requests startHead direction w1
  else if (algorithm =? "look")%string then
    calculateLookPath requests startHead direction w1
  else if (algorithm =? "c-look")%string then
    calculateCLookPath requests startHead direction w1
  else w1.

(** The walk of every algorithm is a plan that keeps the invariants. *)
Lemma walk_invariants :
  exists st,
    walked_window = win st /\ WInv D st /\
    ((algorithm =? "fcfs")%string = false \/ NoDup requests -> OInv st).
Proof.
  assert (Hplan : forall plan,
             Forall (lands_in_range D) plan ->
             (((algorithm =? "fcfs")%string = false \/ NoDup requests) ->
              NoDup (flat_map serves plan)) ->
             exists st,
               win (exec plan (start_walk startHead w1)) = win st /\
               WInv D st /\
               ((algorithm =? "fcfs")%string = false \/ NoDup requests ->
                OInv st)).
  { intros plan Hl Hn.
    destruct (plan_invariants D startHead start_in_range plan w1)
      as [HW HO]; try reflexivity; try assumption.
    eexists. split; [reflexivity |]. split; [exact HW | auto]. }
  subst walked_window.
  destruct (algorithm =? "fcfs")%string eqn:Efcfs.
  { rewrite fcfs_is_plan.
    - apply Hplan; [now apply lands_map_Serve with (requests := requests) |].
      rewrite serves_map_Serve. intros [H | H]; [discriminate | exact H].
    - intros x Hx. unfold w1.
      cbn [originalRequestSet addHistoryStep set_history]. rewrite ?Efcfs.
      apply JSSetFacts.has_In. now apply JSSetFacts.In_of_list. }
  destruct (algorithm =? "sstf")%string.
  { rewrite sstf_is_plan. apply Hplan.
    - now apply sstf_plan_lands.
    - intros _. apply sstf_plan_serves_once. }
  destruct (algorithm =? "scan")%string.
  { rewrite scan_is_plan. apply Hplan.
    - now apply scan_plan_lands.
    - intros _. apply scan_plan_serves_once. }
  destruct (algorithm =? "c-scan")%string.
  { rewrite cscan_is_plan. apply Hplan.
    - now apply cscan_plan_lands.
    - intros _. apply cscan_plan_serves_once. }
  destruct (algorithm =? "look")%string.
  { rewrite look_is_plan. apply Hplan.
    - now apply look_plan_lands.
    - intros _. apply look_plan_serves_once. }
  destruct (algorithm =? "c-look")%string.
  { rewrite clook_is_plan. apply Hplan.
    - now apply clook_plan_lands.
    - intros _. apply clook_plan_serves_once. }
  apply (Hplan []); [constructor | intros _; constructor].
Qed.

Lemma run_is_closed_walk :
  run algorithm requests startHead direction w
  = if (0 <? length (history walked_window))%nat
    then history walked_window
         ++ [last (history walked_window) (Step.mk 0 0 [] [])]
    else history walked_window.
Proof.
  unfold run, calculateSimulationHistory. fold w1. cbv zeta.
  fold walked_window.
  now destruct (0 <? length (history walked_window))%nat.
Qed.

Lemma run_invariants_of_walk :
  let r := run algorithm requests startHead direction w in
  chain r /\
  Forall (fun s => in_range D (Step.head s)) r /\
  ((algorithm =? "fcfs")%string = false \/ NoDup requests ->
   Forall in_order r).
Proof.
  cbv zeta. rewrite run_is_closed_walk.
  destruct walk_invariants as (st & -> & HW & HO).
  destruct HW as [_ _ Hc Hh _].
  split; [| split].
  - now apply (closed_history (history (win st)) _ (fun _ => True)).
  - now apply (closed_history (history (win st))).
  - intros Hcond. apply (closed_history (history (win st))).
    apply oinv_steps. auto.
Qed.

End RunInvariantsTheorem.

(** C3, as stated, fails for FCFS on a list with a repeat: the request 5
    enters [servedOrder] twice. *)
Lemma fcfs_repeat_is_listed_twice :
  Forall (in_range 199) [5; 5] /\ in_range 199 0 /\
  Step.servedOrder (Scenario.final_step (run "fcfs" [5; 5] 0 "left" (page 199)))
    = [5; 5] /\
  ~ Forall in_order (run "fcfs" [5; 5] 0 "left" (page 199)).
Proof.
  split; [repeat constructor; unfold in_range; lia |].
  split; [unfold in_range; lia |].
  split; [reflexivity |].
  intros H. rewrite Forall_forall in H.
  destruct (H (Step.mk 5 5 [5] [5; 5])) as [Hnd _].
  - vm_compute. auto.
  - simpl in Hnd. inversion Hnd as [| ? ? Hin _]. apply Hin. now left.
Qed.

(** C3, amended: for requests and a start position within
    [0, DISK_MAX], whatever the algorithm and direction tokens, between any
    two consecutive steps of the run [seek] does not decrease and [served]
    does not lose a member, and the head of every step is within
    [0, DISK_MAX]; for every algorithm but FCFS, and for FCFS on a list
    without repeats, [servedOrder] of every step is duplicate free and lists
    [served] in the order of service. *)
Theorem run_invariants (algorithm : string) (requests : list Z)
    (startHead : Z) (direction : string) (w : Window) :
  Forall (in_range (DISK_MAX w)) requests ->
  in_range (DISK_MAX w) startHead ->
  let r := run algorithm requests startHead direction w in
  (forall pre a b post, r = pre ++ a :: b :: post ->
     Step.seek a <= Step.seek b /\ incl (Step.served a) (Step.served b)) /\
  Forall (fun s => in_range (DISK_MAX w) (Step.head s)) r /\
  ((algorithm =? "fcfs")%string = false \/ NoDup requests ->
   Forall (fun s => NoDup (Step.servedOrder s) /\
                    Step.servedOrder s = Step.served s) r).
Proof.
  intros Hreq Hstart.
  destruct (run_invariants_of_walk algorithm requests startHead direction w
              Hreq Hstart) as (Hc & Hh & Ho).
  cbv zeta. split; [| split; assumption].
  intros pre a b post Hr. rewrite Hr in Hc. exact (chain_pairs _ _ _ _ Hc).
Qed.

Lemma run_invariants_witness :
  let r := run "c-look" [10; 50; 50; 180] 50 "left" (page 199) in
  (forall pre a b post, r = pre ++ a :: b :: post ->
     Step.seek a <= Step.seek b /\ incl (Step.served a) (Step.served b)) /\
  Forall (fun s => in_range 199 (Step.head s)) r /\
  (("c-look" =? "fcfs")%string = false \/ NoDup [10; 50; 50; 180] ->
   Forall (fun s => NoDup (Step.servedOrder s) /\
                    Step.servedOrder s = Step.served s) r).
Proof.
  apply (run_invariants "c-look" [10; 50; 50; 180] 50 "left" (page 199)).
  - repeat constructor; simpl; lia.
  - unfold in_range. simpl. lia.
Defined.

(** * FCFS, step by step *)

Section Fcfs.

Lemma path_cost_snoc (h : Z) (l : list Z) (x : Z) :
  path_cost h (l ++ [x]) = path_cost h l + Z.abs (x - last l h).
Proof.
  revert h. induction l as [| a l IH]; intros h.
  - simpl. lia.
  - rewrite last_cons. cbn [app path_cost]. rewrite IH. lia.
Qed.

Lemma fcfs_step_prefix (s : Z) (l : list Z) (x : Z) (k : nat) :
  (k <= length l)%nat -> fcfs_step s (l ++ [x]) k = fcfs_step s l k.
Proof.
  intros Hk. unfold fcfs_step. rewrite firstn_app.
  replace (k - length l)%nat with 0%nat by lia.
  now rewrite app_nil_r.
Qed.

Lemma fcfs_step_all (s : Z) (l : list Z) :
  fcfs_step s l (length l)
  = Step.mk (last l s) (path_cost s l) (JSSet.of_list l) l.
Proof. unfold fcfs_step. now rewrite firstn_all. Qed.

Variables (startHead diskMax index : Z) (original : JSSet.t).

Let w1 :=
  mkWindow diskMax [Step.mk startHead 0 JSSet.empty []] index original.

Lemma fcfs_walk_state (l : list Z) :
  exec (map Serve l) (start_walk startHead w1)
  = mkWalk (last l startHead) (path_cost startHead l) (JSSet.of_list l) l
      (set_history (map (fcfs_step startHead l) (seq 0 (S (length l)))) w1).
Proof.
  induction l as [| x l IH] using rev_ind; [reflexivity |].
  rewrite map_app, exec_app, IH. cbn [map exec fold_left act].
  unfold serve, record_step, mark_served, move_to, addHistoryStep.
  cbn [currentHead totalSeek served servedOrder win history set_history
       DISK_MAX currentStateIndex originalRequestSet].
  rewrite last_last, path_cost_snoc.
  assert (Hset : JSSet.of_list (l ++ [x]) = JSSet.add (JSSet.of_list l) x).
  { unfold JSSet.of_list. now rewrite fold_left_app. }
  rewrite Hset. f_equal. unfold set_history. f_equal.
  rewrite (seq_S (length (l ++ [x]))), map_app. cbn [map Nat.add].
  rewrite fcfs_step_all, last_last, path_cost_snoc, Hset. f_equal.
  rewrite length_app. cbn [length].
  replace (length l + 1)%nat with (S (length l)) by lia.
  apply map_ext_in. intros k Hk. apply in_seq in Hk.
  symmetry. apply fcfs_step_prefix. lia.
Qed.

End Fcfs.

(** C2, as stated, fails: the second visit of 7 adds a second entry to
    [servedOrder]. *)
Lemma fcfs_second_visit_is_listed_again :
  Step.servedOrder
    (Scenario.final_step (run "fcfs" [7; 3; 7] 0 "left" (page 199)))
    = [7; 3; 7] /\
  Step.served
    (Scenario.final_step (run "fcfs" [7; 3; 7] 0 "left" (page 199)))
    = [7; 3] /\
  ~ NoDup (Step.servedOrder
             (Scenario.final_step (run "fcfs" [7; 3; 7] 0 "left" (page 199)))).
Proof.
  split; [reflexivity |]. split; [reflexivity |].
  vm_compute. intros H. inversion H as [| ? ? Hin _]. apply Hin.
  right. now left.
Qed.

(** C2, amended: FCFS visits the requests as given and charges
    [abs(req - currentHead)] for every visit, repeats included; every visit,
    repeat or not, appends its value to [servedOrder], so that after [k]
    visits [servedOrder] is the first [k] requests, while [served] holds each
    distinct value once.  The run is these steps for [k = 0 .. n] and the
    last of them once more. *)
Theorem fcfs_run (requests : list Z) (startHead : Z) (direction : string)
    (w : Window) :
  run "fcfs" requests startHead direction w
  = map (fcfs_step startHead requests) (seq 0 (S (length requests)))
    ++ [fcfs_step startHead requests (length requests)].
Proof.
  unfold run, calculateSimulationHistory.
  change ("fcfs" =? "fcfs")%string with true. cbv iota zeta.
  rewrite fcfs_is_plan.
  - change (addHistoryStep startHead 0 JSSet.empty []
              (mkWindow (DISK_MAX w) [] 0 (JSSet.of_list requests)))
      with (mkWindow (DISK_MAX w) [Step.mk startHead 0 JSSet.empty []] 0
              (JSSet.of_list requests)).
    rewrite fcfs_walk_state. cbn [win history set_history].
    rewrite length_map, length_seq. cbn [Nat.ltb Nat.leb].
    cbn [history set_history]. f_equal. f_equal.
    rewrite seq_S, map_app. apply last_last.
  - intros x Hx. simpl.
    apply JSSetFacts.has_In. now apply JSSetFacts.In_of_list.
Qed.

(** * Where a plan ends and what it costs *)

Section Totals.

Variable D : Z.

Lemma act_disk (a : action) (st : walk) :
  DISK_MAX (win (act a st)) = DISK_MAX (win st).
Proof.
  destruct a; simpl; try reflexivity;
    match goal with |- context [if ?b then _ else _] => destruct b end;
    reflexivity.
Qed.

Lemma act_head (a : action) (st : walk) :
  DISK_MAX (win st) = D ->
  currentHead (act a st) = position D (currentHead st) a.
Proof.
  intros <-. destruct a; simpl; try reflexivity.
  - destruct (Z.eqb_spec (currentHead st) 0); simpl; congruence.
  - destruct (Z.eqb_spec (currentHead st) (DISK_MAX (win st))); simpl;
      congruence.
  - now destruct (x =? startHead).
Qed.

Lemma act_total (a : action) (st : walk) :
  DISK_MAX (win st) = D ->
  totalSeek (act a st) = totalSeek st + cost D (currentHead st) a.
Proof.
  intros <-. destruct a; simpl; try reflexivity; try lia.
  - destruct (Z.eqb_spec (currentHead st) 0) as [-> | _]; simpl; lia.
  - destruct (Z.eqb_spec (currentHead st) (DISK_MAX (win st)))
      as [-> | _]; simpl; lia.
  - now destruct (x =? startHead).
Qed.

Lemma exec_totals (plan : list action) (st : walk) :
  DISK_MAX (win st) = D ->
  totalSeek (exec plan st) = totalSeek st + plan_cost D (currentHead st) plan
  /\ currentHead (exec plan st) = plan_end D (currentHead st) plan
  /\ DISK_MAX (win (exec plan st)) = D.
Proof.
  revert st. induction plan as [| a p IH]; intros st Hd.
  - simpl. repeat split; [lia | assumption].
  - cbn [exec fold_left plan_cost plan_end].
    destruct (IH (act a st)) as (Ht & Hh & Hd').
    { now rewrite act_disk. }
    rewrite (act_head a st Hd), (act_total a st Hd) in *.
    repeat split; [unfold exec in Ht; lia | exact Hh | exact Hd'].
Qed.

Lemma plan_cost_app (h : Z) (p q : list action) :
  plan_cost D h (p ++ q)
  = plan_cost D h p + plan_cost D (plan_end D h p) q.
Proof.
  revert h. induction p as [| a p IH]; intros h; simpl; [reflexivity |].
  rewrite IH. lia.
Qed.

Lemma plan_end_app (h : Z) (p q : list action) :
  plan_end D h (p ++ q) = plan_end D (plan_end D h p) q.
Proof.
  revert h. induction p as [| a p IH]; intros h; simpl; [reflexivity |].
  apply IH.
Qed.

Lemma plan_cost_serve (h : Z) (l : list Z) :
  plan_cost D h (map Serve l) = path_cost h l.
Proof.
  revert h. induction l as [| a l IH]; intros h; simpl; [reflexivity |].
  now rewrite IH.
Qed.

Lemma plan_end_serve (h : Z) (l : list Z) :
  plan_end D h (map Serve l) = last l h.
Proof.
  revert h. induction l as [| a l IH]; intros h; [reflexivity |].
  rewrite last_cons. apply IH.
Qed.

Lemma plan_end_prologue (requests : list Z) (h : Z) :
  plan_end D h (prologue requests h) = h.
Proof. unfold prologue. now destruct (includes _ _). Qed.

Lemma plan_cost_prologue (requests : list Z) (h : Z) :
  plan_cost D h (prologue requests h) = 0.
Proof. unfold prologue. now destruct (includes _ _). Qed.

Lemma synced_record (st : walk) : synced (record_step st).
Proof. now exists (history (win st)). Qed.

Lemma synced_act (a : action) (st : walk) :
  recorded a -> synced st -> synced (act a st).
Proof.
  intros Ha Hs. destruct a; simpl in *;
    try match goal with
        | |- context [if ?b then _ else _] => destruct b eqn:E
        end;
    try assumption; try apply synced_record.
  apply negb_false_iff, Z.eqb_eq in E. contradiction.
Qed.

Lemma synced_exec (plan : list action) (st : walk) :
  Forall recorded plan -> synced st -> synced (exec plan st).
Proof.
  revert st. induction plan as [| a p IH]; intros st Hp Hs; [assumption |].
  inversion Hp; subst. apply IH; [assumption | now apply synced_act].
Qed.

End Totals.

Section SortedEnds.

Lemma sorted_le_last (l : list Z) (d x : Z) :
  StronglySorted Z.le l -> In x l -> x <= last l d.
Proof.
  induction 1 as [| a l Hs IH Hall]; intros Hx; [destruct Hx |].
  rewrite last_cons. destruct Hx as [<- | Hx].
  - destruct l as [| b l']; [simpl; lia |].
    rewrite Forall_forall in Hall. apply Hall, last_In. discriminate.
  - rewrite (last_default l a d); [now apply IH |].
    intros ->. destruct Hx.
Qed.

Lemma sorted_final_max (l : list Z) (m : Z) :
  StronglySorted Z.le l -> In m l -> (forall x, In x l -> x <= m) ->
  final l = m.
Proof.
  intros Hs Hm Hmax. unfold final.
  pose proof (sorted_le_last l 0 m Hs Hm).
  assert (In (last l 0) l) by (apply last_In; intros ->; destruct Hm).
  specialize (Hmax _ H0). lia.
Qed.

Lemma sorted_first_min (l : list Z) (m : Z) :
  StronglySorted Z.le l -> In m l -> (forall x, In x l -> m <= x) ->
  first l = m.
Proof.
  intros Hs Hm Hmin. destruct l as [| a l]; [destruct Hm |].
  unfold first. simpl. inversion Hs as [| ? ? _ Hall]; subst.
  specialize (Hmin a (or_introl eq_refl)).
  destruct Hm as [-> | Hm]; [reflexivity |].
  rewrite Forall_forall in Hall. specialize (Hall m Hm). lia.
Qed.

End SortedEnds.

(** * SCAN and LOOK when the requests reach both boundaries *)

Section Boundaries.

Variables (requests : list Z) (startHead : Z) (D : Z).

Hypothesis requests_in_range : Forall (in_range D) requests.
Hypothesis start_in_range : in_range D startHead.
Hypothesis lowest : In 0 requests.
Hypothesis highest : In D requests.

Let L := below startHead (sortedRequests requests).
Let R := at_or_above startHead (sortedRequests requests).

Lemma request_range (x : Z) : In x requests -> 0 <= x <= D.
Proof.
  intros H. rewrite Forall_forall in requests_in_range.
  exact (requests_in_range x H).
Qed.

Lemma L_ascending : StronglySorted Z.le L.
Proof. apply filter_sorted, sort_asc_sorted. Qed.

Lemma R_ascending : StronglySorted Z.le R.
Proof. apply filter_sorted, sort_asc_sorted. Qed.

Lemma R_final : final R = D.
Proof.
  apply sorted_final_max.
  - apply R_ascending.
  - apply In_R. split; [assumption | apply start_in_range].
  - intros x Hx. apply In_R in Hx. now apply request_range.
Qed.

Lemma R_nonempty : R <> [].
Proof.
  intros H. assert (Hin : In D R).
  { apply In_R. split; [assumption | apply start_in_range]. }
  rewrite H in Hin. destruct Hin.
Qed.

Lemma L_first : L <> [] -> first L = 0.
Proof.
  intros H. apply sorted_first_min.
  - apply L_ascending.
  - apply In_L. split; [assumption |].
    destruct L as [| a l] eqn:E; [congruence |].
    assert (Ha : In a L) by (rewrite E; now left).
    apply In_L in Ha. destruct Ha as [Ha Hlt].
    apply request_range in Ha. lia.
  - intros x Hx. apply In_L in Hx. destruct Hx as [Hx _].
    now apply request_range.
Qed.

Lemma L_empty_start : L = [] -> startHead = 0.
Proof.
  intros H. destruct (Z.eq_dec startHead 0) as [| Hne]; [assumption |].
  assert (Hin : In 0 L).
  { apply In_L. split; [assumption |]. unfold in_range in *. lia. }
  rewrite H in Hin. destruct Hin.
Qed.

(** After the requests at or above the start the head is at [DISK_MAX]. *)
Lemma right_side_ends_at_max :
  last (others startHead R) startHead = D.
Proof.
  assert (Hs : StronglySorted Z.le (others startHead R))
    by apply filter_sorted, R_ascending.
  assert (HD : D <> startHead -> In D (others startHead R)).
  { intros Hne. apply In_others. split; [| assumption].
    apply In_R. split; [assumption | apply start_in_range]. }
  destruct (others startHead R) as [| a l] eqn:E.
  - simpl. destruct (Z.eq_dec D startHead) as [| Hne]; [congruence |].
    destruct (HD Hne).
  - assert (Hin : In (last (a :: l) startHead) (others startHead R)).
    { rewrite E. apply last_In. discriminate. }
    apply In_others in Hin. destruct Hin as [Hin Hne].
    apply In_R in Hin. destruct Hin as [Hin Hge].
    apply request_range in Hin.
    destruct (Z.eq_dec D startHead) as [Heq | Hneq]; [lia |].
    pose proof (sorted_le_last _ startHead D Hs (HD Hneq)). lia.
Qed.

(** After the requests below the start the head is at 0. *)
Lemma left_side_ends_at_min : last (rev L) startHead = 0.
Proof.
  rewrite last_rev. destruct L as [| a l] eqn:E.
  - simpl. now apply L_empty_start.
  - change (hd startHead (a :: l)) with (first (a :: l)).
    rewrite <- E. apply L_first. rewrite E. discriminate.
Qed.

Lemma sweep_is_idle (a : action) (st : walk) :
  (a = SweepMax /\ currentHead st = DISK_MAX (win st))
  \/ (a = SweepMin /\ currentHead st = 0) ->
  act a st = st.
Proof.
  intros [[-> H] | [-> H]]; simpl; rewrite H, Z.eqb_refl; reflexivity.
Qed.

Lemma exec_idle_middle (p q : list action) (a : action) (st : walk) :
  act a (exec p st) = exec p st ->
  exec (p ++ [a] ++ q) st = exec (p ++ q) st.
Proof.
  intros H. rewrite !exec_app. cbn [exec fold_left]. now rewrite H.
Qed.

Lemma scan_plan_is_look_plan (direction : string) (w : Window) :
  DISK_MAX w = D ->
  exec (scan_plan requests startHead direction) (start_walk startHead w)
  = exec (look_plan requests startHead direction) (start_walk startHead w).
Proof.
  intros Hd. unfold scan_plan, look_plan. cbv zeta. fold L R.
  destruct (direction =? "right")%string;
    rewrite !(app_assoc (prologue requests startHead));
    apply exec_idle_middle;
    match goal with
    | |- act ?a (exec ?p ?st) = _ =>
        destruct (exec_totals D p st Hd) as (_ & Hh & Hd');
        apply (sweep_is_idle a); rewrite Hh, Hd'; simpl currentHead;
        rewrite plan_end_app, plan_end_prologue, plan_end_serve
    end.
  - left. split; [reflexivity | apply right_side_ends_at_max].
  - right. split; [reflexivity | apply left_side_ends_at_min].
Qed.

Lemma scan_run_is_look_run (direction : string) (w : Window) :
  DISK_MAX w = D ->
  run "scan" requests startHead direction w
  = run "look" requests startHead direction w.
Proof.
  intros Hd. unfold run, calculateSimulationHistory.
  change ("scan" =? "fcfs")%string with false.
  change ("scan" =? "sstf")%string with false.
  change ("scan" =? "scan")%string with true.
  change ("look" =? "fcfs")%string with false.
  change ("look" =? "sstf")%string with false.
  change ("look" =? "scan")%string with false.
  change ("look" =? "c-scan")%string with false.
  change ("look" =? "look")%string with true.
  cbv iota zeta.
  rewrite scan_is_plan, look_is_plan, scan_plan_is_look_plan;
    [reflexivity | exact Hd].
Qed.

Lemma scan_stats_is_look_stats (direction : string) (w : Window) :
  DISK_MAX w = D -> 0 < D ->
  getAlgorithmStats "scan" requests startHead direction w
  = getAlgorithmStats "look" requests startHead direction w.
Proof.
  intros Hd Hpos. unfold getAlgorithmStats.
  change ("scan" =? "fcfs")%string with false.
  change ("scan" =? "sstf")%string with false.
  change ("scan" =? "scan")%string with true.
  change ("look" =? "fcfs")%string with false.
  change ("look" =? "sstf")%string with false.
  change ("look" =? "scan")%string with false.
  change ("look" =? "c-scan")%string with false.
  change ("look" =? "look")%string with true.
  cbv iota zeta. fold (sortedRequests requests). fold L R.
  rewrite Hd. destruct (Z.eqb_spec D 0) as [| _]; [lia |].
  pose proof R_final as HR. pose proof R_nonempty as HRne.
  pose proof L_first as HL. pose proof L_empty_start as HL0.
  unfold when_nonempty, go, charge.
  destruct R as [| b R']; [congruence |].
  change (0 <? length (b :: R'))%nat with true. cbv iota. rewrite HR.
  destruct (direction =? "right")%string; cbn [fst snd].
  - destruct L as [| a L']; simpl; lia.
  - destruct L as [| a L'].
    + rewrite HL0 by reflexivity. simpl. lia.
    + rewrite HL by discriminate.
      change (0 <? length (a :: L'))%nat with true. cbn [fst snd]. lia.
Qed.

End Boundaries.

(** C8: when the requests (all within [0, DISK_MAX], as the start position)
    include 0 and DISK_MAX, SCAN and LOOK have the same total seek: the
    totals of [getAlgorithmStats] agree, and the two runs are the same step
    for step, so that their final [seek] agrees as well. *)
Theorem scan_agrees_with_look_at_the_boundaries
    (requests : list Z) (startHead : Z) (direction : string) (w : Window) :
  0 < DISK_MAX w ->
  Forall (in_range (DISK_MAX w)) requests ->
  in_range (DISK_MAX w) startHead ->
  In 0 requests -> In (DISK_MAX w) requests ->
  getAlgorithmStats "scan" requests startHead direction w
    = getAlgorithmStats "look" requests startHead direction w /\
  run "scan" requests startHead direction w
    = run "look" requests startHead direction w /\
  finalSeek (run "scan" requests startHead direction w)
    = finalSeek (run "look" requests startHead direction w).
Proof.
  intros Hpos Hreq Hstart H0 HD.
  assert (Hrun : run "scan" requests startHead direction w
                 = run "look" requests startHead direction w)
    by now apply scan_run_is_look_run with (D := DISK_MAX w).
  split; [now apply scan_stats_is_look_stats with (D := DISK_MAX w) |].
  split; [exact Hrun | now rewrite Hrun].
Qed.

Lemma scan_agrees_with_look_witness :
  getAlgorithmStats "scan" [0; 120; 199; 40] 53 "left" (page 199)
    = getAlgorithmStats "look" [0; 120; 199; 40] 53 "left" (page 199) /\
  run "scan" [0; 120; 199; 40] 53 "left" (page 199)
    = run "look" [0; 120; 199; 40] 53 "left" (page 199) /\
  finalSeek (run "scan" [0; 120; 199; 40] 53 "left" (page 199))
    = finalSeek (run "look" [0; 120; 199; 40] 53 "left" (page 199)).
Proof.
  apply (scan_agrees_with_look_at_the_boundaries
           [0; 120; 199; 40] 53 "left" (page 199)).
  - reflexivity.
  - repeat constructor; simpl; lia.
  - unfold in_range. simpl. lia.
  - simpl. auto.
  - simpl. auto.
Defined.

(** * The two totals *)

(** C1 on the inputs where the two halves part: with direction [left] and
    the start position among the requests, [getAlgorithmStats] charges a
    return to the start position that the history never makes.  For SCAN
    and LOOK this shows when the start position is the highest request, for
    C-SCAN and C-LOOK whenever it is a request. *)
Theorem totals_differ_when_start_is_requested :
  (finalSeek (run "scan" [50] 50 "left" (page 199)) = 50 /\
   getAlgorithmStats "scan" [50] 50 "left" (page 199) = 100) /\
  (finalSeek (run "look" [10; 50] 50 "left" (page 199)) = 40 /\
   getAlgorithmStats "look" [10; 50] 50 "left" (page 199) = 80) /\
  (finalSeek (run "c-scan" [10; 50; 120] 50 "left" (page 199)) = 328 /\
   getAlgorithmStats "c-scan" [10; 50; 120] 50 "left" (page 199) = 398) /\
  (finalSeek (run "c-look" [10; 50; 120] 50 "left" (page 199)) = 150 /\
   getAlgorithmStats "c-look" [10; 50; 120] 50 "left" (page 199) = 220).
Proof. repeat split; vm_compute; reflexivity. Qed.

(** * The cost of a sweep *)

Section SweepCost.

(** Upwards through an ascending list that starts at or above the head. *)
Lemma path_cost_up (l : list Z) (h : Z) :
  StronglySorted Z.le l -> (forall x, In x l -> h <= x) ->
  path_cost h l = last l h - h.
Proof.
  intros Hs. revert h. induction Hs as [| a l Hs IH Hall]; intros h Hge.
  - simpl. lia.
  - rewrite last_cons. cbn [path_cost]. rewrite IH.
    + specialize (Hge a (or_introl eq_refl)).
      assert (a <= last l a).
      { destruct l as [| b l']; [simpl; lia |].
        rewrite Forall_forall in Hall. apply Hall, last_In. discriminate. }
      lia.
    + rewrite Forall_forall in Hall. exact Hall.
Qed.

(** Downwards through the reverse of an ascending list that ends at or
    below the head. *)
Lemma path_cost_down (l : list Z) (h : Z) :
  StronglySorted Z.le l -> (forall x, In x l -> x <= h) ->
  path_cost h (rev l) = h - hd h l.
Proof.
  intros Hs. revert h. induction Hs as [| a l Hs IH Hall]; intros h Hle.
  - simpl. lia.
  - cbn [rev hd]. rewrite path_cost_snoc, IH, last_rev.
    + rewrite Forall_forall in Hall.
      pose proof (Hle a (or_introl eq_refl)) as Ha.
      destruct l as [| b l']; simpl.
      * lia.
      * specialize (Hall b (or_introl eq_refl)).
        assert (b <= h) by (apply Hle; right; now left). lia.
    + intros x Hx. apply Hle. now right.
Qed.

Lemma sorted_first_le_final (l : list Z) :
  StronglySorted Z.le l -> l <> [] -> first l <= final l.
Proof.
  intros Hs Hne. destruct l as [| a l]; [congruence |].
  unfold first, final. simpl hd.
  apply sorted_le_last; [assumption | now left].
Qed.

(** Through an ascending list from anywhere: to its first member, then up
    to its last. *)
Lemma path_cost_ascending (l : list Z) (h : Z) :
  StronglySorted Z.le l -> l <> [] ->
  path_cost h l = Z.abs (first l - h) + (final l - first l).
Proof.
  intros Hs Hne. destruct l as [| a l]; [congruence |].
  inversion Hs as [| ? ? Hs' Hall]; subst.
  cbn [path_cost]. unfold first, final. simpl hd. rewrite last_cons.
  rewrite path_cost_up; [lia | assumption |].
  rewrite Forall_forall in Hall. exact Hall.
Qed.

(** Through the reverse of an ascending list from anywhere: to its last
    member, then down to its first. *)
Lemma path_cost_descending (l : list Z) (h : Z) :
  StronglySorted Z.le l -> l <> [] ->
  path_cost h (rev l) = Z.abs (final l - h) + (final l - first l).
Proof.
  intros Hs Hne. rewrite (rev_final l Hne). cbn [path_cost].
  pose proof (path_cost_down l (final l) Hs) as Hd.
  rewrite (rev_final l Hne) in Hd. cbn [path_cost] in Hd.
  rewrite Z.sub_diag in Hd. simpl Z.abs in Hd. rewrite Z.add_0_l in Hd.
  rewrite Hd.
  - destruct l as [| a l']; [congruence |]. unfold first. simpl hd. lia.
  - intros x Hx. unfold final. now apply sorted_le_last.
Qed.

Lemma others_id (s : Z) (l : list Z) : ~ In s l -> others s l = l.
Proof.
  intros H. unfold others. induction l as [| a l IH]; [reflexivity |].
  simpl. destruct (Z.eqb_spec a s) as [-> | _].
  - exfalso. apply H. now left.
  - simpl. f_equal. apply IH. intros Hin. apply H. now right.
Qed.

End SweepCost.

(** * Where the two totals agree *)

Ltac decide_tokens :=
  repeat match goal with
         | |- context [String.eqb ?a ?b] =>
             let v := eval vm_compute in (String.eqb a b) in
             match v with
             | true => change (String.eqb a b) with true
             | false => change (String.eqb a b) with false
             end
         end;
  cbv iota.

Section GeneratedTotal.

Lemma finalSeek_closed (w2 : Window) (st : walk) :
  w2 = win st -> synced st ->
  finalSeek
    (history
       (if (0 <? length (history w2))%nat
        then set_history
               (history w2 ++ [last (history w2) (Step.mk 0 0 [] [])]) w2
        else w2))
  = totalSeek st.
Proof.
  intros -> [h Hh]. rewrite Hh.
  assert (Hpos : (0 <? length (h ++ [snapshot st]))%nat = true).
  { apply Nat.ltb_lt. rewrite length_app. simpl. lia. }
  rewrite Hpos. cbn [history set_history]. unfold finalSeek.
  now rewrite !last_last.
Qed.

Lemma plan_synced (plan : list action) (startHead : Z) (w0 : Window) :
  history w0 = [Step.mk startHead 0 JSSet.empty []] ->
  Forall recorded plan -> synced (exec plan (start_walk startHead w0)).
Proof.
  intros Hh Hrec. apply synced_exec; [assumption |].
  exists []. simpl. exact Hh.
Qed.

Lemma plan_seek (plan : list action) (startHead : Z) (w0 : Window) (D : Z) :
  DISK_MAX w0 = D ->
  totalSeek (exec plan (start_walk startHead w0))
  = plan_cost D startHead plan.
Proof.
  intros Hd.
  destruct (exec_totals D plan (start_walk startHead w0) Hd) as (Ht & _).
  rewrite Ht. simpl. lia.
Qed.

Lemma recorded_serve (l : list Z) : Forall recorded (map Serve l).
Proof. apply Forall_forall. intros a Ha. apply in_map_iff in Ha.
       destruct Ha as (x & <- & _). exact I. Qed.

Lemma recorded_prologue (requests : list Z) (s : Z) :
  Forall recorded (prologue requests s).
Proof. unfold prologue. destruct (includes _ _); repeat constructor. Qed.

Ltac all_recorded :=
  repeat first
    [ apply Forall_app; split
    | apply recorded_prologue
    | apply recorded_serve
    | constructor; exact I
    | constructor ].

Lemma scan_plan_recorded requests s direction :
  Forall recorded (scan_plan requests s direction).
Proof.
  unfold scan_plan. cbv zeta.
  destruct (direction =? "right")%string; all_recorded.
Qed.

Lemma cscan_plan_recorded requests s direction :
  Forall recorded (cscan_plan requests s direction).
Proof.
  unfold cscan_plan. cbv zeta.
  destruct (direction =? "right")%string; all_recorded.
Qed.

Lemma look_plan_recorded requests s direction :
  Forall recorded (look_plan requests s direction).
Proof.
  unfold look_plan. cbv zeta.
  destruct (direction =? "right")%string; all_recorded.
Qed.

Lemma clook_plan_recorded requests s direction :
  (direction =? "right")%string = true \/ ~ In s requests ->
  Forall recorded (clook_plan requests s direction).
Proof.
  intros H. unfold clook_plan. cbv zeta.
  destruct (direction =? "right")%string; [all_recorded |].
  destruct H as [H | H]; [discriminate |].
  apply Forall_app. split; [apply recorded_prologue |].
  apply Forall_app. split; [apply recorded_serve |].
  destruct (rev (at_or_above s (sortedRequests requests))) as [| x t] eqn:E;
    constructor; [| apply recorded_serve].
  simpl. intros ->. apply H.
  apply (In_R requests s s). rewrite (in_rev _ s), E. now left.
Qed.

Lemma sstf_plan_recorded requests s : Forall recorded (sstf_plan requests s).
Proof.
  unfold sstf_plan. cbv zeta.
  destruct (JSSet.has _ _); all_recorded.
Qed.

Variables (requests : list Z) (startHead : Z) (direction : string)
          (w : Window).

Ltac generated lemma :=
  unfold run, calculateSimulationHistory; decide_tokens; cbv zeta;
  rewrite lemma;
  match goal with
  | |- finalSeek (history (if _ then set_history _ (win ?st) else _)) = _ =>
      rewrite (finalSeek_closed (win st) st eq_refl);
      [apply plan_seek; reflexivity | apply plan_synced; [reflexivity |]]
  end.

Lemma fcfs_generated_total :
  finalSeek (run "fcfs" requests startHead direction w)
  = path_cost startHead requests.
Proof.
  rewrite <- (plan_cost_serve (DISK_MAX w)).
  unfold run, calculateSimulationHistory; decide_tokens; cbv zeta.
  rewrite fcfs_is_plan.
  - match goal with
    | |- finalSeek (history (if _ then set_history _ (win ?st) else _)) = _ =>
        rewrite (finalSeek_closed (win st) st eq_refl);
        [apply plan_seek; reflexivity | apply plan_synced; [reflexivity |]]
    end.
    apply recorded_serve.
  - intros x Hx. simpl.
    apply JSSetFacts.has_In. now apply JSSetFacts.In_of_list.
Qed.

Lemma sstf_generated_total :
  finalSeek (run "sstf" requests startHead direction w)
  = plan_cost (DISK_MAX w) startHead (sstf_plan requests startHead).
Proof. generated sstf_is_plan; apply sstf_plan_recorded. Qed.

Lemma scan_generated_total :
  finalSeek (run "scan" requests startHead direction w)
  = plan_cost (DISK_MAX w) startHead (scan_plan requests startHead direction).
Proof. generated scan_is_plan; apply scan_plan_recorded. Qed.

Lemma cscan_generated_total :
  finalSeek (run "c-scan" requests startHead direction w)
  = plan_cost (DISK_MAX w) startHead
      (cscan_plan requests startHead direction).
Proof. generated cscan_is_plan; apply cscan_plan_recorded. Qed.

Lemma look_generated_total :
  finalSeek (run "look" requests startHead direction w)
  = plan_cost (DISK_MAX w) startHead (look_plan requests startHead direction).
Proof. generated look_is_plan; apply look_plan_recorded. Qed.

Lemma clook_generated_total :
  (direction =? "right")%string = true \/ ~ In startHead requests ->
  finalSeek (run "c-look" requests startHead direction w)
  = plan_cost (DISK_MAX w) startHead
      (clook_plan requests startHead direction).
Proof. intros H. generated clook_is_plan; now apply clook_plan_recorded. Qed.

End GeneratedTotal.

Section Agreement.

Variables (requests : list Z) (startHead : Z) (w : Window).

Let D := DISK_MAX w.

Hypothesis disk_positive : 0 < D.
Hypothesis requests_in_range : Forall (in_range D) requests.
Hypothesis start_in_range : in_range D startHead.

Let L := below startHead (sortedRequests requests).
Let R := at_or_above startHead (sortedRequests requests).

Lemma final_In (l : list Z) : l <> [] -> In (final l) l.
Proof. apply last_In. Qed.

Lemma first_In (l : list Z) : l <> [] -> In (first l) l.
Proof. destruct l; [congruence | intros _; now left]. Qed.

Lemma L_ends :
  match L with
  | [] => True
  | _ => 0 <= first L /\ first L <= final L /\ final L < startHead
  end.
Proof.
  destruct L as [| a l] eqn:E; [exact I |]. rewrite <- E.
  assert (Hne : L <> []) by (rewrite E; discriminate).
  pose proof (first_In L Hne) as Hf. pose proof (final_In L Hne) as Hl.
  apply In_L in Hf. apply In_L in Hl.
  destruct Hf as [Hf _]. destruct Hl as [_ Hl].
  apply (request_range requests D requests_in_range) in Hf.
  pose proof (sorted_first_le_final L (L_ascending requests startHead) Hne).
  lia.
Qed.

Lemma R_ends :
  match R with
  | [] => True
  | _ => startHead <= first R /\ first R <= final R /\ final R <= D
  end.
Proof.
  destruct R as [| a l] eqn:E; [exact I |]. rewrite <- E.
  assert (Hne : R <> []) by (rewrite E; discriminate).
  pose proof (first_In R Hne) as Hf. pose proof (final_In R Hne) as Hl.
  apply In_R in Hf. apply In_R in Hl.
  destruct Hf as [_ Hf]. destruct Hl as [Hl _].
  apply (request_range requests D requests_in_range) in Hl.
  pose proof (sorted_first_le_final R (R_ascending requests startHead) Hne).
  lia.
Qed.

Lemma others_R_last :
  last (others startHead R) startHead
  = match R with [] => startHead | _ => final R end.
Proof.
  pose proof R_ends as HR.
  destruct R as [| a l] eqn:E; [reflexivity |]. rewrite <- E in *.
  assert (Hne : R <> []) by (rewrite E; discriminate).
  assert (Hs : StronglySorted Z.le (others startHead R)).
  { apply filter_sorted, R_ascending. }
  assert (Hmax : forall x, In x (others startHead R) -> x <= final R).
  { intros x Hx. apply In_others in Hx. destruct Hx as [Hx _].
    apply sorted_le_last; [apply R_ascending | assumption]. }
  destruct (others startHead R) as [| b m] eqn:EO.
  - simpl. destruct (Z.eq_dec (final R) startHead) as [| Hneq]; [congruence |].
    assert (Hin : In (final R) (others startHead R)).
    { apply In_others. split; [now apply final_In | assumption]. }
    rewrite EO in Hin. destruct Hin.
  - rewrite <- EO in *.
    assert (Hne' : others startHead R <> []) by (rewrite EO; discriminate).
    rewrite (last_default _ startHead 0 Hne').
    destruct (Z.eq_dec (final R) startHead) as [Heq | Hneq].
    + pose proof (final_In _ Hne') as Hin. unfold final in Hin.
      pose proof (Hmax _ Hin). apply In_others in Hin.
      destruct Hin as [Hin Hns]. apply In_R in Hin.
      unfold final in *. lia.
    + apply sorted_final_max; [assumption | | assumption].
      apply In_others. split; [now apply final_In | assumption].
Qed.

Lemma others_R_cost :
  path_cost startHead (others startHead R)
  = last (others startHead R) startHead - startHead.
Proof.
  apply path_cost_up.
  - apply filter_sorted, R_ascending.
  - intros x Hx. apply In_others in Hx. destruct Hx as [Hx _].
    apply In_R in Hx. lia.
Qed.

Lemma up_cost (l : list Z) (h : Z) :
  StronglySorted Z.le l ->
  path_cost h l
  = match l with
    | [] => 0
    | _ => Z.abs (first l - h) + (final l - first l)
    end.
Proof.
  intros Hs. destruct l as [| a l'] eqn:E; [reflexivity |].
  rewrite <- E in *. apply path_cost_ascending; [assumption |].
  rewrite E. discriminate.
Qed.

Lemma down_cost (l : list Z) (h : Z) :
  StronglySorted Z.le l ->
  path_cost h (rev l)
  = match l with
    | [] => 0
    | _ => Z.abs (final l - h) + (final l - first l)
    end.
Proof.
  intros Hs. destruct l as [| a l'] eqn:E; [reflexivity |].
  rewrite <- E in *. apply path_cost_descending; [assumption |].
  rewrite E. discriminate.
Qed.

Lemma up_end (l : list Z) (h : Z) :
  last l h = match l with [] => h | _ => final l end.
Proof.
  destruct l as [| a l']; [reflexivity |].
  apply last_default. discriminate.
Qed.

Lemma down_end (l : list Z) (h : Z) :
  last (rev l) h = match l with [] => h | _ => first l end.
Proof. rewrite last_rev. now destruct l. Qed.

(** The landing of C-LOOK costs what serving the list as it stands would,
    when the start position is not in it. *)
Lemma landing_cost (h : Z) (l : list Z) :
  ~ In startHead l ->
  plan_cost D h
    match l with
    | [] => []
    | x :: t => Land startHead x :: map Serve (others startHead t)
    end
  = path_cost h l.
Proof.
  intros H. destruct l as [| x t]; [reflexivity |].
  cbn [plan_cost cost position path_cost].
  rewrite others_id, plan_cost_serve; [reflexivity |].
  intros Hin. apply H. now right.
Qed.

Lemma R_without_start : ~ In startHead requests -> ~ In startHead R.
Proof. intros H Hin. apply In_R in Hin. tauto. Qed.

Lemma revR_without_start : ~ In startHead requests -> ~ In startHead (rev R).
Proof. intros H Hin. apply in_rev in Hin. now apply R_without_start. Qed.

Ltac plan_costs :=
  rewrite ?plan_cost_app, ?plan_end_app, ?plan_cost_prologue,
    ?plan_end_prologue, ?plan_cost_serve, ?plan_end_serve;
  cbn [plan_cost plan_end cost position];
  rewrite ?plan_cost_serve, ?plan_end_serve.

Ltac sweep_costs :=
  pose proof (L_ascending requests startHead) as HLs;
  pose proof (R_ascending requests startHead) as HRs;
  fold L in HLs; fold R in HRs;
  rewrite ?others_R_cost, ?others_R_last,
    ?(down_cost L _ HLs), ?(up_cost L _ HLs),
    ?(down_cost R _ HRs), ?(up_cost R _ HRs),
    ?(down_end L), ?(up_end L), ?(down_end R), ?(up_end R).

Ltac by_cases :=
  pose proof L_ends as HL; pose proof R_ends as HR;
  pose proof start_in_range as Hstart; unfold in_range in Hstart;
  unfold when_nonempty, go, charge;
  remember (first L) as fL; remember (final L) as lL;
  remember (first R) as fR; remember (final R) as lR;
  destruct L; destruct R;
  cbn [length Nat.ltb Nat.leb fst snd] in *; lia.

Ltac stats_of :=
  unfold getAlgorithmStats; decide_tokens; cbv zeta;
  fold (sortedRequests requests); fold L R; fold D;
  destruct (Z.eqb_spec D 0) as [| _]; [lia |].

Lemma scan_totals_agree (direction : string) :
  (direction =? "right")%string = true \/ ~ In startHead requests ->
  plan_cost D startHead (scan_plan requests startHead direction)
  = getAlgorithmStats "scan" requests startHead direction w.
Proof.
  intros Hc. stats_of. unfold scan_plan. cbv zeta. fold L R.
  destruct (direction =? "right")%string.
  - plan_costs. sweep_costs. by_cases.
  - destruct Hc as [Hc | Hc]; [discriminate |].
    rewrite (others_id _ _ (R_without_start Hc)).
    plan_costs. sweep_costs. by_cases.
Qed.

Lemma cscan_totals_agree (direction : string) :
  (direction =? "right")%string = true \/ ~ In startHead requests ->
  plan_cost D startHead (cscan_plan requests startHead direction)
  = getAlgorithmStats "c-scan" requests startHead direction w.
Proof.
  intros Hc. stats_of. unfold cscan_plan. cbv zeta. fold L R.
  destruct (direction =? "right")%string.
  - plan_costs. sweep_costs. by_cases.
  - destruct Hc as [Hc | Hc]; [discriminate |].
    rewrite (others_id _ _ (revR_without_start Hc)).
    plan_costs. sweep_costs. by_cases.
Qed.

Lemma look_totals_agree (direction : string) :
  (direction =? "right")%string = true \/ ~ In startHead requests ->
  plan_cost D startHead (look_plan requests startHead direction)
  = getAlgorithmStats "look" requests startHead direction w.
Proof.
  intros Hc. stats_of. unfold look_plan. cbv zeta. fold L R.
  destruct (direction =? "right")%string.
  - plan_costs. sweep_costs. by_cases.
  - destruct Hc as [Hc | Hc]; [discriminate |].
    rewrite (others_id _ _ (R_without_start Hc)).
    plan_costs. sweep_costs. by_cases.
Qed.

Lemma clook_totals_agree (direction : string) :
  (direction =? "right")%string = true \/ ~ In startHead requests ->
  plan_cost D startHead (clook_plan requests startHead direction)
  = getAlgorithmStats "c-look" requests startHead direction w.
Proof.
  intros Hc. stats_of. unfold clook_plan. cbv zeta. fold L R.
  destruct (direction =? "right")%string.
  - plan_costs. sweep_costs. by_cases.
  - destruct Hc as [Hc | Hc]; [discriminate |].
    rewrite !plan_cost_app, ?plan_end_app, plan_cost_prologue,
      plan_end_prologue, plan_cost_serve, plan_end_serve.
    rewrite (landing_cost _ _ (revR_without_start Hc)).
    sweep_costs. by_cases.
Qed.

End Agreement.

Section FcfsSstfTotals.

Variables (requests : list Z) (startHead : Z) (direction : string)
          (w : Window).

Lemma fold_go (l : list Z) (h t : Z) :
  fold_left (fun s req => go req s) l (h, t) = (last l h, t + path_cost h l).
Proof.
  revert h t. induction l as [| a l IH]; intros h t.
  - simpl. f_equal. lia.
  - rewrite last_cons. cbn [fold_left path_cost]. unfold go at 2.
    cbn [fst snd]. rewrite IH. f_equal. lia.
Qed.

Lemma fcfs_totals_agree :
  finalSeek (run "fcfs" requests startHead direction w)
  = getAlgorithmStats "fcfs" requests startHead direction w.
Proof.
  rewrite fcfs_generated_total.
  unfold getAlgorithmStats. decide_tokens. cbv zeta.
  rewrite fold_go. simpl. reflexivity.
Qed.

Lemma sstf_totals_agree :
  finalSeek (run "sstf" requests startHead direction w)
  = getAlgorithmStats "sstf" requests startHead direction w.
Proof.
  rewrite sstf_generated_total.
  unfold getAlgorithmStats. decide_tokens. cbv zeta.
  rewrite stats_remaining_set. unfold sstf_plan. cbv zeta.
  destruct (JSSet.has (JSSet.of_list requests) startHead);
    rewrite sstf_total_is_path_cost; cbn [plan_cost cost position];
    rewrite plan_cost_serve; lia.
Qed.

(** The SSTF loop is through after as many turns as the set has members:
    further turns change nothing. *)
Lemma sstf_walk_fuel (fuel : nat) (remaining : JSSet.t) (st : walk) :
  NoDup remaining -> (JSSet.size remaining <= fuel)%nat ->
  sstf_walk fuel remaining st
  = sstf_walk (JSSet.size remaining) remaining st.
Proof.
  intros Hnd Hsize. rewrite !sstf_walk_is_plan.
  now rewrite (sstf_order_fuel fuel).
Qed.

Lemma sstf_total_fuel (fuel : nat) (remaining : JSSet.t) (h t : Z) :
  NoDup remaining -> (JSSet.size remaining <= fuel)%nat ->
  sstf_total fuel remaining h t
  = sstf_total (JSSet.size remaining) remaining h t.
Proof.
  intros Hnd Hsize. rewrite !sstf_total_is_path_cost.
  now rewrite (sstf_order_fuel fuel).
Qed.

End FcfsSstfTotals.

(** X1: the two totals agree wherever C1 does not fail: for requests and a
    start position within [0, DISK_MAX] (DISK_MAX positive), the final
    [seek] of the run is the total of [getAlgorithmStats] whenever the
    direction is [right], or the algorithm is FCFS or SSTF, or the start
    position is not itself a request. *)
Theorem totals_agree (algorithm : string) (requests : list Z)
    (startHead : Z) (direction : string) (w : Window) :
  0 < DISK_MAX w ->
  Forall (in_range (DISK_MAX w)) requests ->
  in_range (DISK_MAX w) startHead ->
  (direction =? "right")%string = true \/
  (algorithm =? "fcfs")%string = true \/
  (algorithm =? "sstf")%string = true \/
  ~ In startHead requests ->
  finalSeek (run algorithm requests startHead direction w)
  = getAlgorithmStats algorithm requests startHead direction w.
Proof.
  intros Hpos Hreq Hstart Hc.
  destruct (algorithm =? "fcfs")%string eqn:E1.
  { apply String.eqb_eq in E1. subst. apply fcfs_totals_agree. }
  destruct (algorithm =? "sstf")%string eqn:E2.
  { apply String.eqb_eq in E2. subst. apply sstf_totals_agree. }
  assert (Hc' : (direction =? "right")%string = true
                \/ ~ In startHead requests).
  { destruct Hc as [H | [H | [H | H]]]; auto; discriminate. }
  destruct (algorithm =? "scan")%string eqn:E3.
  { apply String.eqb_eq in E3. subst. rewrite scan_generated_total.
    now apply scan_totals_agree. }
  destruct (algorithm =? "c-scan")%string eqn:E4.
  { apply String.eqb_eq in E4. subst. rewrite cscan_generated_total.
    now apply cscan_totals_agree. }
  destruct (algorithm =? "look")%string eqn:E5.
  { apply String.eqb_eq in E5. subst. rewrite look_generated_total.
    now apply look_totals_agree. }
  destruct (algorithm =? "c-look")%string eqn:E6.
  { apply String.eqb_eq in E6. subst.
    rewrite clook_generated_total by assumption.
    now apply clook_totals_agree. }
  destruct (unknown_algorithm_run algorithm requests startHead direction w)
    as [Hr Hs].
  { unfold known_algorithm. simpl. now rewrite E1, E2, E3, E4, E5, E6. }
  now rewrite Hr, Hs.
Qed.

Lemma totals_agree_witness :
  finalSeek (run "c-look" [98; 183; 37; 122; 14] 53 "left" (page 199))
  = getAlgorithmStats "c-look" [98; 183; 37; 122; 14] 53 "left" (page 199).
Proof.
  apply (totals_agree "c-look" [98; 183; 37; 122; 14] 53 "left" (page 199)).
  - reflexivity.
  - repeat constructor; simpl; lia.
  - unfold in_range. simpl. lia.
  - right. right. right. simpl. intros H.
    repeat (destruct H as [H | H]; [discriminate |]). exact H.
Defined.

(** * Every run is a plan run from the first step *)

Section RunAsPlan.

Lemma act_grows (a : action) : grows (act a).
Proof.
  intros st. destruct a; simpl;
    try match goal with
        | |- context [if ?b then _ else _] => destruct b
        end;
    first [apply extends_refl | now eexists [_]].
Qed.

Lemma exec_extends (plan : list action) (st : walk) :
  extends (win st) (win (exec plan st)).
Proof.
  revert st. induction plan as [| a p IH]; intros st.
  - apply extends_refl.
  - eapply extends_trans; [apply (act_grows a) | apply IH].
Qed.

Variables (algorithm : string) (requests : list Z) (startHead : Z)
          (direction : string) (w : Window).

Lemma walked_history_starts :
  exists body,
    history (win (walked_state algorithm requests startHead direction w))
    = Step.mk startHead 0 JSSet.empty [] :: body.
Proof.
  destruct (exec_extends (plan_of algorithm requests startHead direction)
              (start_walk startHead
                 (opening_window algorithm requests startHead w)))
    as [body Hb].
  exists body. exact Hb.
Qed.

Lemma run_as_plan :
  run algorithm requests startHead direction w
  = closed (history
              (win (walked_state algorithm requests startHead direction w))).
Proof.
  destruct walked_history_starts as [body Hb].
  unfold run, calculateSimulationHistory. cbv zeta.
  fold (opening_window algorithm requests startHead w).
  assert (Hw : (if (algorithm =? "fcfs")%string
                then calculateFcfsPath requests startHead
                       (opening_window algorithm requests startHead w)
                else if (algorithm =? "sstf")%string
                then calculateSstfPath requests startHead
                       (opening_window algorithm requests startHead w)
                else if (algorithm =? "scan")%string
                then calculateScanPath requests startHead direction
                       (opening_window algorithm requests startHead w)
                else if (algorithm =? "c-scan")%string
                then calculateCScanPath requests startHead direction
                       (opening_window algorithm requests startHead w)
                else if (algorithm =? "look")%string
                then calculateLookPath requests startHead direction
                       (opening_window algorithm requests startHead w)
                else if (algorithm =? "c-look")%string
                then calculateCLookPath requests startHead direction
                       (opening_window algorithm requests startHead w)
                else opening_window algorithm requests startHead w)
               = win (walked_state algorithm requests startHead direction w)).
  { unfold walked_state, plan_of.
    destruct (algorithm =? "fcfs")%string eqn:E.
    - apply fcfs_is_plan. intros x Hx. unfold opening_window.
      cbn [originalRequestSet addHistoryStep set_history]. rewrite E.
      apply JSSetFacts.has_In. now apply JSSetFacts.In_of_list.
    - destruct (algorithm =? "sstf")%string; [apply sstf_is_plan |].
      destruct (algorithm =? "scan")%string; [apply scan_is_plan |].
      destruct (algorithm =? "c-scan")%string; [apply cscan_is_plan |].
      destruct (algorithm =? "look")%string; [apply look_is_plan |].
      destruct (algorithm =? "c-look")%string; [apply clook_is_plan |].
      reflexivity. }
  rewrite Hw, Hb. reflexivity.
Qed.

End RunAsPlan.

(** * What a run serves *)

Section Served.

Lemma served_act (a : action) (st : walk) (x : Z) :
  In x (served (act a st)) <-> In x (served st) \/ In x (serves a).
Proof.
  destruct a; simpl;
    repeat match goal with
           | |- context [Z.eqb ?a ?b] => destruct (Z.eqb a b)
           end;
    simpl; rewrite ?JSSetFacts.In_add; intuition.
Qed.

Lemma served_exec (plan : list action) (st : walk) (x : Z) :
  In x (served (exec plan st))
  <-> In x (served st) \/ In x (flat_map serves plan).
Proof.
  revert st. induction plan as [| a p IH]; intros st.
  - simpl. tauto.
  - cbn [exec fold_left flat_map]. fold (exec p (act a st)).
    rewrite IH, served_act, in_app_iff. tauto.
Qed.

Lemma shown_record (st : walk) : shown (record_step st).
Proof. exists (history (win st)), (snapshot st). now repeat split. Qed.

Lemma shown_act (a : action) (st : walk) : shown st -> shown (act a st).
Proof.
  intros Hs. destruct a; simpl;
    try match goal with
        | |- context [if ?b then _ else _] => destruct b
        end;
    try apply shown_record; exact Hs.
Qed.

Lemma shown_exec (plan : list action) (st : walk) :
  shown st -> shown (exec plan st).
Proof.
  revert st. induction plan as [| a p IH]; intros st Hs; [assumption |].
  apply IH. now apply shown_act.
Qed.

Variables (requests : list Z) (startHead : Z).

Lemma includes_In (l : list Z) (x : Z) : includes l x = true <-> In x l.
Proof. apply JSSetFacts.has_In. Qed.

Lemma prologue_serves (x : Z) :
  In x (flat_map serves (prologue requests startHead))
  <-> x = startHead /\ In startHead requests.
Proof.
  unfold prologue.
  destruct (includes (sortedRequests requests) startHead) eqn:E.
  - apply (proj1 (includes_In _ _)) in E.
    apply (proj1 (In_sorted requests startHead)) in E.
    simpl. intuition congruence.
  - simpl. split; [tauto |]. intros [_ H].
    apply (proj2 (In_sorted requests startHead)) in H.
    apply (proj2 (includes_In _ _)) in H. congruence.
Qed.

Lemma In_rev_iff (l : list Z) (x : Z) : In x (rev l) <-> In x l.
Proof. symmetry. apply in_rev. Qed.

Ltac membership x :=
  rewrite ?flat_map_app, ?in_app_iff, ?serves_map_Serve, ?serves_landing,
    ?prologue_serves;
  cbn [flat_map serves app In];
  rewrite ?In_others, ?In_rev_iff, ?In_others, ?(In_L requests startHead),
    ?(In_R requests startHead);
  destruct (Z.eq_dec x startHead) as [Heq | Hne];
  [rewrite ?Heq | destruct (Z_lt_le_dec x startHead)];
  intuition (try lia).

Lemma scan_plan_serves direction (x : Z) :
  In x (flat_map serves (scan_plan requests startHead direction))
  <-> In x requests.
Proof.
  unfold scan_plan. cbv zeta.
  destruct (direction =? "right")%string; membership x.
Qed.

Lemma cscan_plan_serves direction (x : Z) :
  In x (flat_map serves (cscan_plan requests startHead direction))
  <-> In x requests.
Proof.
  unfold cscan_plan. cbv zeta.
  destruct (direction =? "right")%string; membership x.
Qed.

Lemma look_plan_serves direction (x : Z) :
  In x (flat_map serves (look_plan requests startHead direction))
  <-> In x requests.
Proof.
  unfold look_plan. cbv zeta.
  destruct (direction =? "right")%string; membership x.
Qed.

Lemma clook_plan_serves direction (x : Z) :
  In x (flat_map serves (clook_plan requests startHead direction))
  <-> In x requests.
Proof.
  unfold clook_plan. cbv zeta.
  destruct (direction =? "right")%string; membership x.
Qed.

Lemma sstf_plan_serves (x : Z) :
  In x (flat_map serves (sstf_plan requests startHead)) <-> In x requests.
Proof.
  unfold sstf_plan. cbv zeta.
  pose proof (JSSetFacts.NoDup_of_list requests) as Hnd.
  destruct (JSSet.has (JSSet.of_list requests) startHead) eqn:E.
  - apply (proj1 (JSSetFacts.has_In _ _)) in E.
    apply (proj1 (JSSetFacts.In_of_list _ _)) in E.
    cbn [flat_map serves app In]. rewrite serves_map_Serve.
    destruct (sstf_order_serves_all
                (JSSet.size (JSSet.delete (JSSet.of_list requests) startHead))
                (JSSet.delete (JSSet.of_list requests) startHead) startHead)
      as [_ Hin]; [now apply JSSetFacts.NoDup_delete | reflexivity |].
    rewrite Hin, JSSetFacts.In_delete, JSSetFacts.In_of_list.
    destruct (Z.eq_dec x startHead); [subst |]; intuition congruence.
  - rewrite serves_map_Serve.
    destruct (sstf_order_serves_all (JSSet.size (JSSet.of_list requests))
                (JSSet.of_list requests) startHead) as [_ Hin];
      [assumption | reflexivity |].
    now rewrite Hin, JSSetFacts.In_of_list.
Qed.

Lemma plan_of_serves algorithm direction (x : Z) :
  known_algorithm algorithm = true ->
  (In x (flat_map serves (plan_of algorithm requests startHead direction))
   <-> In x requests).
Proof.
  intros Hk. unfold known_algorithm in Hk. simpl in Hk. unfold plan_of.
  destruct (algorithm =? "fcfs")%string; [now rewrite serves_map_Serve |].
  destruct (algorithm =? "sstf")%string; [apply sstf_plan_serves |].
  destruct (algorithm =? "scan")%string; [apply scan_plan_serves |].
  destruct (algorithm =? "c-scan")%string; [apply cscan_plan_serves |].
  destruct (algorithm =? "look")%string; [apply look_plan_serves |].
  destruct (algorithm =? "c-look")%string; [apply clook_plan_serves |].
  discriminate.
Qed.

Lemma plan_of_serves_once algorithm direction :
  (algorithm =? "fcfs")%string = false ->
  NoDup (flat_map serves (plan_of algorithm requests startHead direction)).
Proof.
  intros E. unfold plan_of. rewrite E.
  destruct (algorithm =? "sstf")%string; [apply sstf_plan_serves_once |].
  destruct (algorithm =? "scan")%string; [apply scan_plan_serves_once |].
  destruct (algorithm =? "c-scan")%string; [apply cscan_plan_serves_once |].
  destruct (algorithm =? "look")%string; [apply look_plan_serves_once |].
  destruct (algorithm =? "c-look")%string; [apply clook_plan_serves_once |].
  constructor.
Qed.

Variables (algorithm direction : string) (w : Window).

Lemma final_step_shows_served :
  let st := walked_state algorithm requests startHead direction w in
  let s := last (run algorithm requests startHead direction w)
                (Step.mk 0 0 [] []) in
  Step.served s = served st /\ Step.servedOrder s = servedOrder st.
Proof.
  cbv zeta. rewrite run_as_plan. unfold closed. rewrite last_last.
  assert (Hs : shown (walked_state algorithm requests startHead direction w)).
  { apply shown_exec. exists [], (Step.mk startHead 0 JSSet.empty []).
    now repeat split. }
  destruct Hs as (h & s & Hh & H1 & H2). rewrite Hh, last_last. now split.
Qed.

End Served.

(** X2: when the run of one of the six algorithms is over, its served set holds
    the requests and nothing else, whatever the requests, the start position
    and the direction are. *)
Theorem every_request_is_served (algorithm : string) (requests : list Z)
    (startHead : Z) (direction : string) (w : Window) :
  known_algorithm algorithm = true ->
  forall x,
    In x (Step.served (last (run algorithm requests startHead direction w)
                            (Step.mk 0 0 [] [])))
    <-> In x requests.
Proof.
  intros Hk x.
  destruct (final_step_shows_served requests startHead algorithm direction w)
    as [-> _].
  unfold walked_state. rewrite served_exec. simpl served at 1.
  rewrite (plan_of_serves requests startHead algorithm direction x Hk).
  simpl. tauto.
Qed.

Lemma every_request_is_served_witness :
  In 183 (Step.served (last (run "c-scan" [98; 183; 37; 98] 53 "left"
                               (page 199))
                            (Step.mk 0 0 [] [])))
  <-> In 183 [98; 183; 37; 98].
Proof.
  apply (every_request_is_served "c-scan" [98; 183; 37; 98] 53 "left"
           (page 199)).
  reflexivity.
Defined.

(** X3: for every algorithm but FCFS the final [servedOrder] is a rearrangement
    of the distinct requests: each is served, and served once. *)
Theorem distinct_requests_are_served_once (algorithm : string)
    (requests : list Z) (startHead : Z) (direction : string) (w : Window) :
  known_algorithm algorithm = true ->
  (algorithm =? "fcfs")%string = false ->
  Permutation
    (Step.servedOrder (last (run algorithm requests startHead direction w)
                            (Step.mk 0 0 [] [])))
    (JSSet.of_list requests).
Proof.
  intros Hk Hf.
  destruct (final_step_shows_served requests startHead algorithm direction w)
    as [_ ->].
  unfold walked_state.
  destruct (OInv_exec (plan_of algorithm requests startHead direction)
              (start_walk startHead
                 (opening_window algorithm requests startHead w)))
    as [[Hsame Hnd _] Hserved].
  { now apply OInv_start. }
  { simpl. now apply plan_of_serves_once. }
  rewrite Hsame. apply NoDup_Permutation.
  - exact Hnd.
  - apply JSSetFacts.NoDup_of_list.
  - intros x. rewrite Hserved. simpl.
    rewrite (plan_of_serves requests startHead algorithm direction x Hk).
    now rewrite JSSetFacts.In_of_list.
Qed.

Lemma distinct_requests_are_served_once_witness :
  Permutation
    (Step.servedOrder (last (run "sstf" [98; 183; 37; 98] 53 "left"
                               (page 199))
                            (Step.mk 0 0 [] [])))
    (JSSet.of_list [98; 183; 37; 98]).
Proof.
  apply (distinct_requests_are_served_once "sstf" [98; 183; 37; 98] 53 "left"
           (page 199)); reflexivity.
Defined.

(** * The seek of a run is the distance its head travels *)

Section Metered.

Lemma metered_snoc (h : list Step.t) (a b : Step.t) :
  metered (h ++ [a]) -> step_exact a b -> metered ((h ++ [a]) ++ [b]).
Proof.
  induction h as [| c t IH]; intros Hm Hab.
  - simpl. auto.
  - destruct t as [| d t'].
    + simpl in *. tauto.
    + destruct Hm as [Hcd Ht]. split; [exact Hcd |]. now apply IH.
Qed.

Lemma metered_pairs (pre post : list Step.t) (a b : Step.t) :
  metered (pre ++ a :: b :: post) -> step_exact a b.
Proof.
  induction pre as [| c pre IH]; simpl; [tauto |].
  intros [_ H]. exact (IH H).
Qed.

(** Along a metered history the seek of the last step is the seek of the
    first plus the length of the path through the heads. *)
Lemma metered_path (s0 : Step.t) (t : list Step.t) :
  metered (s0 :: t) ->
  Step.seek (last (s0 :: t) s0)
  = Step.seek s0 + path_cost (Step.head s0) (map Step.head t).
Proof.
  revert s0. induction t as [| b t IH]; intros s0 Hm.
  - simpl. lia.
  - destruct Hm as [Hab Ht]. rewrite last_cons.
    rewrite (last_default (b :: t) s0 b) by discriminate.
    rewrite (IH b Ht).
    cbn [map path_cost]. unfold step_exact in Hab. lia.
Qed.

Variable D : Z.
Hypothesis disk_nonnegative : 0 <= D.

Lemma metered_record (st st' : walk) :
  synced st -> metered (history (win st)) ->
  win st' = win st ->
  totalSeek st' = totalSeek st + Z.abs (currentHead st' - currentHead st) ->
  metered (history (win (record_step st'))).
Proof.
  intros [h Hh] Hm Hw Ht. simpl. rewrite Hw, Hh.
  apply metered_snoc; [now rewrite <- Hh |].
  unfold step_exact. simpl. exact Ht.
Qed.

Lemma metered_act (a : action) (st : walk) :
  DISK_MAX (win st) = D -> synced st -> metered (history (win st)) ->
  match a with
  | JumpMin => currentHead st = D
  | JumpMax => currentHead st = 0
  | _ => True
  end ->
  metered (history (win (act a st))).
Proof.
  intros Hd Hs Hm Ha.
  destruct a; cbn [act]; unfold serve, serve_start, sweep_to, jump_to;
    cbv zeta;
    try match goal with
        | |- context [if ?b then _ else _] => destruct b
        end;
    try exact Hm;
    apply (metered_record st); auto; simpl;
    rewrite ?Z.sub_diag, ?Ha, ?Hd; simpl; lia.
Qed.

Lemma metered_exec (plan : list action) (st : walk) :
  DISK_MAX (win st) = D -> synced st -> metered (history (win st)) ->
  metered_plan D (currentHead st) plan ->
  metered (history (win (exec plan st))).
Proof.
  revert st. induction plan as [| a p IH]; intros st Hd Hs Hm Hp.
  - exact Hm.
  - destruct Hp as [Ha Hp]. cbn [exec fold_left]. fold (exec p (act a st)).
    assert (Hma : metered (history (win (act a st)))).
    { apply metered_act; auto. destruct a; auto. }
    destruct a as [req | y | | | | | s0 y];
      try (apply IH;
           [ now rewrite act_disk
           | apply synced_act; [exact I | exact Hs]
           | exact Hma
           | now rewrite (act_head D _ st Hd) ]).
    destruct (Z.eq_dec y s0) as [Heq | Hne].
    + rewrite (Ha Heq). exact Hma.
    + apply IH;
        [ now rewrite act_disk
        | apply synced_act; [exact Hne | exact Hs]
        | exact Hma
        | now rewrite (act_head D _ st Hd) ].
Qed.

Lemma simple_plan_metered (h : Z) (p : list action) :
  Forall simple p -> metered_plan D h p.
Proof.
  revert h. induction p as [| a p IH]; intros h Hp; [exact I |].
  inversion Hp as [| ? ? Ha Hp']; subst.
  split; [destruct a; simpl in *; tauto | now apply IH].
Qed.

Lemma metered_plan_app (h : Z) (p q : list action) :
  Forall simple p -> metered_plan D (plan_end D h p) q ->
  metered_plan D h (p ++ q).
Proof.
  revert h. induction p as [| a p IH]; intros h Hp Hq; [exact Hq |].
  inversion Hp as [| ? ? Ha Hp']; subst.
  split; [destruct a; simpl in *; tauto | now apply IH].
Qed.

Lemma simple_serve (l : list Z) : Forall simple (map Serve l).
Proof.
  apply Forall_forall. intros a Ha. apply in_map_iff in Ha.
  destruct Ha as (x & <- & _). exact I.
Qed.

Lemma simple_prologue (requests : list Z) (s : Z) :
  Forall simple (prologue requests s).
Proof. unfold prologue. destruct (includes _ _); repeat constructor. Qed.

(** When the highest request at or above the start position is the start
    position itself, nothing else is there. *)
Lemma nothing_above_start (requests : list Z) (s : Z) (t : list Z) :
  rev (at_or_above s (sortedRequests requests)) = s :: t ->
  others s t = [].
Proof.
  intros Hrev.
  set (R := at_or_above s (sortedRequests requests)) in *.
  assert (HR : R = rev t ++ [s]).
  { rewrite <- (rev_involutive R), Hrev. reflexivity. }
  destruct (others s t) as [| y m] eqn:E; [reflexivity |].
  assert (Hy : In y (others s t)) by (rewrite E; now left).
  apply In_others in Hy. destruct Hy as [Hy Hne].
  assert (HyR : In y R).
  { rewrite HR. apply in_app_iff. left. now apply in_rev in Hy. }
  pose proof (sorted_le_last R 0 y (R_ascending requests s) HyR) as Hle.
  rewrite HR, last_last in Hle.
  apply In_R in HyR. lia.
Qed.

Ltac simple_parts :=
  repeat first
    [ apply Forall_app; split
    | apply simple_prologue
    | apply simple_serve
    | constructor; exact I
    | constructor ].

Lemma plan_of_metered algorithm requests s direction :
  metered_plan D s (plan_of algorithm requests s direction).
Proof.
  unfold plan_of.
  destruct (algorithm =? "fcfs")%string;
    [apply simple_plan_metered, simple_serve |].
  destruct (algorithm =? "sstf")%string.
  { apply simple_plan_metered. unfold sstf_plan. cbv zeta.
    destruct (JSSet.has _ _); simple_parts. }
  destruct (algorithm =? "scan")%string.
  { apply simple_plan_metered. unfold scan_plan. cbv zeta.
    destruct (direction =? "right")%string; simple_parts. }
  destruct (algorithm =? "c-scan")%string.
  { unfold cscan_plan. cbv zeta.
    destruct (direction =? "right")%string;
      rewrite !app_assoc, <- (app_assoc _ [_; _]);
      (apply metered_plan_app; [simple_parts |]);
      cbn [app metered_plan position]; repeat split;
      apply simple_plan_metered, simple_serve. }
  destruct (algorithm =? "look")%string.
  { apply simple_plan_metered. unfold look_plan. cbv zeta.
    destruct (direction =? "right")%string; simple_parts. }
  destruct (algorithm =? "c-look")%string; [| exact I].
  unfold clook_plan. cbv zeta.
  destruct (direction =? "right")%string.
  - apply simple_plan_metered. simple_parts.
  - rewrite app_assoc. apply metered_plan_app; [simple_parts |].
    destruct (rev (at_or_above s (sortedRequests requests)))
      as [| x t] eqn:E; [exact I |].
    split.
    + intros ->. now rewrite (nothing_above_start requests s t E).
    + apply simple_plan_metered, simple_serve.
Qed.

End Metered.

Section MeteredRuns.

Variables (algorithm : string) (requests : list Z) (startHead : Z)
          (direction : string) (w : Window).

Hypothesis HD : 0 <= DISK_MAX w.

Lemma run_metered : metered (run algorithm requests startHead direction w).
Proof.
  destruct (walked_history_starts algorithm requests startHead direction w)
    as [body Hb].
  assert (Hm : metered
                 (history
                    (win (walked_state algorithm requests startHead
                                       direction w)))).
  { unfold walked_state.
    apply (metered_exec (DISK_MAX w) HD); try reflexivity.
    - exists []. reflexivity.
    - simpl. auto.
    - apply plan_of_metered. }
  rewrite run_as_plan. unfold closed.
  set (h := history _) in *.
  assert (Hne : h <> []) by (rewrite Hb; discriminate).
  destruct (exists_last Hne) as (h' & z & Hz). rewrite Hz in *.
  rewrite last_last. apply metered_snoc; [exact Hm |].
  unfold step_exact. rewrite Z.sub_diag. simpl. lia.
Qed.

Lemma run_total_is_path :
  finalSeek (run algorithm requests startHead direction w)
  = path_cost startHead
      (map Step.head (tl (run algorithm requests startHead direction w))).
Proof.
  pose proof run_metered as Hr.
  destruct (run_shape algorithm requests startHead direction w)
    as [body' Hshape].
  rewrite Hshape in Hr |- *. unfold finalSeek.
  cbn [app tl] in *.
  set (s0 := Step.mk startHead 0 JSSet.empty []) in *.
  pose proof (metered_path s0 _ Hr) as Hp.
  rewrite (last_default _ _ s0) by discriminate.
  rewrite Hp. simpl. reflexivity.
Qed.

End MeteredRuns.

(** * The totals stay within the safe integers *)

Section SafeIntegers.

Lemma act_length (a : action) (st : walk) :
  (length (history (win (act a st))) <= S (length (history (win st))))%nat.
Proof.
  destruct a; simpl;
    repeat match goal with
           | |- context [if ?b then _ else _] => destruct b
           end;
    simpl; rewrite ?length_app; simpl; lia.
Qed.

Lemma exec_length (plan : list action) (st : walk) :
  (length (history (win (exec plan st)))
   <= length plan + length (history (win st)))%nat.
Proof.
  revert st. induction plan as [| a p IH]; intros st; [simpl; lia |].
  cbn [exec fold_left length]. fold (exec p (act a st)).
  pose proof (IH (act a st)). pose proof (act_length a st). lia.
Qed.

Lemma length_two_sides (h : Z) (l : list Z) :
  (length (below h l) + length (at_or_above h l) = length l)%nat.
Proof.
  unfold below, at_or_above.
  induction l as [| x l IH]; [reflexivity |]. cbn [filter].
  destruct (Z.ltb_spec x h), (Z.geb_spec x h); cbn [length]; lia.
Qed.

Lemma length_others (h : Z) (l : list Z) :
  (length (others h l) <= length l)%nat.
Proof. apply filter_length_le. Qed.

Lemma length_sortedRequests (requests : list Z) :
  (length (sortedRequests requests) <= length requests)%nat.
Proof.
  apply NoDup_incl_length.
  - apply sort_asc_NoDup, JSSetFacts.NoDup_of_list.
  - intros x Hx. apply (proj1 (In_sort_asc _ _)) in Hx.
    exact (proj1 (JSSetFacts.In_of_list _ _) Hx).
Qed.

Lemma length_sstf_order (requests : list Z) (remaining : JSSet.t) (h : Z) :
  NoDup remaining -> incl remaining requests ->
  (length (sstf_order (JSSet.size remaining) remaining h)
   <= length requests)%nat.
Proof.
  intros Hnd Hincl.
  destruct (sstf_order_serves_all (JSSet.size remaining) remaining h Hnd)
    as [Ho Hin]; [lia |].
  apply NoDup_incl_length; [exact Ho |].
  intros x Hx. apply Hincl. exact (proj1 (Hin x) Hx).
Qed.

Lemma plan_of_length (algorithm : string) (requests : list Z)
    (startHead : Z) (direction : string) :
  (length (plan_of algorithm requests startHead direction)
   <= length requests + 3)%nat.
Proof.
  pose proof (length_sortedRequests requests) as Hs.
  pose proof (length_two_sides startHead (sortedRequests requests)) as Hlr.
  pose proof (length_others startHead
                (at_or_above startHead (sortedRequests requests))) as Ho.
  assert (Hp : (length (prologue requests startHead) <= 1)%nat)
    by (unfold prologue; destruct (includes _ _); simpl; lia).
  unfold plan_of.
  destruct (algorithm =? "fcfs")%string; [rewrite length_map; lia |].
  destruct (algorithm =? "sstf")%string.
  { unfold sstf_plan. cbv zeta.
    assert (Hd : forall x, incl (JSSet.delete (JSSet.of_list requests) x)
                                requests).
    { intros x y Hy. apply (proj1 (JSSetFacts.In_delete _ _ _)) in Hy.
      exact (proj1 (JSSetFacts.In_of_list _ _) (proj1 Hy)). }
    assert (Hi : incl (JSSet.of_list requests) requests)
      by (intros y Hy; exact (proj1 (JSSetFacts.In_of_list _ _) Hy)).
    destruct (JSSet.has (JSSet.of_list requests) startHead);
      cbn [length]; rewrite length_map.
    - pose proof (length_sstf_order requests
                    (JSSet.delete (JSSet.of_list requests) startHead)
                    startHead
                    (JSSetFacts.NoDup_delete _ _
                       (JSSetFacts.NoDup_of_list requests)) (Hd startHead)).
      lia.
    - pose proof (length_sstf_order requests (JSSet.of_list requests)
                    startHead (JSSetFacts.NoDup_of_list requests) Hi).
      lia. }
  destruct (algorithm =? "scan")%string.
  { unfold scan_plan. cbv zeta.
    destruct (direction =? "right")%string;
      rewrite !length_app, !length_map, ?length_rev; cbn [length]; lia. }
  destruct (algorithm =? "c-scan")%string.
  { unfold cscan_plan. cbv zeta.
    pose proof (length_others startHead
                  (rev (at_or_above startHead (sortedRequests requests))))
      as Ho'.
    rewrite length_rev in Ho'.
    destruct (direction =? "right")%string;
      rewrite !length_app, !length_map, ?length_rev; cbn [length]; lia. }
  destruct (algorithm =? "look")%string.
  { unfold look_plan. cbv zeta.
    destruct (direction =? "right")%string;
      rewrite !length_app, !length_map, ?length_rev; lia. }
  destruct (algorithm =? "c-look")%string; [| simpl; lia].
  unfold clook_plan. cbv zeta.
  destruct (direction =? "right")%string.
  - rewrite !length_app, !length_map. lia.
  - rewrite !length_app, !length_map, length_rev.
    pose proof (length_rev (at_or_above startHead (sortedRequests requests)))
      as Hr.
    destruct (rev (at_or_above startHead (sortedRequests requests)))
      as [| x t]; cbn [length] in *; [lia |].
    rewrite length_map.
    pose proof (length_others startHead t). lia.
Qed.

Lemma path_cost_bound (D h : Z) (l : list Z) :
  in_range D h -> Forall (in_range D) l ->
  path_cost h l <= Z.of_nat (length l) * D.
Proof.
  intros Hh Hl. revert h Hh.
  induction Hl as [| x l Hx _ IH]; intros h Hh; [simpl; lia |].
  cbn [path_cost length]. specialize (IH x Hx).
  unfold in_range in *. nia.
Qed.

Lemma chain_seeks (a : Step.t) (t : list Step.t) :
  chain (a :: t) ->
  Forall (fun s => Step.seek a <= Step.seek s
                   <= Step.seek (last (a :: t) a))
         (a :: t).
Proof.
  revert a. induction t as [| b t IH]; intros a Hc.
  - constructor; [simpl; lia | constructor].
  - destruct Hc as [[Hab _] Hc]. specialize (IH b Hc).
    rewrite (last_cons a (b :: t) a).
    rewrite (last_default (b :: t) a b) by discriminate.
    pose proof (Forall_inv IH) as Hb. cbv beta in Hb.
    constructor; [lia |].
    eapply Forall_impl; [| exact IH]. cbv beta. intros s Hs. lia.
Qed.

Variables (algorithm : string) (requests : list Z) (startHead : Z)
          (direction : string) (w : Window).

Hypothesis Hsafe : safe_inputs requests startHead w.

Lemma run_length :
  (length (run algorithm requests startHead direction w)
   <= length requests + 5)%nat.
Proof.
  rewrite run_as_plan. unfold closed. rewrite length_app. cbn [length].
  unfold walked_state.
  pose proof (exec_length (plan_of algorithm requests startHead direction)
                (start_walk startHead
                   (opening_window algorithm requests startHead w))) as He.
  pose proof (plan_of_length algorithm requests startHead direction) as Hp.
  cbn [start_walk win opening_window addHistoryStep set_history history
       app length] in He.
  lia.
Qed.

(** The last [seek] of the run is its largest, and it is a safe integer. *)
Lemma run_seeks_safe :
  Forall (fun s => 0 <= Step.seek s
                   <= finalSeek (run algorithm requests startHead direction w))
         (run algorithm requests startHead direction w)
  /\ finalSeek (run algorithm requests startHead direction w)
     <= MAX_SAFE_INTEGER.
Proof.
  destruct Hsafe as (Hreq & Hst & Hroom).
  assert (HD : 0 <= DISK_MAX w) by (unfold in_range in Hst; lia).
  destruct (run_invariants_of_walk algorithm requests startHead direction w
              Hreq Hst) as (Hc & Hh & _).
  pose proof (run_total_is_path algorithm requests startHead direction w HD)
    as Htot.
  pose proof run_length as Hlen.
  destruct (run_shape algorithm requests startHead direction w)
    as [body Hshape].
  unfold finalSeek in *. rewrite Hshape in *.
  cbn [app tl] in *.
  set (s0 := Step.mk startHead 0 JSSet.empty []) in *.
  set (t := body ++ [last (s0 :: body) (Step.mk 0 0 [] [])]) in *.
  rewrite (last_default (s0 :: t) _ s0) in * by discriminate.
  split.
  - exact (chain_seeks s0 t Hc).
  - rewrite Htot.
    assert (Hb : path_cost startHead (map Step.head t)
                 <= Z.of_nat (length (map Step.head t)) * DISK_MAX w).
    { apply path_cost_bound; [exact Hst |].
      apply Forall_map. now inversion Hh. }
    rewrite length_map in Hb. cbn [length] in Hlen.
    unfold MAX_SAFE_INTEGER in *. nia.
Qed.

End SafeIntegers.

(** X4: on inputs within the safe integers (requests and start position
    within [0, DISK_MAX], room for a move of DISK_MAX per request), each
    step of a run adds to [seek] the distance between its head and the head
    of the step before; the final [seek] is therefore the length of the path
    through the heads of the run, and every [seek] of the run is a safe
    integer, so that the sums of the source are exact.  This holds for
    every algorithm token. *)
Theorem seek_is_distance_travelled (algorithm : string) (requests : list Z)
    (startHead : Z) (direction : string) (w : Window) :
  safe_inputs requests startHead w ->
  let r := run algorithm requests startHead direction w in
  (forall pre a b post, r = pre ++ a :: b :: post ->
     Step.seek b = Step.seek a + Z.abs (Step.head b - Step.head a)) /\
  finalSeek r = path_cost startHead (map Step.head (tl r)) /\
  Forall (fun s => 0 <= Step.seek s <= MAX_SAFE_INTEGER) r.
Proof.
  intros Hsafe. cbv zeta.
  assert (HD : 0 <= DISK_MAX w)
    by (destruct Hsafe as (_ & Hst & _); unfold in_range in Hst; lia).
  splits.
  - intros pre a b post Hpre.
    pose proof (run_metered algorithm requests startHead direction w HD)
      as Hr.
    rewrite Hpre in Hr. exact (metered_pairs _ _ _ _ Hr).
  - now apply run_total_is_path.
  - destruct (run_seeks_safe algorithm requests startHead direction w Hsafe)
      as [Hall Hmax].
    eapply Forall_impl; [| exact Hall]. cbv beta. intros s Hs. lia.
Qed.

Lemma seek_is_distance_travelled_witness :
  let r := run "c-scan" [98; 183; 37] 53 "right" (page 199) in
  (forall pre a b post, r = pre ++ a :: b :: post ->
     Step.seek b = Step.seek a + Z.abs (Step.head b - Step.head a)) /\
  finalSeek r = path_cost 53 (map Step.head (tl r)) /\
  Forall (fun s => 0 <= Step.seek s <= MAX_SAFE_INTEGER) r.
Proof.
  apply (seek_is_distance_travelled "c-scan" [98; 183; 37] 53 "right"
           (page 199)).
  unfold safe_inputs, in_range. simpl.
  split; [repeat constructor; lia | split; [lia |]].
  vm_compute. discriminate.
Defined.

(** * LOOK against SCAN *)

Section LookAgainstScan.


Lemma path_cost_nonneg (h : Z) (l : list Z) : 0 <= path_cost h l.
Proof.
  revert h. induction l as [| a l IH]; intros h; simpl; [lia |].
  specialize (IH a). lia.
Qed.

Variables (requests : list Z) (startHead : Z) (direction : string)
          (w : Window).



End LookAgainstScan.


(** * C-LOOK against C-SCAN *)

(** X7: for requests and a start position within [0, DISK_MAX], DISK_MAX
    positive, the total [getAlgorithmStats] gives for C-LOOK is at most the
    total it gives for C-SCAN. *)
Theorem clook_stats_never_exceed_cscan_stats (requests : list Z)
    (startHead : Z) (direction : string) (w : Window) :
  0 < DISK_MAX w ->
  Forall (in_range (DISK_MAX w)) requests ->
  in_range (DISK_MAX w) startHead ->
  getAlgorithmStats "c-look" requests startHead direction w
  <= getAlgorithmStats "c-scan" requests startHead direction w.
Proof.
  intros Hpos Hreq Hstart. unfold in_range in Hstart.
  pose proof (L_ends requests startHead w Hreq) as HL.
  pose proof (R_ends requests startHead w Hreq) as HR.
  unfold getAlgorithmStats. decide_tokens. cbv zeta.
  fold (sortedRequests requests).
  destruct (Z.eqb_spec (DISK_MAX w) 0) as [| _]; [lia |].
  unfold when_nonempty, go, charge.
  remember (first (below startHead (sortedRequests requests))) as fL.
  remember (final (below startHead (sortedRequests requests))) as lL.
  remember (first (at_or_above startHead (sortedRequests requests))) as fR.
  remember (final (at_or_above startHead (sortedRequests requests))) as lR.
  destruct (direction =? "right")%string;
    destruct (below startHead (sortedRequests requests));
    destruct (at_or_above startHead (sortedRequests requests));
    cbn [length Nat.ltb Nat.leb fst snd] in *; lia.
Qed.

Lemma clook_stats_never_exceed_cscan_stats_witness :
  getAlgorithmStats "c-look" [98; 183; 37; 122; 14] 53 "right" (page 199)
  <= getAlgorithmStats "c-scan" [98; 183; 37; 122; 14] 53 "right" (page 199).
Proof.
  apply (clook_stats_never_exceed_cscan_stats
           [98; 183; 37; 122; 14] 53 "right" (page 199)).
  - reflexivity.
  - repeat constructor; simpl; lia.
  - unfold in_range. simpl. lia.
Defined.

(** * The sweeping algorithms see a set of requests *)

Section RequestSet.

Lemma sorted_unique (l1 l2 : list Z) :
  StronglySorted Z.le l1 -> NoDup l1 ->
  StronglySorted Z.le l2 -> NoDup l2 ->
  (forall x, In x l1 <-> In x l2) -> l1 = l2.
Proof.
  revert l2. induction l1 as [| a l1 IH]; intros l2 Hs1 Hn1 Hs2 Hn2 Hin.
  - destruct l2 as [| b l2]; [reflexivity |].
    exfalso. apply (Hin b). now left.
  - destruct l2 as [| b l2].
    { exfalso. apply (Hin a). now left. }
    inversion Hs1 as [| ? ? Hs1' Hall1]; subst.
    inversion Hs2 as [| ? ? Hs2' Hall2]; subst.
    inversion Hn1 as [| ? ? Ha Hn1']; subst.
    inversion Hn2 as [| ? ? Hb Hn2']; subst.
    rewrite Forall_forall in Hall1, Hall2.
    assert (Hab : a = b).
    { assert (H1 : In a (b :: l2)) by (apply Hin; now left).
      assert (H2 : In b (a :: l1)) by (apply Hin; now left).
      destruct H1 as [-> | H1]; [reflexivity |].
      destruct H2 as [-> | H2]; [reflexivity |].
      specialize (Hall1 b H2). specialize (Hall2 a H1). lia. }
    subst b. f_equal. apply IH; auto.
    intros x. split; intros Hx.
    + assert (H : In x (a :: l2)) by (apply Hin; now right).
      destruct H as [<- | H]; [contradiction | exact H].
    + assert (H : In x (a :: l1)) by (apply Hin; now right).
      destruct H as [<- | H]; [contradiction | exact H].
Qed.

Lemma sortedRequests_of_members (l l' : list Z) :
  (forall x, In x l <-> In x l') -> sortedRequests l = sortedRequests l'.
Proof.
  intros H. apply sorted_unique.
  - apply sort_asc_sorted.
  - apply NoDup_sorted.
  - apply sort_asc_sorted.
  - apply NoDup_sorted.
  - intros x. now rewrite !In_sorted.
Qed.

End RequestSet.

(** X8: SCAN, C-SCAN, LOOK and C-LOOK depend on the requests only as a set: two
    request lists with the same members, in whatever order and with whatever
    repeats, give the same run and the same total of [getAlgorithmStats]. *)
Theorem sweeps_depend_on_the_request_set (algorithm : string)
    (requests requests' : list Z) (startHead : Z) (direction : string)
    (w : Window) :
  In algorithm ["scan"; "c-scan"; "look"; "c-look"]%string ->
  (forall x, In x requests <-> In x requests') ->
  run algorithm requests startHead direction w
    = run algorithm requests' startHead direction w /\
  getAlgorithmStats algorithm requests startHead direction w
    = getAlgorithmStats algorithm requests' startHead direction w.
Proof.
  intros Ha Hsame.
  pose proof (sortedRequests_of_members _ _ Hsame) as Hs.
  simpl in Ha.
  destruct Ha as [<- | [<- | [<- | [<- | []]]]];
    unfold run, calculateSimulationHistory, getAlgorithmStats,
      calculateScanPath, calculateCScanPath, calculateLookPath,
      calculateCLookPath, sweep_start;
    decide_tokens; cbv zeta;
    fold (sortedRequests requests); fold (sortedRequests requests');
    rewrite Hs; split; reflexivity.
Qed.

Lemma sweeps_depend_on_the_request_set_witness :
  run "c-look" [98; 37; 98; 14] 53 "left" (page 199)
    = run "c-look" [14; 37; 98] 53 "left" (page 199) /\
  getAlgorithmStats "c-look" [98; 37; 98; 14] 53 "left" (page 199)
    = getAlgorithmStats "c-look" [14; 37; 98] 53 "left" (page 199).
Proof.
  apply (sweeps_depend_on_the_request_set "c-look" [98; 37; 98; 14]
           [14; 37; 98] 53 "left" (page 199)).
  - simpl. auto.
  - intros x. simpl. intuition.
Defined.

(** * The head visits every request *)

Section Visits.

Lemma history_act (a : action) (st : walk) (t : Step.t) :
  In t (history (win st)) -> In t (history (win (act a st))).
Proof.
  intros Ht. destruct (act_grows a st) as [l Hl]. rewrite Hl.
  apply in_app_iff. now left.
Qed.

Lemma visited_record (st st' : walk) :
  visited st -> win st' = win st ->
  (forall x, In x (served st') ->
             In x (served st) \/ x = currentHead st') ->
  visited (record_step st').
Proof.
  intros Hv Hw Hs x Hx. simpl in Hx |- *.
  destruct (Hs x Hx) as [Hold | ->].
  - destruct (Hv x Hold) as (t & Ht & Hh). exists t.
    split; [| exact Hh]. rewrite Hw. apply in_app_iff. now left.
  - eexists. split; [apply in_app_iff; right; now left | reflexivity].
Qed.

Lemma visited_act (a : action) (st : walk) :
  visited st ->
  match a with ServeHere x => x = currentHead st | _ => True end ->
  visited (act a st).
Proof.
  intros Hv Ha.
  destruct a; cbn [act]; unfold serve, serve_start, sweep_to, jump_to;
    cbv zeta;
    try match goal with
        | |- context [if ?b then _ else _] => destruct b
        end;
    try exact Hv;
    try (apply (visited_record st); auto; simpl; intros y Hy;
         rewrite ?JSSetFacts.In_add in Hy; subst; tauto).
Qed.

Variable D : Z.

Lemma visited_exec (plan : list action) (st : walk) :
  DISK_MAX (win st) = D -> visited st ->
  stands D (currentHead st) plan -> visited (exec plan st).
Proof.
  revert st. induction plan as [| a p IH]; intros st Hd Hv Hp.
  - exact Hv.
  - destruct Hp as [Ha Hp]. cbn [exec fold_left]. fold (exec p (act a st)).
    apply IH.
    + now rewrite act_disk.
    + apply visited_act; [exact Hv |]. destruct a; auto.
    + now rewrite (act_head D a st Hd).
Qed.

Lemma moving_plan_stands (h : Z) (p : list action) :
  Forall moves p -> stands D h p.
Proof.
  revert h. induction p as [| a p IH]; intros h Hp; [exact I |].
  inversion Hp as [| ? ? Ha Hp']; subst.
  split; [destruct a; simpl in *; tauto | now apply IH].
Qed.

Lemma moves_serve (l : list Z) : Forall moves (map Serve l).
Proof.
  apply Forall_forall. intros a Ha. apply in_map_iff in Ha.
  destruct Ha as (x & <- & _). exact I.
Qed.

Lemma stands_after_prologue (requests : list Z) (s : Z) (p : list action) :
  Forall moves p -> stands D s (prologue requests s ++ p).
Proof.
  intros Hp. unfold prologue. destruct (includes _ _); simpl.
  - split; [reflexivity | now apply moving_plan_stands].
  - now apply moving_plan_stands.
Qed.

Ltac moving_parts :=
  repeat first
    [ apply Forall_app; split
    | apply moves_serve
    | constructor; exact I
    | constructor ].

Lemma plan_of_stands algorithm requests s direction :
  stands D s (plan_of algorithm requests s direction).
Proof.
  unfold plan_of.
  destruct (algorithm =? "fcfs")%string;
    [apply moving_plan_stands, moves_serve |].
  destruct (algorithm =? "sstf")%string.
  { unfold sstf_plan. cbv zeta. destruct (JSSet.has _ _).
    - split; [reflexivity | apply moving_plan_stands, moves_serve].
    - apply moving_plan_stands, moves_serve. }
  destruct (algorithm =? "scan")%string.
  { unfold scan_plan. cbv zeta. apply stands_after_prologue.
    destruct (direction =? "right")%string; moving_parts. }
  destruct (algorithm =? "c-scan")%string.
  { unfold cscan_plan. cbv zeta. apply stands_after_prologue.
    destruct (direction =? "right")%string; moving_parts. }
  destruct (algorithm =? "look")%string.
  { unfold look_plan. cbv zeta. apply stands_after_prologue.
    destruct (direction =? "right")%string; moving_parts. }
  destruct (algorithm =? "c-look")%string; [| exact I].
  unfold clook_plan. cbv zeta. apply stands_after_prologue.
  destruct (direction =? "right")%string; [moving_parts |].
  apply Forall_app. split; [apply moves_serve |].
  destruct (rev _); constructor; [exact I | apply moves_serve].
Qed.

Lemma path_cost_reaches (h x : Z) (l : list Z) :
  In x l -> Z.abs (x - h) <= path_cost h l.
Proof.
  revert h. induction l as [| a l IH]; intros h Hx; [destruct Hx |].
  cbn [path_cost]. destruct Hx as [-> | Hx].
  - pose proof (path_cost_nonneg x l). lia.
  - specialize (IH a Hx). lia.
Qed.

End Visits.

(** Every request is walked to, whatever its value, and counts as served
    when the run is over. *)
Lemma request_is_walked (algorithm : string) (requests : list Z)
    (startHead : Z) (direction : string) (w : Window) (x : Z) :
  known_algorithm algorithm = true -> In x requests ->
  (exists t, In t (run algorithm requests startHead direction w)
             /\ Step.head t = x) /\
  In x (Step.served (last (run algorithm requests startHead direction w)
                          (Step.mk 0 0 [] []))).
Proof.
  intros Hk Hx.
  assert (Hs : In x (served (walked_state algorithm requests startHead
                                          direction w))).
  { unfold walked_state. apply served_exec. right.
    now apply plan_of_serves. }
  split.
  - assert (Hv : visited (walked_state algorithm requests startHead
                                       direction w)).
    { unfold walked_state. apply (visited_exec (DISK_MAX w)).
      - reflexivity.
      - intros y [].
      - apply plan_of_stands. }
    destruct (Hv x Hs) as (t & Ht & Hh).
    exists t. split; [| exact Hh].
    rewrite run_as_plan. unfold closed. apply in_app_iff. now left.
  - destruct (final_step_shows_served requests startHead algorithm direction
                w) as [-> _].
    exact Hs.
Qed.

(** X5: in the run of each of the six algorithms every request is the head
    of some step; on inputs within the safe integers the final [seek] is
    therefore at least the distance from the start position to any request,
    and itself a safe integer. *)
Theorem head_visits_every_request (algorithm : string) (requests : list Z)
    (startHead : Z) (direction : string) (w : Window) :
  known_algorithm algorithm = true ->
  safe_inputs requests startHead w ->
  forall x, In x requests ->
    (exists t, In t (run algorithm requests startHead direction w)
               /\ Step.head t = x) /\
    Z.abs (x - startHead)
    <= finalSeek (run algorithm requests startHead direction w)
    <= MAX_SAFE_INTEGER.
Proof.
  intros Hk Hsafe x Hx.
  destruct (request_is_walked algorithm requests startHead direction w x
              Hk Hx) as [Hvisit _].
  split; [exact Hvisit |].
  split;
    [| exact (proj2 (run_seeks_safe algorithm requests startHead direction
                       w Hsafe))].
  assert (HD : 0 <= DISK_MAX w)
    by (destruct Hsafe as (_ & Hst & _); unfold in_range in Hst; lia).
  destruct Hvisit as (t & Ht & Hh).
  rewrite (run_total_is_path algorithm requests startHead direction w HD).
  destruct (run_shape algorithm requests startHead direction w)
    as [body Hshape].
  rewrite Hshape in Ht |- *. cbn [app tl] in *.
  destruct Ht as [<- | Ht].
  - simpl in Hh. subst x. rewrite Z.sub_diag. simpl.
    apply path_cost_nonneg.
  - apply path_cost_reaches. rewrite <- Hh. now apply in_map.
Qed.

Lemma head_visits_every_request_witness :
  (exists t, In t (run "look" [98; 183; 37] 53 "left" (page 199))
             /\ Step.head t = 183) /\
  Z.abs (183 - 53)
  <= finalSeek (run "look" [98; 183; 37] 53 "left" (page 199))
  <= MAX_SAFE_INTEGER.
Proof.
  apply (head_visits_every_request "look" [98; 183; 37] 53 "left" (page 199)).
  - reflexivity.
  - unfold safe_inputs, in_range. simpl.
    split; [repeat constructor; lia | split; [lia |]].
    vm_compute. discriminate.
  - simpl. tauto.
Defined.

(** * SSTF takes the first of the nearest requests *)

Section FirstNearest.

Lemma has_of_list (l : list Z) (x : Z) :
  JSSet.has (JSSet.of_list l) x = includes l x.
Proof.
  apply eq_true_iff_eq.
  rewrite JSSetFacts.has_In, JSSetFacts.In_of_list.
  unfold includes. rewrite existsb_exists. split.
  - intros H. exists x. split; [exact H | apply Z.eqb_refl].
  - intros (y & Hy & Heq). apply Z.eqb_eq in Heq. now subst.
Qed.

(** The selection is unique. *)
Lemma first_nearest_unique (requests served : list Z) (h r r' : Z) :
  first_nearest requests served h r -> first_nearest requests served h r' ->
  r = r'.
Proof.
  intros (Hr & Hs & Hmin & pre & post & Hreq & Hpre & Htie)
         (Hr' & Hs' & Hmin' & pre' & post' & Hreq' & Hpre' & Htie').
  pose proof (Hmin r' Hr' Hs') as H1.
  pose proof (Hmin' r Hr Hs) as H2.
  rewrite Hreq' in Hreq.
  apply app_eq_app in Hreq. destruct Hreq as (l & [[Hl Hm] | [Hl Hm]]).
  - destruct l as [| a l]; simpl in Hm.
    + now injection Hm.
    + injection Hm as <- _.
      assert (Hin : In r pre').
      { rewrite Hl. apply in_app_iff. right. now left. }
      specialize (Htie' r Hin Hs). lia.
  - destruct l as [| a l]; simpl in Hm.
    + now injection Hm.
    + injection Hm as <- _.
      assert (Hin : In r' pre).
      { rewrite Hl. apply in_app_iff. right. now left. }
      specialize (Htie r' Hin Hs'). lia.
Qed.

Lemma first_nearest_order_unique (requests served : list Z) (h : Z)
    (order order' : list Z) :
  first_nearest_order requests served h order ->
  first_nearest_order requests served h order' ->
  order = order'.
Proof.
  intros Ho. revert order'.
  induction Ho as [served h Hall | served h r rest Hr _ IH];
    intros order' Ho'.
  - inversion Ho' as [| ? ? r' ? (Hin & Hs & _) _]; subst; [reflexivity |].
    elim Hs. now apply Hall.
  - inversion Ho' as [? ? Hall | ? ? r' rest' Hr' Hrest']; subst.
    + destruct Hr as (Hin & Hs & _). elim Hs. now apply Hall.
    + pose proof (first_nearest_unique _ _ _ _ _ Hr Hr') as <-.
      f_equal. now apply IH.
Qed.

Variable requests : list Z.

(** The loop selects as the specification says. *)
Lemma sstf_order_selects (fuel : nat) (remaining : JSSet.t) (h : Z)
    (done : list Z) :
  NoDup remaining -> (JSSet.size remaining <= fuel)%nat ->
  pending requests remaining ->
  (forall x, In x remaining <-> In x requests /\ ~ In x done) ->
  first_nearest_order requests done h (sstf_order fuel remaining h).
Proof.
  revert remaining h done.
  induction fuel as [| fuel IH]; intros remaining h done Hnd Hsize Hp Hrem.
  - destruct remaining as [| a l]; [| simpl in Hsize; lia].
    apply nothing_left. intros x Hx.
    destruct (in_dec Z.eq_dec x done) as [Hd | Hd]; [exact Hd |].
    destruct (proj2 (Hrem x) (conj Hx Hd)).
  - destruct remaining as [| a l] eqn:E.
    { apply nothing_left. intros x Hx.
      destruct (in_dec Z.eq_dec x done) as [Hd | Hd]; [exact Hd |].
      destruct (proj2 (Hrem x) (conj Hx Hd)). }
    rewrite <- E in *.
    assert (Hne : remaining <> []) by (rewrite E; discriminate).
    destruct (sstf_turn requests remaining h Hp Hne)
      as (r & pre & post & Hin & Hmin & Hreq & Hpre & Htie & Hn & _).
    assert (Ho : sstf_order (S fuel) remaining h
                 = r :: sstf_order fuel (JSSet.delete remaining r) r).
    { rewrite E. cbn [sstf_order]. rewrite <- E, Hn. reflexivity. }
    rewrite Ho. apply select.
    + destruct (proj1 (Hrem r) Hin) as [Hrq Hrd].
      unfold first_nearest. splits; [exact Hrq | exact Hrd | |].
      * intros x Hx Hd. apply Hmin. apply Hrem. now split.
      * exists pre, post. splits; [exact Hreq | exact Hpre |].
        intros x Hx Hd.
        assert (Hxr : In x remaining).
        { apply Hrem. split; [| exact Hd].
          rewrite Hreq. apply in_app_iff. now left. }
        pose proof (Hmin x Hxr) as Hle.
        destruct (Z.eq_dec (Z.abs (x - h)) (Z.abs (r - h))) as [Heq | Hneq];
          [| lia].
        elim (Htie x Hxr Heq Hx).
    + apply IH.
      * now apply JSSetFacts.NoDup_delete.
      * pose proof (JSSetFacts.size_delete remaining r Hnd Hin). lia.
      * now apply pending_delete.
      * intros x. rewrite JSSetFacts.In_delete, Hrem, in_app_iff.
        simpl. split.
        -- intros [[Hx Hd] Hxr]. split; [exact Hx |].
           intros [Hd' | [Hd' | []]]; [now apply Hd | congruence].
        -- intros [Hx Hd]. split; [split; [exact Hx |] |].
           ++ intros Hd'. apply Hd. now left.
           ++ intros ->. apply Hd. right. now left.
Qed.

Lemma exec_serve_shown (l : list Z) (st : walk) :
  map Step.head (history (win (exec (map Serve l) st)))
  = map Step.head (history (win st)) ++ l
  /\ servedOrder (exec (map Serve l) st) = servedOrder st ++ l.
Proof.
  revert st. induction l as [| x l IH]; intros st.
  - simpl. now rewrite !app_nil_r.
  - cbn [map exec fold_left]. fold (exec (map Serve l) (act (Serve x) st)).
    destruct (IH (act (Serve x) st)) as [-> ->].
    cbn [act serve move_to mark_served record_step addHistoryStep
         set_history win history servedOrder currentHead].
    rewrite map_app, <- !app_assoc. split; reflexivity.
Qed.

Variables (startHead : Z) (direction : string) (w : Window).

Let remaining : JSSet.t :=
  if JSSet.has (JSSet.of_list requests) startHead
  then JSSet.delete (JSSet.of_list requests) startHead
  else JSSet.of_list requests.

Let order : list Z := sstf_order (JSSet.size remaining) remaining startHead.

Lemma sstf_plan_order :
  sstf_plan requests startHead
  = map ServeHere (served_on_the_spot requests startHead) ++ map Serve order.
Proof.
  unfold sstf_plan, served_on_the_spot, order, remaining. cbv zeta.
  rewrite has_of_list.
  destruct (includes requests startHead); reflexivity.
Qed.

Lemma sstf_order_is_first_nearest :
  first_nearest_order requests (served_on_the_spot requests startHead)
                      startHead order.
Proof.
  pose proof (JSSetFacts.NoDup_of_list requests) as Hnd.
  unfold order.
  apply sstf_order_selects; unfold remaining, served_on_the_spot;
    rewrite has_of_list; destruct (includes requests startHead) eqn:E.
  - now apply JSSetFacts.NoDup_delete.
  - exact Hnd.
  - lia.
  - lia.
  - apply pending_delete, pending_all.
  - apply pending_all.
  - intros x. rewrite JSSetFacts.In_delete, JSSetFacts.In_of_list.
    simpl. intuition congruence.
  - intros x. rewrite JSSetFacts.In_of_list. simpl. tauto.
Qed.

Lemma sstf_walked :
  map Step.head
      (history (win (walked_state "sstf" requests startHead direction w)))
  = startHead :: served_on_the_spot requests startHead ++ order
  /\ servedOrder (walked_state "sstf" requests startHead direction w)
     = served_on_the_spot requests startHead ++ order.
Proof.
  unfold walked_state, plan_of. decide_tokens.
  rewrite sstf_plan_order, exec_app.
  set (st0 := start_walk startHead
                (opening_window "sstf" requests startHead w)).
  destruct (exec_serve_shown order
              (exec (map ServeHere (served_on_the_spot requests startHead))
                    st0)) as [-> ->].
  unfold served_on_the_spot.
  destruct (includes requests startHead); split; reflexivity.
Qed.

Lemma sstf_run_heads :
  map Step.head (run "sstf" requests startHead direction w)
  = startHead :: served_on_the_spot requests startHead ++ order
    ++ [last order startHead]
  /\ Step.servedOrder (last (run "sstf" requests startHead direction w)
                            (Step.mk 0 0 [] []))
     = served_on_the_spot requests startHead ++ order.
Proof.
  destruct (final_step_shows_served requests startHead "sstf" direction w)
    as [_ Hso].
  cbv zeta in Hso. rewrite Hso. clear Hso.
  destruct sstf_walked as [Hh Ho]. split; [| exact Ho].
  rewrite run_as_plan. unfold closed.
  set (H := history (win (walked_state "sstf" requests startHead
                                       direction w))) in *.
  assert (Hne : H <> []).
  { intros Hnil. rewrite Hnil in Hh. discriminate Hh. }
  destruct (exists_last Hne) as (H' & z & Hz). rewrite Hz in *.
  rewrite last_last, !map_app. cbn [map]. rewrite map_app in Hh.
  cbn [map] in Hh. rewrite Hh.
  assert (Hz' : Step.head z
                = last (startHead :: served_on_the_spot requests startHead
                        ++ order) startHead).
  { rewrite <- Hh. now rewrite last_last. }
  rewrite Hz'. change (startHead :: ?l ++ ?r) with ((startHead :: l) ++ r).
  rewrite <- !app_assoc. cbn [app]. do 2 f_equal.
  unfold served_on_the_spot.
  destruct (includes requests startHead); cbn [app].
  - rewrite (last_cons startHead (startHead :: order) startHead).
    now rewrite (last_cons startHead order startHead).
  - now rewrite (last_cons startHead order startHead).
Qed.

Lemma sstf_totals :
  finalSeek (run "sstf" requests startHead direction w)
  = path_cost startHead order
  /\ getAlgorithmStats "sstf" requests startHead direction w
     = path_cost startHead order.
Proof.
  rewrite <- sstf_totals_agree.
  assert (Hf : finalSeek (run "sstf" requests startHead direction w)
               = path_cost startHead order).
  { rewrite sstf_generated_total, sstf_plan_order.
    unfold served_on_the_spot.
    destruct (includes requests startHead);
      cbn [map app plan_cost cost position].
    - now rewrite plan_cost_serve.
    - apply plan_cost_serve. }
  split; exact Hf.
Qed.

End FirstNearest.

(** C10: on inputs within the safe integers, SSTF serves the requests in
    one order only, the one the tie-break of the specification gives: at
    every turn the request still to be served that is nearest to the head
    and, of the nearest ones, the one whose first occurrence comes first in
    the input list (a request for the start position itself being served on
    the spot).  The heads of the run of [calculateSstfPath] are the start
    position followed by the requests in that order, its last step lists
    them in that order, and both its final [seek] and the total of
    [getAlgorithmStats] are the length of the path through them. *)
Theorem sstf_takes_first_nearest (requests : list Z) (startHead : Z)
    (direction : string) (w : Window) :
  safe_inputs requests startHead w ->
  exists order,
    first_nearest_order requests (served_on_the_spot requests startHead)
                        startHead order /\
    (forall order',
       first_nearest_order requests (served_on_the_spot requests startHead)
                           startHead order' ->
       order' = order) /\
    map Step.head (run "sstf" requests startHead direction w)
    = startHead :: served_on_the_spot requests startHead ++ order
      ++ [last order startHead] /\
    Step.servedOrder (last (run "sstf" requests startHead direction w)
                           (Step.mk 0 0 [] []))
    = served_on_the_spot requests startHead ++ order /\
    finalSeek (run "sstf" requests startHead direction w)
    = path_cost startHead order /\
    getAlgorithmStats "sstf" requests startHead direction w
    = path_cost startHead order.
Proof.
  intros _. eexists. splits.
  - apply sstf_order_is_first_nearest.
  - intros order' Ho'.
    exact (first_nearest_order_unique _ _ _ _ _ Ho'
             (sstf_order_is_first_nearest requests startHead)).
  - apply (sstf_run_heads requests startHead direction w).
  - apply (sstf_run_heads requests startHead direction w).
  - apply (sstf_totals requests startHead direction w).
  - apply (sstf_totals requests startHead direction w).
Qed.

Lemma sstf_takes_first_nearest_witness :
  exists order,
    first_nearest_order [60; 40; 60; 75]
                        (served_on_the_spot [60; 40; 60; 75] 50) 50 order /\
    (forall order',
       first_nearest_order [60; 40; 60; 75]
                           (served_on_the_spot [60; 40; 60; 75] 50) 50 order' ->
       order' = order) /\
    map Step.head (run "sstf" [60; 40; 60; 75] 50 "left" (page 199))
    = 50 :: served_on_the_spot [60; 40; 60; 75] 50 ++ order
      ++ [last order 50] /\
    Step.servedOrder (last (run "sstf" [60; 40; 60; 75] 50 "left" (page 199))
                           (Step.mk 0 0 [] []))
    = served_on_the_spot [60; 40; 60; 75] 50 ++ order /\
    finalSeek (run "sstf" [60; 40; 60; 75] 50 "left" (page 199))
    = path_cost 50 order /\
    getAlgorithmStats "sstf" [60; 40; 60; 75] 50 "left" (page 199)
    = path_cost 50 order.
Proof.
  apply (sstf_takes_first_nearest [60; 40; 60; 75] 50 "left" (page 199)).
  unfold safe_inputs, in_range. simpl.
  split; [repeat constructor; lia | split; [lia |]].
  vm_compute. discriminate.
Defined.

(** * The engine does not validate *)

(** C9, as stated, fails: an unknown algorithm token with an empty request
    list is answered with the two-step run and with the total 0, and an
    out-of-range request is walked to. *)
Lemma malformed_input_is_answered :
  run "fifo" [] 53 "up" (page 199) = idle_run 53 /\
  getAlgorithmStats "fifo" [] 53 "up" (page 199) = 0 /\
  run "fcfs" [] 53 "left" (page 199) = idle_run 53 /\
  getAlgorithmStats "fcfs" [] 53 "left" (page 199) = 0 /\
  map Step.head (run "fcfs" [500] 53 "left" (page 199)) = [53; 500; 500] /\
  getAlgorithmStats "fcfs" [500] 53 "left" (page 199) = 447.
Proof. repeat split; vm_compute; reflexivity. Qed.

(** C9, amended: the engine checks nothing and always answers.  An
    algorithm token outside the six yields the start step with its duplicate
    and the total 0; so does an empty request list under fcfs, sstf, look and
    c-look; a direction token other than [right] is handled as [left]; and a
    request is walked like any other whatever its value: with nothing
    assumed of the requests, of the start position or of DISK_MAX, each
    request is the head of a step of the run and is served when the run is
    over, so that a request outside [0, DISK_MAX] takes the head there. *)
Theorem engine_does_not_validate algorithm requests startHead direction w :
  (known_algorithm algorithm = false ->
   run algorithm requests startHead direction w = idle_run startHead /\
   getAlgorithmStats algorithm requests startHead direction w = 0) /\
  (In algorithm ["fcfs"; "sstf"; "look"; "c-look"]%string ->
   run algorithm [] startHead direction w = idle_run startHead /\
   getAlgorithmStats algorithm [] startHead direction w = 0) /\
  ((direction =? "right")%string = false ->
   run algorithm requests startHead direction w
     = run algorithm requests startHead "left" w /\
   getAlgorithmStats algorithm requests startHead direction w
     = getAlgorithmStats algorithm requests startHead "left" w) /\
  (known_algorithm algorithm = true ->
   forall x, In x requests ->
     (exists t, In t (run algorithm requests startHead direction w)
                /\ Step.head t = x
                /\ (~ in_range (DISK_MAX w) x ->
                    ~ in_range (DISK_MAX w) (Step.head t))) /\
     In x (Step.served (last (run algorithm requests startHead direction w)
                             (Step.mk 0 0 [] [])))).
Proof.
  split; [apply unknown_algorithm_run |].
  split; [apply no_request_run |].
  split; [apply other_direction_is_left |].
  intros Hk x Hx.
  destruct (request_is_walked algorithm requests startHead direction w x
              Hk Hx) as [(t & Ht & Hh) Hs].
  split; [| exact Hs].
  exists t. splits; [exact Ht | exact Hh | now rewrite Hh].
Qed.

Lemma engine_does_not_validate_witness :
  (run "fifo" [7] 53 "up" (page 199) = idle_run 53 /\
   getAlgorithmStats "fifo" [7] 53 "up" (page 199) = 0) /\
  (run "look" [] 53 "up" (page 199) = idle_run 53 /\
   getAlgorithmStats "look" [] 53 "up" (page 199) = 0) /\
  (run "look" [7] 53 "up" (page 199) = run "look" [7] 53 "left" (page 199) /\
   getAlgorithmStats "look" [7] 53 "up" (page 199)
     = getAlgorithmStats "look" [7] 53 "left" (page 199)) /\
  ((exists t, In t (run "scan" [500; 7] 53 "up" (page 199))
              /\ Step.head t = 500
              /\ (~ in_range (DISK_MAX (page 199)) 500 ->
                  ~ in_range (DISK_MAX (page 199)) (Step.head t))) /\
   In 500 (Step.served (last (run "scan" [500; 7] 53 "up" (page 199))
                             (Step.mk 0 0 [] [])))).
Proof.
  split; [| split; [| split]].
  - apply (engine_does_not_validate "fifo" [7] 53 "up" (page 199)).
    reflexivity.
  - apply (engine_does_not_validate "look" [7] 53 "up" (page 199)).
    simpl. auto.
  - apply (engine_does_not_validate "look" [7] 53 "up" (page 199)).
    reflexivity.
  - apply (engine_does_not_validate "scan" [500; 7] 53 "up" (page 199)).
    + reflexivity.
    + simpl. auto.
Defined.

(** * The circular algorithms start like their plain counterparts *)

Section SharedPhase.

Variables (requests : list Z) (startHead : Z) (direction : string)
          (w : Window).

Let st0 := start_walk startHead (opening_window "scan" requests startHead w).

Lemma run_after_phase (algorithm : string) (p q : list action) :
  (algorithm =? "fcfs")%string = false ->
  plan_of algorithm requests startHead direction = p ++ q ->
  exists rest,
    run algorithm requests startHead direction w
    = history (win (exec p st0)) ++ rest.
Proof.
  intros Hf Hp. rewrite run_as_plan. unfold walked_state. rewrite Hp.
  assert (Hw : opening_window algorithm requests startHead w
               = opening_window "scan" requests startHead w).
  { unfold opening_window. now rewrite Hf. }
  rewrite Hw. fold st0. rewrite exec_app.
  destruct (exec_extends q (exec p st0)) as [l Hl]. rewrite Hl.
  unfold closed. rewrite <- app_assoc. eexists. reflexivity.
Qed.

Lemma near_side_recorded :
  Forall recorded (near_side requests startHead direction).
Proof.
  unfold near_side. apply Forall_app. split; [apply recorded_prologue |].
  destruct (direction =? "right")%string; apply recorded_serve.
Qed.

Lemma near_side_serves (x : Z) :
  In x (flat_map serves (near_side requests startHead direction))
  <-> In x requests /\ on_near_side startHead direction x.
Proof.
  unfold near_side, on_near_side.
  rewrite flat_map_app, in_app_iff, prologue_serves.
  destruct (direction =? "right")%string; rewrite serves_map_Serve.
  - rewrite In_others, (In_R requests startHead).
    destruct (Z.eq_dec x startHead) as [-> | Hne]; intuition (try lia).
  - rewrite <- in_rev, (In_L requests startHead).
    destruct (Z.eq_dec x startHead) as [-> | Hne]; intuition (try lia).
Qed.

Lemma last_of_synced (st : walk) :
  synced st -> last (history (win st)) (Step.mk 0 0 [] []) = snapshot st.
Proof. intros [h Hh]. rewrite Hh. apply last_last. Qed.

Lemma st0_synced : synced st0.
Proof. exists []. reflexivity. Qed.

Lemma near_side_state (x : Z) :
  let s := last (history
                   (win (exec (near_side requests startHead direction) st0)))
                (Step.mk 0 0 [] []) in
  In x (Step.served s)
  <-> In x requests /\ on_near_side startHead direction x.
Proof.
  cbv zeta. rewrite last_of_synced.
  - simpl. rewrite served_exec, near_side_serves. simpl. tauto.
  - apply synced_exec; [apply near_side_recorded | apply st0_synced].
Qed.

Lemma first_sweep_state (x : Z) :
  let s := last (history
                   (win (exec (first_sweep requests startHead direction) st0)))
                (Step.mk 0 0 [] []) in
  Step.head s = (if (direction =? "right")%string then DISK_MAX w else 0) /\
  (In x (Step.served s)
   <-> In x requests /\ on_near_side startHead direction x).
Proof.
  cbv zeta. rewrite last_of_synced.
  - split.
    + simpl.
      destruct (exec_totals (DISK_MAX w)
                  (first_sweep requests startHead direction) st0 eq_refl)
        as (_ & -> & _).
      unfold first_sweep. rewrite plan_end_app.
      now destruct (direction =? "right")%string.
    + simpl. rewrite served_exec. unfold first_sweep.
      rewrite flat_map_app, in_app_iff, near_side_serves.
      destruct (direction =? "right")%string; simpl; tauto.
  - apply synced_exec; [| apply st0_synced].
    unfold first_sweep. apply Forall_app.
    split; [apply near_side_recorded |].
    destruct (direction =? "right")%string; repeat constructor.
Qed.

Lemma scan_after_first_sweep :
  exists q,
    scan_plan requests startHead direction
    = first_sweep requests startHead direction ++ q.
Proof.
  unfold scan_plan, first_sweep, near_side. cbv zeta.
  destruct (direction =? "right")%string;
    eexists; rewrite <- !app_assoc; reflexivity.
Qed.

Lemma cscan_after_first_sweep :
  exists q,
    cscan_plan requests startHead direction
    = first_sweep requests startHead direction ++ q.
Proof.
  unfold cscan_plan, first_sweep, near_side. cbv zeta.
  destruct (direction =? "right")%string;
    eexists; rewrite <- !app_assoc; cbn [app]; reflexivity.
Qed.

Lemma look_after_near_side :
  exists q,
    look_plan requests startHead direction
    = near_side requests startHead direction ++ q.
Proof.
  unfold look_plan, near_side. cbv zeta.
  destruct (direction =? "right")%string;
    eexists; rewrite <- !app_assoc; reflexivity.
Qed.

Lemma clook_after_near_side :
  exists q,
    clook_plan requests startHead direction
    = near_side requests startHead direction ++ q.
Proof.
  unfold clook_plan, near_side. cbv zeta.
  destruct (direction =? "right")%string;
    eexists; rewrite <- !app_assoc; reflexivity.
Qed.

End SharedPhase.

(** X9: the runs of SCAN and C-SCAN begin with the same steps: these serve the
    requests at or above the start position (direction [right]; at or below
    it otherwise) and nothing else, and end with the head at DISK_MAX
    (at 0 otherwise).  The two runs differ only after that. *)
Theorem scan_and_cscan_share_the_first_sweep (requests : list Z)
    (startHead : Z) (direction : string) (w : Window) :
  exists phase rest rest',
    run "scan" requests startHead direction w = phase ++ rest /\
    run "c-scan" requests startHead direction w = phase ++ rest' /\
    Step.head (last phase (Step.mk 0 0 [] []))
      = (if (direction =? "right")%string then DISK_MAX w else 0) /\
    forall x,
      In x (Step.served (last phase (Step.mk 0 0 [] [])))
      <-> In x requests /\ on_near_side startHead direction x.
Proof.
  destruct (scan_after_first_sweep requests startHead direction) as [q Hq].
  destruct (cscan_after_first_sweep requests startHead direction) as [q' Hq'].
  destruct (run_after_phase requests startHead direction w "scan" _ q
              eq_refl Hq) as [rest Hr].
  destruct (run_after_phase requests startHead direction w "c-scan" _ q'
              eq_refl Hq') as [rest' Hr'].
  eexists. exists rest, rest'.
  split; [exact Hr |]. split; [exact Hr' |].
  split; [apply (first_sweep_state requests startHead direction w 0) |].
  intros x. apply (first_sweep_state requests startHead direction w x).
Qed.

(** X10: the runs of LOOK and C-LOOK begin with the same steps, which serve the
    requests at or above the start position (direction [right]; at or below
    it otherwise) and nothing else. *)
Theorem look_and_clook_share_the_near_side (requests : list Z)
    (startHead : Z) (direction : string) (w : Window) :
  exists phase rest rest',
    run "look" requests startHead direction w = phase ++ rest /\
    run "c-look" requests startHead direction w = phase ++ rest' /\
    forall x,
      In x (Step.served (last phase (Step.mk 0 0 [] [])))
      <-> In x requests /\ on_near_side startHead direction x.
Proof.
  destruct (look_after_near_side requests startHead direction) as [q Hq].
  destruct (clook_after_near_side requests startHead direction) as [q' Hq'].
  destruct (run_after_phase requests startHead direction w "look" _ q
              eq_refl Hq) as [rest Hr].
  destruct (run_after_phase requests startHead direction w "c-look" _ q'
              eq_refl Hq') as [rest' Hr'].
  eexists. exists rest, rest'.
  split; [exact Hr |]. split; [exact Hr' |].
  intros x. apply (near_side_state requests startHead direction w x).
Qed.

(** * What [parseInputs] lets through *)

Section ParseInputs.

Variables (f : Form) (w : Window).

Let D := DISK_MAX w.

Lemma acceptable_in_range (n : parsed) :
  acceptable D n = true <-> exists z, n = Some z /\ in_range D z.
Proof.
  unfold acceptable, in_range. destruct n as [z |].
  - rewrite andb_true_iff, Z.geb_le, Z.leb_le. split.
    + intros H. exists z. split; [reflexivity | lia].
    + intros (z' & Hz & H). injection Hz as <-. lia.
  - split; [discriminate | intros (z & Hz & _); discriminate].
Qed.

Lemma In_validRequests (x : Z) :
  In x (validRequests D (requestFields f))
  <-> In (Some x) (requestFields f) /\ in_range D x.
Proof.
  unfold validRequests. rewrite in_flat_map. split.
  - intros (n & Hn & Hx). apply filter_In in Hn. destruct Hn as [Hin Hacc].
    destruct n as [z |]; [| destruct Hx].
    destruct Hx as [<- | []]. split; [exact Hin |].
    apply acceptable_in_range in Hacc.
    destruct Hacc as (z' & Hz & Hr). now injection Hz as <-.
  - intros [Hin Hr]. exists (Some x). split; [| now left].
    apply filter_In. split; [exact Hin |].
    apply acceptable_in_range. now exists x.
Qed.

Lemma validRequests_in_range :
  Forall (in_range D) (validRequests D (requestFields f)).
Proof. apply Forall_forall. intros x Hx. now apply In_validRequests in Hx. Qed.

(** What an accepted form holds, and what it is turned into. *)
Lemma parseInputs_accepted (inputs : Inputs.t) :
  parseInputs f w = Accepted inputs ->
  exists s a l,
    headField f = Some s /\ in_range D s /\
    validRequests D (requestFields f) = a :: l /\
    inputs = Inputs.mk (if (algorithmValue f =? "fcfs")%string
                        then a :: l
                        else sort_asc (JSSet.of_list (a :: l)))
                       s (directionValue f).
Proof.
  unfold parseInputs. cbv zeta. fold D.
  destruct (headField f) as [s |]; [| discriminate].
  destruct (Z.ltb_spec s 0) as [Hlt | Hlo]; [discriminate |].
  destruct (Z.gtb_spec s D) as [Hgt | Hhi]; [discriminate |].
  cbn [orb].
  destruct (validRequests D (requestFields f)) as [| a l] eqn:E;
    [discriminate |].
  cbn [length Nat.eqb]. intros H. exists s, a, l.
  splits; [reflexivity | split; lia | reflexivity |].
  destruct (algorithmValue f =? "fcfs")%string; now injection H as <-.
Qed.

Lemma In_accepted (inputs : Inputs.t) (x : Z) :
  parseInputs f w = Accepted inputs ->
  In x (Inputs.requests inputs) <-> In x (validRequests D (requestFields f)).
Proof.
  intros H. destruct (parseInputs_accepted inputs H)
    as (s & a & l & _ & _ & E & ->).
  rewrite E. cbn [Inputs.requests].
  destruct (algorithmValue f =? "fcfs")%string; [reflexivity |].
  now rewrite In_sort_asc, JSSetFacts.In_of_list.
Qed.

Lemma accepted_in_range (inputs : Inputs.t) :
  parseInputs f w = Accepted inputs ->
  Inputs.requests inputs <> [] /\
  Forall (in_range D) (Inputs.requests inputs) /\
  in_range D (Inputs.startHead inputs).
Proof.
  intros H. pose proof (In_accepted inputs) as Hin.
  destruct (parseInputs_accepted inputs H)
    as (s & a & l & _ & Hs & E & Hi).
  splits.
  - intros Hnil. assert (Ha : In a (Inputs.requests inputs)).
    { apply (Hin a H). rewrite E. now left. }
    rewrite Hnil in Ha. destruct Ha.
  - apply Forall_forall. intros x Hx. apply (Hin x H) in Hx.
    now apply In_validRequests in Hx.
  - now rewrite Hi.
Qed.

End ParseInputs.

(** X11: inputs that [parseInputs] accepts are what the engine assumes: at least
    one request, every request and the start position within
    [0, DISK_MAX].  The requests are the valid fields as typed for FCFS, and
    for every other algorithm the same numbers in ascending order without
    repeats. *)
Theorem accepted_inputs_are_well_formed (f : Form) (w : Window)
    (inputs : Inputs.t) :
  parseInputs f w = Accepted inputs ->
  Inputs.requests inputs <> [] /\
  Forall (in_range (DISK_MAX w)) (Inputs.requests inputs) /\
  in_range (DISK_MAX w) (Inputs.startHead inputs) /\
  headField f = Some (Inputs.startHead inputs) /\
  Inputs.direction inputs = directionValue f /\
  (forall x, In x (Inputs.requests inputs)
             <-> In (Some x) (requestFields f) /\ in_range (DISK_MAX w) x) /\
  ((algorithmValue f =? "fcfs")%string = true ->
   Inputs.requests inputs = validRequests (DISK_MAX w) (requestFields f)) /\
  ((algorithmValue f =? "fcfs")%string = false ->
   StronglySorted Z.le (Inputs.requests inputs)
   /\ NoDup (Inputs.requests inputs)).
Proof.
  intros H.
  destruct (accepted_in_range f w inputs H) as (Hne & Hr & Hs).
  pose proof (fun x => In_accepted f w inputs x H) as Hin.
  destruct (parseInputs_accepted f w inputs H)
    as (s & a & l & Hh & _ & E & Hi).
  splits; [exact Hne | exact Hr | exact Hs | now rewrite Hi | now rewrite Hi
          | | |].
  - intros x. rewrite Hin. apply In_validRequests.
  - intros Hf. rewrite Hi, Hf, E. reflexivity.
  - intros Hf. rewrite Hi, Hf. cbn [Inputs.requests]. split;
      [apply sort_asc_sorted
      | apply sort_asc_NoDup, JSSetFacts.NoDup_of_list].
Qed.

Lemma accepted_inputs_are_well_formed_witness :
  let f := mkForm "look" [Some 98; None; Some 250; Some 37; Some 98]
                  (Some 53) "left" in
  let inputs := Inputs.mk [37; 98] 53 "left" in
  Inputs.requests inputs <> [] /\
  Forall (in_range 199) (Inputs.requests inputs) /\
  in_range 199 (Inputs.startHead inputs) /\
  headField f = Some (Inputs.startHead inputs) /\
  Inputs.direction inputs = directionValue f /\
  (forall x, In x (Inputs.requests inputs)
             <-> In (Some x) (requestFields f) /\ in_range 199 x) /\
  ((algorithmValue f =? "fcfs")%string = true ->
   Inputs.requests inputs = validRequests 199 (requestFields f)) /\
  ((algorithmValue f =? "fcfs")%string = false ->
   StronglySorted Z.le (Inputs.requests inputs)
   /\ NoDup (Inputs.requests inputs)).
Proof.
  apply (accepted_inputs_are_well_formed
           (mkForm "look" [Some 98; None; Some 250; Some 37; Some 98]
                   (Some 53) "left")
           (page 199) (Inputs.mk [37; 98] 53 "left")).
  reflexivity.
Defined.

(** X12: [parseInputs] accepts exactly when the start field is a number within
    [0, DISK_MAX] and at least one request field is. *)
Theorem inputs_are_accepted_iff (f : Form) (w : Window) :
  (exists inputs, parseInputs f w = Accepted inputs)
  <-> (exists s, headField f = Some s /\ in_range (DISK_MAX w) s) /\
      (exists x, In (Some x) (requestFields f) /\ in_range (DISK_MAX w) x).
Proof.
  split.
  - intros [inputs H].
    destruct (parseInputs_accepted f w inputs H)
      as (s & a & l & Hh & Hs & E & _).
    split; [eauto |].
    exists a. apply In_validRequests. rewrite E. now left.
  - intros [(s & Hs & Hr) (x & Hx & Hxr)].
    unfold parseInputs. cbv zeta. rewrite Hs. unfold in_range in Hr.
    destruct (Z.ltb_spec s 0) as [Hlt | Hlo]; [lia |].
    destruct (Z.gtb_spec s (DISK_MAX w)) as [Hgt | Hhi]; [lia |]. cbn [orb].
    assert (Hv : In x (validRequests (DISK_MAX w) (requestFields f)))
      by now apply In_validRequests.
    destruct (validRequests (DISK_MAX w) (requestFields f)) as [| a l];
      [destruct Hv |].
    cbn [length Nat.eqb].
    destruct (algorithmValue f =? "fcfs")%string; eauto.
Qed.

(** * The globals a simulation leaves *)

Section Globals.

Lemma act_globals (a : action) (st : walk) :
  win (act a st) = set_history (history (win (act a st))) (win st).
Proof.
  assert (Hid : forall w, w = set_history (history w) w)
    by (intros []; reflexivity).
  destruct a; simpl;
    repeat match goal with
           | |- context [if ?b then _ else _] => destruct b
           end;
    simpl; try reflexivity; apply Hid.
Qed.

Lemma exec_globals (plan : list action) (st : walk) :
  win (exec plan st) = set_history (history (win (exec plan st))) (win st).
Proof.
  revert st. induction plan as [| a p IH]; intros st.
  - simpl. destruct (win st); reflexivity.
  - cbn [exec fold_left]. fold (exec p (act a st)).
    rewrite IH at 1. rewrite (act_globals a st). reflexivity.
Qed.

Variables (algorithm : string) (requests : list Z) (startHead : Z)
          (direction : string) (w : Window).

(** [calculateSimulationHistory] resets the frame index, keeps DISK_MAX,
    stores the request set and leaves the run in the history. *)
Lemma simulation_globals :
  calculateSimulationHistory algorithm requests startHead direction w
  = mkWindow (DISK_MAX w) (run algorithm requests startHead direction w) 0
             (originalRequestSet
                (opening_window algorithm requests startHead w)).
Proof.
  destruct (walked_history_starts algorithm requests startHead direction w)
    as [body Hb].
  unfold run, calculateSimulationHistory. cbv zeta.
  fold (opening_window algorithm requests startHead w).
  assert (Hw : (if (algorithm =? "fcfs")%string
                then calculateFcfsPath requests startHead
                       (opening_window algorithm requests startHead w)
                else if (algorithm =? "sstf")%string
                then calculateSstfPath requests startHead
                       (opening_window algorithm requests startHead w)
                else if (algorithm =? "scan")%string
                then calculateScanPath requests startHead direction
                       (opening_window algorithm requests startHead w)
                else if (algorithm =? "c-scan")%string
                then calculateCScanPath requests startHead direction
                       (opening_window algorithm requests startHead w)
                else if (algorithm =? "look")%string
                then calculateLookPath requests startHead direction
                       (opening_window algorithm requests startHead w)
                else if (algorithm =? "c-look")%string
                then calculateCLookPath requests startHead direction
                       (opening_window algorithm requests startHead w)
                else opening_window algorithm requests startHead w)
               = win (walked_state algorithm requests startHead direction w)).
  { unfold walked_state, plan_of.
    destruct (algorithm =? "fcfs")%string eqn:E.
    - apply fcfs_is_plan. intros x Hx. unfold opening_window.
      cbn [originalRequestSet addHistoryStep set_history]. rewrite E.
      apply JSSetFacts.has_In. now apply JSSetFacts.In_of_list.
    - destruct (algorithm =? "sstf")%string; [apply sstf_is_plan |].
      destruct (algorithm =? "scan")%string; [apply scan_is_plan |].
      destruct (algorithm =? "c-scan")%string; [apply cscan_is_plan |].
      destruct (algorithm =? "look")%string; [apply look_is_plan |].
      destruct (algorithm =? "c-look")%string; [apply clook_is_plan |].
      reflexivity. }
  rewrite Hw.
  assert (Hg := exec_globals
                  (plan_of algorithm requests startHead direction)
                  (start_walk startHead
                     (opening_window algorithm requests startHead w))).
  fold (walked_state algorithm requests startHead direction w) in Hg.
  set (ws := win (walked_state algorithm requests startHead direction w))
    in *.
  rewrite Hb in *. cbn [length Nat.ltb Nat.leb].
  rewrite Hg. reflexivity.
Qed.

Lemma run_has_two_steps :
  (2 <= length (run algorithm requests startHead direction w))%nat.
Proof.
  destruct (run_shape algorithm requests startHead direction w) as [body ->].
  rewrite length_app. simpl. lia.
Qed.

End Globals.

(** * The pages the events lead to *)

Section Pages.

Variable diskMax : Z.

Lemma window_eta (w : Window) :
  mkWindow (DISK_MAX w) (history w) (currentStateIndex w)
           (originalRequestSet w) = w.
Proof. destruct w; reflexivity. Qed.

(** The page reads DISK_MAX alone of the globals it starts from. *)
Lemma parseInputs_disk (f : Form) (w : Window) :
  parseInputs f w = parseInputs f (page (DISK_MAX w)).
Proof. reflexivity. Qed.

Lemma run_disk (algorithm : string) (requests : list Z) (startHead : Z)
    (direction : string) (w : Window) :
  run algorithm requests startHead direction w
  = run algorithm requests startHead direction (page (DISK_MAX w)).
Proof. reflexivity. Qed.

Lemma opening_disk (algorithm : string) (requests : list Z) (startHead : Z)
    (w : Window) :
  opening_window algorithm requests startHead w
  = opening_window algorithm requests startHead (page (DISK_MAX w)).
Proof. reflexivity. Qed.

Lemma sound_fresh (f : Form) (m : Z) :
  sound diskMax (mkPage (mkWindow diskMax [] 0 JSSet.empty) false f None m).
Proof.
  unfold sound, well_framed, shows_a_run, frames, frame. simpl.
  splits; auto. discriminate.
Qed.

(** Changes that leave the globals, the form, the scrubber and a stopped
    player alone keep a page sound. *)
Lemma sound_same (p q : Page) :
  globals q = globals p -> form q = form p ->
  scrubberMax q = scrubberMax p ->
  (isPlaying q = true -> isPlaying p = true) ->
  sound diskMax p -> sound diskMax q.
Proof.
  unfold sound, well_framed, shows_a_run, frames, frame.
  intros -> -> -> Hplay (Hw & HD & Hr & Hp). splits; auto.
Qed.

(** Without a history the form may change. *)
Lemma sound_form (p q : Page) :
  globals q = globals p -> scrubberMax q = scrubberMax p ->
  (isPlaying q = true -> isPlaying p = true) ->
  frames p <= 1 ->
  sound diskMax p -> sound diskMax q.
Proof.
  unfold sound, well_framed, shows_a_run, frames, frame.
  intros -> -> Hplay Hnew (Hw & HD & Hr & Hp). splits; auto.
  left. destruct (history (globals p)); [reflexivity |].
  cbn [length] in *. lia.
Qed.

Lemma sound_index (i : Z) (p : Page) :
  sound diskMax p ->
  (frames p = 0 /\ i = 0) \/ (2 <= frames p /\ 0 <= i <= frames p - 1) ->
  sound diskMax (with_index i p).
Proof.
  unfold sound, well_framed, shows_a_run, frames, frame, with_index,
    with_globals.
  cbn [globals history currentStateIndex DISK_MAX originalRequestSet
       scrubberMax isPlaying form].
  intros (Hw & HD & Hr & Hp) Hi. splits; auto.
  destruct Hw as [Hw | Hw]; destruct Hi as [Hi | Hi]; lia.
Qed.

Lemma sound_playing (p : Page) :
  sound diskMax p -> 2 <= frames p -> sound diskMax (with_playing true p).
Proof.
  unfold sound, well_framed, shows_a_run, frames, frame, with_playing.
  cbn [globals scrubberMax isPlaying form].
  intros (Hw & HD & Hr & Hp) H2. splits; auto.
Qed.

Lemma sound_reset (p : Page) :
  sound diskMax p -> sound diskMax (handleReset p).
Proof.
  intros (_ & HD & _).
  unfold handleReset, sound, well_framed, shows_a_run, frames, frame.
  simpl. splits; auto. discriminate.
Qed.

Lemma frames_of_run (p : Page) (algorithm : string) (requests : list Z)
    (startHead : Z) (direction : string) (w : Window) :
  history (globals p) = run algorithm requests startHead direction w ->
  2 <= frames p.
Proof.
  intros H. unfold frames. rewrite H.
  pose proof (run_has_two_steps algorithm requests startHead direction w).
  lia.
Qed.

Lemma firstRun_sound (p : Page) :
  sound diskMax p ->
  sound diskMax (fst (firstRun p))
  /\ (snd (firstRun p) = true -> 2 <= frames (fst (firstRun p))).
Proof.
  intros Hs. unfold firstRun.
  destruct (Z.leb_spec (frames p) 1) as [Hle | Hgt].
  - destruct (parseInputs (form p) (globals p)) as [message | inputs] eqn:E;
      cbn [fst snd].
    + split; [| discriminate].
      apply (sound_same p); auto.
    + destruct Hs as (Hw & HD & Hr & Hp).
      assert (H2 : 2 <= frames
                     (with_globals
                        (calculateSimulationHistory (algorithmValue (form p))
                           (Inputs.requests inputs) (Inputs.startHead inputs)
                           (Inputs.direction inputs) (globals p)) p)).
      { apply (frames_of_run _ (algorithmValue (form p))
                 (Inputs.requests inputs) (Inputs.startHead inputs)
                 (Inputs.direction inputs) (globals p)).
        reflexivity. }
      split; [| intros _; exact H2].
      revert H2.
      unfold sound, well_framed, shows_a_run, frames, frame,
        with_scrubberMax, with_globals.
      cbn [globals scrubberMax isPlaying form].
      rewrite simulation_globals.
      cbn [history currentStateIndex DISK_MAX originalRequestSet].
      intros H2. splits; auto.
      * right. lia.
      * right. exists inputs.
        rewrite parseInputs_disk, HD in E.
        rewrite run_disk, opening_disk, HD. auto.
  - cbn [fst snd]. split; [exact Hs | lia].
Qed.

Lemma animateLoop_sound (p : Page) :
  sound diskMax p -> sound diskMax (animateLoop p).
Proof.
  intros Hs. unfold animateLoop.
  destruct (isPlaying p) eqn:Ep; cbn [negb]; [| exact Hs].
  destruct (Z.ltb_spec (frame p) (frames p - 1)) as [Hlt | Hge].
  - apply sound_index; [exact Hs |].
    destruct Hs as (Hw & _ & _ & Hp). specialize (Hp Ep).
    destruct Hw as [Hw | Hw]; [lia |]. right. lia.
  - apply (sound_same p); auto; discriminate.
Qed.

Lemma handle_sound (p : Page) (e : event) :
  sound diskMax p -> possible p e -> sound diskMax (handle e p).
Proof.
  intros Hs Hposs. destruct e; cbn [handle].
  - (* Start *)
    unfold handleStart. destruct (isPlaying p) eqn:Ep; [exact Hs |].
    assert (Hc : sound diskMax (clearError p))
      by (apply (sound_same p); auto).
    destruct (firstRun_sound _ Hc) as [Hf H2].
    destruct (firstRun (clearError p)) as [q go_on]. cbn [fst snd] in *.
    destruct go_on; cbn [negb]; [| exact Hf].
    specialize (H2 eq_refl).
    apply animateLoop_sound.
    destruct (Z.geb_spec (frame q) (frames q - 1)) as [Hge | Hlt].
    + apply sound_playing.
      * apply sound_index; [exact Hf | right; lia].
      * exact H2.
    + now apply sound_playing.
  - (* Pause *)
    unfold handlePause. destruct (isPlaying p); cbn [negb]; [| exact Hs].
    apply (sound_same p); auto; discriminate.
  - (* Reset *)
    now apply sound_reset.
  - (* StepForward *)
    unfold handleStepForward. destruct (isPlaying p) eqn:Ep; [exact Hs |].
    assert (Hc : sound diskMax (clearError p))
      by (apply (sound_same p); auto).
    destruct (firstRun_sound _ Hc) as [Hf H2].
    destruct (firstRun (clearError p)) as [q go_on]. cbn [fst snd] in *.
    destruct go_on; cbn [negb]; [| exact Hf].
    specialize (H2 eq_refl).
    destruct (Z.ltb_spec (frame q) (frames q - 1)) as [Hlt | Hge];
      [| exact Hf].
    apply sound_index; [exact Hf |].
    destruct Hf as (Hw & _). destruct Hw as [Hw | Hw]; [lia |]. right. lia.
  - (* StepBackward *)
    unfold handleStepBackward.
    destruct (isPlaying p || (frame p =? 0)) eqn:E; [exact Hs |].
    destruct (Z.gtb_spec (frame p) 0) as [Hgt | Hle]; [| exact Hs].
    apply sound_index; [exact Hs |].
    destruct Hs as (Hw & _). destruct Hw as [Hw | Hw]; [lia |]. right. lia.
  - (* Scrub *)
    destruct Hposs as [Hen Hv].
    unfold updateButtonStates in Hen. cbn [scrubberDisabled] in Hen.
    apply negb_false_iff in Hen.
    destruct (Z.gtb_spec (frames p) 1) as [Hgt | Hle]; [| discriminate].
    unfold handleScrubberInput.
    assert (Hq : sound diskMax (if isPlaying p then handlePause p else p)
                 /\ frames (if isPlaying p then handlePause p else p)
                    = frames p).
    { unfold handlePause. destruct (isPlaying p); cbn [negb].
      - split; [| reflexivity]. apply (sound_same p); auto; discriminate.
      - split; [exact Hs | reflexivity]. }
    destruct Hq as [Hq Hfr].
    apply sound_index; [exact Hq |]. rewrite Hfr.
    destruct Hs as (Hw & _). destruct Hw as [Hw | Hw]; [lia |]. right. lia.
  - (* Tick *)
    now apply animateLoop_sound.
  - (* Edit *)
    cbn [possible] in Hposs. unfold updateButtonStates in Hposs.
    cbn [inputsDisabled] in Hposs.
    apply orb_false_elim in Hposs. destruct Hposs as [_ Hh].
    apply (sound_form p); auto.
    destruct (Z.gtb_spec (frames p) 1); [discriminate | lia].
  - (* Generate *)
    unfold handleRandomInputs. destruct (isPlaying p); [exact Hs |].
    pose proof (sound_reset p Hs) as Hr. cbv zeta.
    assert (Hany : forall q,
               globals q = globals (handleReset p) ->
               scrubberMax q = scrubberMax (handleReset p) ->
               isPlaying q = isPlaying (handleReset p) ->
               sound diskMax q).
    { intros q Hg Hm Hp. apply (sound_form (handleReset p)); auto.
      - intros Hq. now rewrite <- Hp.
      - unfold frames. simpl. lia. }
    destruct count as [c |]; [| now apply Hany].
    destruct ((c <? 5) || (c >? 50)); [now apply Hany |].
    destruct (fill randoms c JSSet.empty) as [[requests [| h rest]] |];
      now apply Hany.
  - (* ExportTXT *)
    unfold handleExportTXT. cbv zeta.
    destruct (frames p <=? 1); cbn [fst].
    + apply (sound_same p); auto.
    + destruct (parseInputs (form p) (globals p)); exact Hs.
  - (* CompareAll *)
    unfold handleCompareAll. cbv zeta.
    change (form (clearError p)) with (form p).
    change (globals (clearError p)) with (globals p).
    destruct (parseInputs (form p) (globals p)); cbn [fst];
      apply (sound_same p); auto.
Qed.

Lemma reachable_sound (p : Page) : reachable diskMax p -> sound diskMax p.
Proof.
  induction 1 as [f m | p e _ IH Hposs].
  - apply sound_fresh.
  - now apply handle_sound.
Qed.

End Pages.

(** * Stepping and playing *)

Section Stepping.

Lemma with_index_same (p : Page) : with_index (frame p) p = p.
Proof. destruct p as [[] ? ? ? ?]; reflexivity. Qed.

Lemma step_forward_inside (p : Page) :
  isPlaying p = false -> frame p < frames p - 1 -> 0 <= frame p ->
  handleStepForward p = with_index (frame p + 1) (clearError p).
Proof.
  intros Hp Hlt H0. unfold handleStepForward, firstRun. rewrite Hp.
  change (frames (clearError p)) with (frames p).
  change (frame (clearError p)) with (frame p).
  destruct (Z.leb_spec (frames p) 1); [lia |]. cbn [negb].
  change (frames (clearError p)) with (frames p).
  change (frame (clearError p)) with (frame p).
  destruct (Z.ltb_spec (frame p) (frames p - 1)); [reflexivity | lia].
Qed.

Lemma step_backward_inside (p : Page) :
  isPlaying p = false -> 0 < frame p ->
  handleStepBackward p = with_index (frame p - 1) p.
Proof.
  intros Hp H0. unfold handleStepBackward. rewrite Hp. cbn [orb].
  destruct (Z.eqb_spec (frame p) 0); [lia |].
  destruct (Z.gtb_spec (frame p) 0); [reflexivity | lia].
Qed.

End Stepping.

(** X19: on a stopped page the events lead to, Step Forward and Step Backward
    undo one another wherever the frame can move: the page comes back as it
    was, the error box cleared. *)
Theorem steps_undo_one_another (diskMax : Z) (p : Page) :
  reachable diskMax p -> isPlaying p = false ->
  (frame p < frames p - 1 ->
   handleStepBackward (handleStepForward p) = clearError p) /\
  (0 < frame p ->
   handleStepForward (handleStepBackward p) = clearError p).
Proof.
  intros Hr Hp.
  destruct (reachable_sound diskMax p Hr) as (Hw & _).
  assert (Hf : frames p = 0 /\ frame p = 0
               \/ 0 <= frame p <= frames p - 1)
    by (destruct Hw as [Hw | Hw]; [left | right]; lia).
  clear Hw Hr. split; intros H.
  - rewrite step_forward_inside by (auto; lia).
    rewrite step_backward_inside.
    + change (frame (with_index (frame p + 1) (clearError p)))
        with (frame p + 1).
      replace (frame p + 1 - 1) with (frame p) by lia.
      apply (with_index_same (clearError p)).
    + exact Hp.
    + change (frame (with_index (frame p + 1) (clearError p)))
        with (frame p + 1). lia.
  - rewrite step_backward_inside by auto.
    rewrite step_forward_inside.
    + change (frame (with_index (frame p - 1) p)) with (frame p - 1).
      replace (frame p - 1 + 1) with (frame p) by lia.
      apply (with_index_same (clearError p)).
    + exact Hp.
    + change (frame (with_index (frame p - 1) p)) with (frame p - 1).
      change (frames (with_index (frame p - 1) p)) with (frames p). lia.
    + change (frame (with_index (frame p - 1) p)) with (frame p - 1). lia.
Qed.

Lemma steps_undo_one_another_witness :
  let p := handle StepForward
             (handle StepForward
                (mkPage (mkWindow 199 [] 0 JSSet.empty) false
                        (mkForm "look" [Some 98; Some 183; None; Some 37]
                                (Some 53) "left")
                        None 0)) in
  (frame p < frames p - 1 ->
   handleStepBackward (handleStepForward p) = clearError p) /\
  (0 < frame p ->
   handleStepForward (handleStepBackward p) = clearError p).
Proof.
  apply (steps_undo_one_another 199).
  - apply reachable_step; [| exact I].
    apply reachable_step; [apply reachable_fresh | exact I].
  - reflexivity.
Defined.

(** * Compare All *)

Section CompareTable.

Lemma insert_row_perm (x : Result.t) (l : list Result.t) :
  Permutation (insert_row x l) (x :: l).
Proof.
  induction l as [| y l IH]; cbn [insert_row]; [reflexivity |].
  destruct (Result.seek x <=? Result.seek y); [reflexivity |].
  rewrite IH. apply perm_swap.
Qed.

Lemma sort_rows_perm (l : list Result.t) : Permutation (sort_rows l) l.
Proof.
  induction l as [| x l IH]; cbn [sort_rows]; [reflexivity |].
  rewrite insert_row_perm. now constructor.
Qed.

Lemma insert_row_sorted (x : Result.t) (l : list Result.t) :
  StronglySorted cheaper l -> StronglySorted cheaper (insert_row x l).
Proof.
  induction 1 as [| y l Hs IH Hy]; cbn [insert_row].
  - constructor; constructor.
  - destruct (Z.leb_spec (Result.seek x) (Result.seek y)) as [Hle | Hgt].
    + constructor; [now constructor |].
      constructor; [exact Hle |].
      apply Forall_forall. intros z Hz. rewrite Forall_forall in Hy.
      specialize (Hy z Hz). unfold cheaper in *. lia.
    + constructor; [exact IH |].
      apply (Permutation_Forall (Permutation_sym (insert_row_perm x l))).
      constructor; [unfold cheaper; lia | exact Hy].
Qed.

Lemma sort_rows_sorted (l : list Result.t) :
  StronglySorted cheaper (sort_rows l).
Proof.
  induction l as [| x l IH]; cbn [sort_rows]; [constructor |].
  now apply insert_row_sorted.
Qed.

(** Rows of the same total keep their order. *)
Lemma insert_row_stable (v : Z) (x : Result.t) (l : list Result.t) :
  rows_with v (insert_row x l) = rows_with v (x :: l).
Proof.
  unfold rows_with.
  induction l as [| y l IH]; cbn [insert_row]; [reflexivity |].
  destruct (Z.leb_spec (Result.seek x) (Result.seek y)) as [Hle | Hgt];
    [reflexivity |].
  cbn [filter] in *. rewrite IH.
  destruct (Z.eqb_spec (Result.seek x) v), (Z.eqb_spec (Result.seek y) v);
    try reflexivity.
  lia.
Qed.

Lemma sort_rows_stable (v : Z) (l : list Result.t) :
  rows_with v (sort_rows l) = rows_with v l.
Proof.
  induction l as [| x l IH]; cbn [sort_rows]; [reflexivity |].
  rewrite insert_row_stable. unfold rows_with in *. cbn [filter].
  now rewrite IH.
Qed.

(** The four sweeps: the run ends with the total of [getAlgorithmStats]
    when the head starts to the right or on no request. *)
Lemma sweep_totals_agree (algorithm : string) (requests : list Z)
    (startHead : Z) (direction : string) (w : Window) :
  In algorithm ["scan"; "c-scan"; "look"; "c-look"]%string ->
  0 < DISK_MAX w ->
  Forall (in_range (DISK_MAX w)) requests ->
  in_range (DISK_MAX w) startHead ->
  (direction =? "right")%string = true \/ ~ In startHead requests ->
  finalSeek (run algorithm requests startHead direction w)
  = getAlgorithmStats algorithm requests startHead direction w.
Proof.
  intros Ha Hpos Hreq Hstart Hc. simpl in Ha.
  destruct Ha as [<- | [<- | [<- | [<- | []]]]].
  - rewrite scan_generated_total. now apply scan_totals_agree.
  - rewrite cscan_generated_total. now apply cscan_totals_agree.
  - rewrite look_generated_total. now apply look_totals_agree.
  - rewrite clook_generated_total by assumption.
    now apply clook_totals_agree.
Qed.

Lemma sweep_stats_of_members (algorithm : string)
    (requests requests' : list Z) (startHead : Z) (direction : string)
    (w : Window) :
  In algorithm ["scan"; "c-scan"; "look"; "c-look"]%string ->
  (forall x, In x requests <-> In x requests') ->
  getAlgorithmStats algorithm requests startHead direction w
  = getAlgorithmStats algorithm requests' startHead direction w.
Proof.
  intros Ha Hsame.
  pose proof (sortedRequests_of_members _ _ Hsame) as Hs.
  simpl in Ha.
  destruct Ha as [<- | [<- | [<- | [<- | []]]]];
    unfold getAlgorithmStats; decide_tokens; cbv zeta;
    fold (sortedRequests requests); fold (sortedRequests requests');
    rewrite Hs; reflexivity.
Qed.

End CompareTable.

(** X23: with inputs that [parseInputs] accepts, Compare All shows one row for
    each of the six algorithms, in ascending order of their totals, rows of
    equal totals in the order FCFS, SSTF, SCAN, C-SCAN, LOOK, C-LOOK; the
    first row, the one marked best, costs no more than any algorithm. *)
Theorem compare_table_is_ranked (p : Page) (inputs : Inputs.t) :
  parseInputs (form p) (globals p) = Accepted inputs ->
  exists best rest,
    handleCompareAll p = (clearError p, Some (best :: rest)) /\
    Permutation (best :: rest)
                (compareResults (form p) inputs (globals p)) /\
    Permutation (map Result.name (best :: rest))
                ["FCFS"; "SSTF"; "SCAN"; "C-SCAN"; "LOOK"; "C-LOOK"]%string /\
    StronglySorted cheaper (best :: rest) /\
    (forall v, rows_with v (best :: rest)
               = rows_with v (compareResults (form p) inputs (globals p))) /\
    (forall algo, In algo algos ->
       Result.seek best
       <= getAlgorithmStats algo
            (validRequests (DISK_MAX (globals p)) (requestFields (form p)))
            (Inputs.startHead inputs) (Inputs.direction inputs) (globals p)).
Proof.
  intros Hok.
  set (table := compareResults (form p) inputs (globals p)).
  pose proof (sort_rows_perm table) as Hperm.
  pose proof (sort_rows_sorted table) as Hsorted.
  pose proof (fun v => sort_rows_stable v table) as Hstable.
  assert (Hrows : handleCompareAll p = (clearError p, Some (sort_rows table))).
  { unfold handleCompareAll. cbv zeta.
    change (form (clearError p)) with (form p).
    change (globals (clearError p)) with (globals p).
    now rewrite Hok. }
  destruct (sort_rows table) as [| best rest] eqn:E.
  { apply Permutation_length in Hperm. discriminate Hperm. }
  exists best, rest. splits; auto.
  - apply (Permutation_map Result.name) in Hperm. exact Hperm.
  - intros algo Halgo.
    assert (Hin : In (Result.mk (toUpperCase algo)
                        (getAlgorithmStats algo
                           (validRequests (DISK_MAX (globals p))
                                          (requestFields (form p)))
                           (Inputs.startHead inputs)
                           (Inputs.direction inputs) (globals p)))
                     (best :: rest)).
    { apply (Permutation_in _ (Permutation_sym Hperm)).
      subst table. unfold compareResults.
      apply (in_map (fun a => Result.mk (toUpperCase a)
                                (getAlgorithmStats a _ _ _ (globals p)))
                    algos algo).
      exact Halgo. }
    destruct Hin as [-> | Hin]; [simpl; lia |].
    inversion Hsorted as [| ? ? _ Hall]; subst.
    rewrite Forall_forall in Hall. exact (Hall _ Hin).
Qed.

Lemma compare_table_is_ranked_witness :
  let p := mkPage (mkWindow 199 [] 0 JSSet.empty) false
                  (mkForm "scan" [Some 98; Some 183; None; Some 37; Some 98]
                          (Some 53) "left")
                  None 0 in
  let inputs := Inputs.mk [37; 98; 183] 53 "left" in
  exists best rest,
    handleCompareAll p = (clearError p, Some (best :: rest)) /\
    Permutation (best :: rest)
                (compareResults (form p) inputs (globals p)) /\
    Permutation (map Result.name (best :: rest))
                ["FCFS"; "SSTF"; "SCAN"; "C-SCAN"; "LOOK"; "C-LOOK"]%string /\
    StronglySorted cheaper (best :: rest) /\
    (forall v, rows_with v (best :: rest)
               = rows_with v (compareResults (form p) inputs (globals p))) /\
    (forall algo, In algo algos ->
       Result.seek best
       <= getAlgorithmStats algo
            (validRequests (DISK_MAX (globals p)) (requestFields (form p)))
            (Inputs.startHead inputs) (Inputs.direction inputs) (globals p)).
Proof.
  apply (compare_table_is_ranked
           (mkPage (mkWindow 199 [] 0 JSSet.empty) false
                   (mkForm "scan" [Some 98; Some 183; None; Some 37; Some 98]
                           (Some 53) "left")
                   None 0)
           (Inputs.mk [37; 98; 183] 53 "left")).
  reflexivity.
Defined.

(** X24: the row Compare All shows for the selected algorithm holds the total
    the animation of the same form ends with, for FCFS and, when the head
    starts to the right or on no request, for the four sweeps: the table is
    computed from the fields as typed, the animation from what
    [parseInputs] makes of them. *)
Theorem compare_row_matches_the_animation (f : Form) (w : Window)
    (inputs : Inputs.t) :
  0 < DISK_MAX w ->
  parseInputs f w = Accepted inputs ->
  In (algorithmValue f) ["fcfs"; "scan"; "c-scan"; "look"; "c-look"]%string ->
  (Inputs.direction inputs =? "right")%string = true \/
  (algorithmValue f =? "fcfs")%string = true \/
  ~ In (Inputs.startHead inputs) (Inputs.requests inputs) ->
  In (Result.mk (toUpperCase (algorithmValue f))
        (finalSeek (run (algorithmValue f) (Inputs.requests inputs)
                        (Inputs.startHead inputs) (Inputs.direction inputs)
                        w)))
     (sort_rows (compareResults f inputs w)).
Proof.
  intros Hpos Hok Halgo Hc.
  apply (Permutation_in _ (Permutation_sym (sort_rows_perm _))).
  unfold compareResults.
  assert (Heq : finalSeek
                  (run (algorithmValue f) (Inputs.requests inputs)
                       (Inputs.startHead inputs) (Inputs.direction inputs) w)
                = getAlgorithmStats (algorithmValue f)
                    (validRequests (DISK_MAX w) (requestFields f))
                    (Inputs.startHead inputs) (Inputs.direction inputs) w).
  { destruct (accepted_in_range f w inputs Hok) as (_ & Hreq & Hst).
    pose proof (fun x => In_accepted f w inputs x Hok) as Hmem.
    destruct (parseInputs_accepted f w inputs Hok)
      as (s & a & l & _ & _ & E & Hi).
    destruct Halgo as [Hf | Hsweep].
    - rewrite <- Hf in *. rewrite Hi, E. cbn [Inputs.requests].
      apply fcfs_totals_agree.
    - assert (Hnf : (algorithmValue f =? "fcfs")%string = false).
      { simpl in Hsweep.
        destruct Hsweep as [<- | [<- | [<- | [<- | []]]]]; reflexivity. }
      rewrite (sweep_stats_of_members (algorithmValue f)
                 (validRequests (DISK_MAX w) (requestFields f))
                 (Inputs.requests inputs) _ _ _ Hsweep)
        by (intros x; symmetry; apply Hmem).
      apply sweep_totals_agree; auto.
      destruct Hc as [Hc | [Hc | Hc]]; auto. congruence. }
  rewrite Heq.
  apply (in_map (fun a => Result.mk (toUpperCase a)
                            (getAlgorithmStats a _ _ _ w))
                algos (algorithmValue f)).
  simpl in Halgo. unfold algos. simpl. tauto.
Qed.

Lemma compare_row_matches_the_animation_witness :
  In (Result.mk "C-LOOK"
        (finalSeek (run "c-look" [37; 98; 183] 53 "right" (page 199))))
     (sort_rows
        (compareResults
           (mkForm "c-look" [Some 98; Some 183; None; Some 37; Some 98]
                   (Some 53) "right")
           (Inputs.mk [37; 98; 183] 53 "right") (page 199))).
Proof.
  apply (compare_row_matches_the_animation
           (mkForm "c-look" [Some 98; Some 183; None; Some 37; Some 98]
                   (Some 53) "right")
           (page 199) (Inputs.mk [37; 98; 183] 53 "right")).
  - reflexivity.
  - reflexivity.
  - simpl. tauto.
  - left. reflexivity.
Defined.

(** * A history is computed once *)

(** X15: while a page has a history, no event but Reset and Generate touches
    it: the steps, the request set and DISK_MAX stay as they are whatever
    else is clicked, moved or typed, and Start or Step Forward do not read
    the form again. *)
Theorem a_history_is_kept_until_reset (p : Page) (e : event) :
  1 < frames p -> clears e = false ->
  history (globals (handle e p)) = history (globals p) /\
  originalRequestSet (globals (handle e p)) = originalRequestSet (globals p) /\
  DISK_MAX (globals (handle e p)) = DISK_MAX (globals p).
Proof.
  intros Hf He.
  assert (Hloop : forall q, history (globals (animateLoop q))
                            = history (globals q)
                            /\ originalRequestSet (globals (animateLoop q))
                               = originalRequestSet (globals q)
                            /\ DISK_MAX (globals (animateLoop q))
                               = DISK_MAX (globals q)).
  { intros q. unfold animateLoop.
    destruct (isPlaying q); cbn [negb]; [| auto].
    destruct (frame q <? frames q - 1); auto. }
  destruct e; cbn [handle]; try discriminate.
  - unfold handleStart, firstRun. destruct (isPlaying p); [auto |].
    change (frames (clearError p)) with (frames p).
    destruct (Z.leb_spec (frames p) 1); [lia |]. cbn [negb].
    destruct (frame (clearError p) >=? frames (clearError p) - 1);
      match goal with
      | |- context [animateLoop ?q] => destruct (Hloop q) as (-> & -> & ->)
      end; auto.
  - unfold handlePause. destruct (isPlaying p); cbn [negb]; auto.
  - unfold handleStepForward, firstRun. destruct (isPlaying p); [auto |].
    change (frames (clearError p)) with (frames p).
    destruct (Z.leb_spec (frames p) 1); [lia |]. cbn [negb].
    destruct (frame (clearError p) <? frames (clearError p) - 1); auto.
  - unfold handleStepBackward.
    destruct (isPlaying p || (frame p =? 0)); [auto |].
    destruct (frame p >? 0); auto.
  - unfold handleScrubberInput, handlePause.
    destruct (isPlaying p); cbn [negb]; auto.
  - apply Hloop.
  - auto.
  - unfold handleExportTXT. cbv zeta.
    destruct (frames p <=? 1); [auto |].
    destruct (parseInputs (form p) (globals p)); auto.
  - unfold handleCompareAll. cbv zeta.
    destruct (parseInputs (form (clearError p)) (globals (clearError p)));
      auto.
Qed.

Lemma a_history_is_kept_until_reset_witness :
  let p := handle StepForward
             (mkPage (mkWindow 199 [] 0 JSSet.empty) false
                     (mkForm "look" [Some 98; Some 183; None; Some 37]
                             (Some 53) "left")
                     None 0) in
  let e := Edit (mkForm "fcfs" [Some 1] (Some 2) "right") in
  history (globals (handle e p)) = history (globals p) /\
  originalRequestSet (globals (handle e p)) = originalRequestSet (globals p)
  /\ DISK_MAX (globals (handle e p)) = DISK_MAX (globals p).
Proof.
  intros p e. apply (a_history_is_kept_until_reset p e).
  - vm_compute. reflexivity.
  - reflexivity.
Defined.

(** * The exported trace *)

Section Trace.

Let undefined := Step.mk 0 0 [] [].

Lemma total_app (l1 l2 : list Z) : total (l1 ++ l2) = total l1 + total l2.
Proof.
  unfold total. induction l1 as [| a l1 IH]; cbn [app fold_right]; lia.
Qed.

Lemma firstn_snoc (A : Type) (l : list A) (i : nat) (d : A) :
  (i < length l)%nat -> firstn (S i) l = firstn i l ++ [nth i l d].
Proof.
  revert i. induction l as [| a l IH]; intros i Hi; [simpl in Hi; lia |].
  destruct i as [| i]; [reflexivity |].
  cbn [firstn nth app]. f_equal. apply IH. simpl in Hi. lia.
Qed.

Lemma metered_nth (h : list Step.t) (i : nat) :
  metered h -> (S i < length h)%nat ->
  step_exact (nth i h undefined) (nth (S i) h undefined).
Proof.
  revert i. induction h as [| a h IH]; intros i Hm Hi; [simpl in Hi; lia |].
  destruct h as [| b h]; [simpl in Hi; lia |].
  destruct Hm as [Hab Hm].
  destruct i as [| i]; [exact Hab |].
  apply (IH i Hm). simpl in Hi |- *. lia.
Qed.

Lemma length_traceRows (h : list Step.t) :
  length (traceRows h) = length h.
Proof. unfold traceRows. cbv zeta. now rewrite length_map, length_seq. Qed.

Lemma nth_traceRows (h : list Step.t) (i : nat) (d : TraceRow.t) :
  (i < length h)%nat ->
  nth i (traceRows h) d
  = TraceRow.mk i (Step.head (nth i h undefined))
      (if (i =? 0)%nat then 0
       else Z.abs (Step.head (nth i h undefined)
                   - Step.head (nth (i - 1) h undefined)))
      (Step.seek (nth i h undefined))
      (sort_asc (Step.served (nth i h undefined))).
Proof.
  intros Hi. unfold traceRows. cbv zeta.
  set (row := fun i : nat => TraceRow.mk i _ _ _ _).
  rewrite (nth_indep _ d (row 0%nat))
    by now rewrite length_map, length_seq.
  rewrite map_nth, seq_nth by exact Hi. subst row. cbv beta.
  cbn [Nat.add]. destruct (Nat.eqb_spec i 0); reflexivity.
Qed.

(** The running sum of the Seek column is the Total Seek column. *)
Lemma trace_running_total (h : list Step.t) (d : TraceRow.t) :
  metered h -> Step.seek (nth 0 h undefined) = 0 ->
  forall i, (i < length h)%nat ->
    TraceRow.totalSeek (nth i (traceRows h) d)
    = total (map TraceRow.seek (firstn (S i) (traceRows h))).
Proof.
  intros Hm H0 i. induction i as [| i IH]; intros Hi.
  - rewrite (firstn_snoc _ _ 0 d) by (rewrite length_traceRows; lia).
    rewrite nth_traceRows by exact Hi.
    cbn [firstn app map TraceRow.totalSeek TraceRow.seek Nat.eqb total
         fold_right].
    rewrite H0. reflexivity.
  - rewrite (firstn_snoc _ _ (S i) d) by (rewrite length_traceRows; lia).
    rewrite map_app, total_app, <- IH by lia.
    rewrite !nth_traceRows by lia.
    cbn [map TraceRow.totalSeek TraceRow.seek Nat.eqb total fold_right
         Nat.sub].
    rewrite Nat.sub_0_r.
    pose proof (metered_nth h i Hm Hi) as He. unfold step_exact in He.
    rewrite He. lia.
Qed.

Lemma traceRows_columns (h : list Step.t) :
  map TraceRow.moveTo (traceRows h) = fullPath h
  /\ map TraceRow.step (traceRows h) = seq 0 (length h)
  /\ map TraceRow.totalSeek (traceRows h) = map Step.seek h.
Proof.
  assert (Hnth : forall (A : Type) (f : Step.t -> A),
             map (fun i => f (nth i h undefined)) (seq 0 (length h))
             = map f h).
  { intros A f. rewrite <- (map_map (fun i => nth i h undefined) f).
    f_equal. clear f.
    induction h as [| a t IH]; [reflexivity |].
    cbn [length seq map nth]. f_equal.
    rewrite <- seq_shift, map_map. exact IH. }
  unfold traceRows, fullPath. cbv zeta. rewrite !map_map.
  cbn [TraceRow.moveTo TraceRow.step TraceRow.totalSeek].
  splits.
  - apply (Hnth Z Step.head).
  - apply map_id.
  - apply (Hnth Z Step.seek).
Qed.

(** The Seek column adds up to the [seek] of the last step. *)
Lemma trace_total (h : list Step.t) :
  metered h -> Step.seek (nth 0 h undefined) = 0 -> h <> [] ->
  total (map TraceRow.seek (traceRows h)) = finalSeek h.
Proof.
  intros Hm H0 Hne.
  assert (Hlen : (0 < length h)%nat)
    by (destruct h; [congruence | simpl; lia]).
  set (d := TraceRow.mk 0 0 0 0 []).
  pose proof (trace_running_total h d Hm H0 (length h - 1)%nat) as Hrun.
  replace (S (length h - 1)) with (length (traceRows h)) in Hrun
    by (rewrite length_traceRows; lia).
  rewrite firstn_all in Hrun. rewrite <- Hrun by lia.
  rewrite nth_traceRows by lia. cbn [TraceRow.totalSeek].
  unfold finalSeek. f_equal.
  destruct (exists_last Hne) as (h' & z & Hz).
  rewrite Hz, last_last, length_app. cbn [length].
  replace (length h' + 1 - 1)%nat with (length h') by lia.
  now rewrite nth_middle.
Qed.

End Trace.

(** X25: in the trace that Export TXT writes for a run on inputs within
    the safe integers, the rows are numbered from 0, Move To lists the full
    path, the Total Seek of every row is the sum of the Seek column down to
    that row, and the whole Seek column adds up to the total seek time of
    the results, a safe integer. *)
Theorem trace_seek_column_adds_up (algorithm : string) (requests : list Z)
    (startHead : Z) (direction : string) (w : Window) :
  safe_inputs requests startHead w ->
  let r := run algorithm requests startHead direction w in
  let rows := traceRows r in
  map TraceRow.step rows = seq 0 (length r) /\
  map TraceRow.moveTo rows = fullPath r /\
  (forall i d, (i < length rows)%nat ->
     TraceRow.totalSeek (nth i rows d)
     = total (map TraceRow.seek (firstn (S i) rows))) /\
  total (map TraceRow.seek rows) = finalSeek r /\
  finalSeek r <= MAX_SAFE_INTEGER.
Proof.
  intros Hsafe. cbv zeta.
  assert (HD : 0 <= DISK_MAX w)
    by (destruct Hsafe as (_ & Hst & _); unfold in_range in Hst; lia).
  pose proof (proj2 (run_seeks_safe algorithm requests startHead direction w
                       Hsafe)) as Hmax.
  set (r := run algorithm requests startHead direction w) in *.
  pose proof (run_metered algorithm requests startHead direction w HD) as Hm.
  fold r in Hm.
  assert (H0 : Step.seek (nth 0 r (Step.mk 0 0 [] [])) = 0).
  { subst r.
    destruct (run_shape algorithm requests startHead direction w)
      as [body ->]. reflexivity. }
  assert (Hlen : (2 <= length r)%nat) by apply run_has_two_steps.
  destruct (traceRows_columns r) as (Hmove & Hstep & Htot).
  assert (Hrun : forall i d, (i < length (traceRows r))%nat ->
            TraceRow.totalSeek (nth i (traceRows r) d)
            = total (map TraceRow.seek (firstn (S i) (traceRows r)))).
  { intros i d Hi. rewrite length_traceRows in Hi.
    now apply trace_running_total. }
  splits; auto.
  apply trace_total; auto.
  intros Hnil. rewrite Hnil in Hlen. simpl in Hlen. lia.
Qed.

Lemma trace_seek_column_adds_up_witness :
  let r := run "c-scan" [98; 183; 37] 53 "right" (page 199) in
  let rows := traceRows r in
  map TraceRow.step rows = seq 0 (length r) /\
  map TraceRow.moveTo rows = fullPath r /\
  (forall i d, (i < length rows)%nat ->
     TraceRow.totalSeek (nth i rows d)
     = total (map TraceRow.seek (firstn (S i) rows))) /\
  total (map TraceRow.seek rows) = finalSeek r /\
  finalSeek r <= MAX_SAFE_INTEGER.
Proof.
  apply (trace_seek_column_adds_up "c-scan" [98; 183; 37] 53 "right"
           (page 199)).
  unfold safe_inputs, in_range. simpl.
  split; [repeat constructor; lia | split; [lia |]].
  vm_compute. discriminate.
Defined.
